(** * Huffman coding example: a shallow embedding and its properties

    The development follows the two programs of the repository:
    - [memory_efficent_huffman.cc]: [huffman::build_encoding] (queue seeding,
      merge loop, recursive walk) and the pipeline of its [main] (length
      limiting loop, dense [encoding_table], encode loop, decode loop);
    - [huffman_code.cc]: the serial encoder and the OpenMP encoder (exclusive
      scan of the codeword lengths followed by a scatter).

    Conventions.
    - [value_t = int32_t] is a [Z] in [-2^31, 2^31); arithmetic that the
      source performs on [int] is wrapped by [wrap32].
    - [count_t = size_t] is a [Z] in [0, 2^64); the sums of counts are wrapped
      by [wrap64].
    - [id_t = size_t] only ever holds the number of interior nodes created so
      far plus one; it is a [nat], and so is a [size_t] that holds the size
      or an index of a vector.
    - [std::map] is a [gmap] that is iterated in ascending key order;
      [std::unordered_map] is a [gmap]; [std::vector] is a [list];
      [std::vector<bool>] is a [list bool].
    - [std::priority_queue] is not part of the repository: it is an interface
      ([PriorityQueue]) stating what the C++ standard guarantees, and every
      theorem holds for every implementation of it. A list implementation
      ([list_pq]) makes the definitions executable.
    - Exceptions, [std::terminate] and operations without defined behaviour
      are the [Err] results of the [result] type. *)

From stdpp Require Import gmap list sorting.

Set Default Proof Using "Type*".
Set Warnings "-clear-no-such-hyp".
Local Open Scope Z_scope.

(** ** Machine integers *)

Definition wrap32 (z : Z) : Z := (z + 2 ^ 31) `mod` 2 ^ 32 - 2 ^ 31.
Definition wrap64 (z : Z) : Z := z `mod` 2 ^ 64.
Definition is_int32 (z : Z) : Prop := - 2 ^ 31 ≤ z < 2 ^ 31.

#[export] Instance is_int32_dec z : Decision (is_int32 z).
Proof. unfold is_int32. apply _. Defined.

(** ** Failures *)

Inductive failure : Type :=
  | invalid_argument      (* std::invalid_argument, thrown by build_encoding *)
  | runtime_error         (* std::runtime_error, thrown by the length limiter *)
  | out_of_range          (* std::out_of_range, thrown by .at() *)
  | bad_optional_access   (* std::bad_optional_access, thrown by .value() *)
  | length_error          (* std::length_error, thrown by the vector constructor *)
  | terminate             (* std::terminate: an exception leaves an OpenMP
                             region, which none may *)
  | undefined_behavior.   (* top()/pop() on an empty queue, operator[] out of
                             bounds, dereferencing end(), an inscan loop
                             without an iteration *)

Inductive result (A : Type) : Type :=
  | Ok (a : A)
  | Err (e : failure).
Arguments Ok {A} a.
Arguments Err {A} e.

Definition rbind {A B : Type} (r : result A) (k : A → result B) : result B :=
  match r with
  | Ok a => k a
  | Err e => Err e
  end.

Notation "x ←ᵣ r ; k" := (rbind r (λ x, k))
  (at level 20, r at level 100, k at level 200, right associativity,
   format "x  ←ᵣ  r ;  '/' k").
Notation "' p ←ᵣ r ; k" := (rbind r (λ x, let 'p := x in k))
  (at level 20, p pattern, r at level 100, k at level 200, right associativity,
   format "' p  ←ᵣ  r ;  '/' k").

Definition of_option {A : Type} (e : failure) (o : option A) : result A :=
  match o with
  | Some a => Ok a
  | None => Err e
  end.

(** ** The priority queue interface

    [std::priority_queue<E, std::vector<E>, std::greater<E>>] where
    [operator>] compares a priority: [top] is an element of least priority,
    which one among equals is left open. *)

Class PriorityQueue (E : Type) (prio : E → Z) : Type := {
  pq_car : Type;
  pq_empty : pq_car;
  pq_emplace : E → pq_car → pq_car;
  pq_top : pq_car → option E;       (* None: the queue is empty *)
  pq_pop : pq_car → pq_car;
  pq_size : pq_car → nat;
  pq_elems : pq_car → list E;       (* the contents, in no particular order *)
  pq_elems_empty : pq_elems pq_empty = [];
  pq_elems_emplace e q : pq_elems (pq_emplace e q) ≡ₚ e :: pq_elems q;
  pq_size_elems q : pq_size q = length (pq_elems q);
  pq_top_is_Some q : pq_elems q ≠ [] → is_Some (pq_top q);
  pq_top_least q e x : pq_top q = Some e → x ∈ pq_elems q → prio e ≤ prio x;
  pq_top_pop q e : pq_top q = Some e → pq_elems q ≡ₚ e :: pq_elems (pq_pop q);
}.
Arguments pq_car {E prio} _.

(** A list implementation: [top] selects the first element of least
    priority. Its laws are proved further down ([list_pq]). *)
Fixpoint take_min {E : Type} (prio : E → Z) (l : list E) : option (E * list E) :=
  match l with
  | [] => None
  | x :: l' =>
      match take_min prio l' with
      | None => Some (x, [])
      | Some (y, r) => if prio y <? prio x then Some (y, x :: r) else Some (x, l')
      end
  end.

(** ** [huffman::build_encoding] (memory_efficent_huffman.cc, lines 24-130) *)

(** What the template needs of its [Value] parameter: the order that
    [std::map<Value, count_t>] iterates in, and the value that the member
    initialiser [Value value = 0] gives to an interior node. *)
Class HuffmanValue (Value : Type) : Type := {
  value_le : Value → Value → bool;
  value_zero : Value;
}.

#[export] Instance value_t_HuffmanValue : HuffmanValue Z := {|
  value_le := Z.leb;
  value_zero := 0;
|}.

(** [std::optional<value_t>]: [std::nullopt] is less than every value, and
    [= 0] initialises an optional that holds [0]. *)
#[export] Instance optional_HuffmanValue : HuffmanValue (option Z) := {|
  value_le a b :=
    match a, b with
    | None, _ => true
    | Some _, None => false
    | Some x, Some y => Z.leb x y
    end;
  value_zero := Some 0;
|}.

(** Iteration over a [std::map]: the entries in ascending key order. *)
Definition map_in_order `{Countable K, HuffmanValue K} {V : Type}
    (m : gmap K V) : list (K * V) :=
  merge_sort (λ a b, value_le a.1 b.1) (map_to_list m).

Record queue_entry (Value : Type) : Type := mk_entry {
  id : nat;       (* used to identify interior nodes uniquely *)
  value : Value;  (* used to provide the values for leaf nodes *)
  count : Z;      (* the count of interior or leaf nodes *)
}.
Arguments mk_entry {Value} id value count.
Arguments id {Value} _.
Arguments value {Value} _.
Arguments count {Value} _.

(** [left] and [right] are [std::shared_ptr<tree>]; [None] is the null
    pointer. *)
#[warnings="-register-all"]
Inductive tree (Value : Type) : Type :=
  | mk_tree (entry : queue_entry Value) (left right : option (tree Value)).
Arguments mk_tree {Value} entry left right.

Definition entry {Value} (t : tree Value) : queue_entry Value :=
  let 'mk_tree e _ _ := t in e.
Definition left {Value} (t : tree Value) : option (tree Value) :=
  let 'mk_tree _ l _ := t in l.
Definition right {Value} (t : tree Value) : option (tree Value) :=
  let 'mk_tree _ _ r := t in r.

(** The lambda [insert_or_retrieve_child]: the child and the new
    [interiors]. *)
Definition insert_or_retrieve_child {Value} (interiors : gmap nat (tree Value))
    (e : queue_entry Value) : tree Value * gmap nat (tree Value) :=
  match interiors !! id e with
  | Some child => (child, delete (id e) interiors)
  | None => (mk_tree (mk_entry 0 (value e) (count e)) None None, interiors)
  end.

(** Lines 101-125: the recursive lambda [walk_impl]; [encoding] is the
    captured [std::unordered_map]. *)
Fixpoint walk_impl `{Countable Value} (node : tree Value) (path : list bool)
    (encoding : gmap Value (list bool)) : gmap Value (list bool) :=
  match node with
  | mk_tree e l r =>
      let encoding1 :=
        match l with
        | Some l' => walk_impl l' (path ++ [false]) encoding
        | None => encoding
        end in
      let encoding2 :=
        match r with
        | Some r' => walk_impl r' (path ++ [true]) encoding1
        | None => encoding1
        end in
      if decide (id e = 0%nat) then <[value e := path]> encoding2 else encoding2
  end.

Definition walk `{Countable Value} (node : tree Value) : gmap Value (list bool) :=
  walk_impl node [] ∅.

Section build_encoding.
Context `{Countable Value, HuffmanValue Value}.
Context `{PQ : !PriorityQueue (queue_entry Value) count}.

(** The state of the merge loop: [Q], [interiors] and [max_id]. *)
Record build_state : Type := mk_state {
  Q : pq_car PQ;
  interiors : gmap nat (tree Value);
  max_id : nat;
}.

(** Lines 74-76: one queue entry per histogram entry, in key order. *)
Definition seed_queue (histogram : gmap Value Z) : pq_car PQ :=
  foldl (λ q vc, pq_emplace (mk_entry 0 vc.1 vc.2) q) pq_empty
        (map_in_order histogram).

(** Lines 84-96: one iteration of the merge loop. [new_node] is shared with
    [interiors[max_id]]: the node is entered in [interiors] before its
    children are fetched, and the assignments through [new_node] are seen
    through [interiors], so it is written to [interiors] again at the end. *)
Definition merge_step (st : build_state) : result build_state :=
  let new_id := max_id st in
  let interiors1 :=
    <[new_id := mk_tree (mk_entry new_id value_zero 0) None None]> (interiors st) in
  top1 ←ᵣ of_option undefined_behavior (pq_top (Q st));
  let '(l, interiors2) := insert_or_retrieve_child interiors1 top1 in
  let Q1 := pq_pop (Q st) in
  top2 ←ᵣ of_option undefined_behavior (pq_top Q1);
  let '(r, interiors3) := insert_or_retrieve_child interiors2 top2 in
  let Q2 := pq_pop Q1 in
  let new_entry :=
    mk_entry new_id value_zero (wrap64 (count (entry l) + count (entry r))) in
  let new_node := mk_tree new_entry (Some l) (Some r) in
  Ok (mk_state (pq_emplace new_entry Q2)
               (<[new_id := new_node]> interiors3)
               (S new_id)).

(** Lines 81-97: [while (Q.size() >= 2)]. Every iteration shrinks the queue
    by one, so [pq_size Q] iterations are enough; [build_tree_Ok] shows that
    the fuel never runs out. *)
Fixpoint merge_loop (fuel : nat) (st : build_state) : result build_state :=
  if decide (2 ≤ pq_size (Q st))%nat then
    match fuel with
    | O => Err undefined_behavior
    | S fuel' => st' ←ᵣ merge_step st; merge_loop fuel' st'
    end
  else Ok st.

(** The body of the loop runs [k] times from [st], ends in [st'], and the
    loop condition is false there. *)
Inductive loop_runs : nat → build_state → build_state → Prop :=
  | loop_runs_exit st :
      ¬ (2 ≤ pq_size (Q st))%nat → loop_runs 0 st st
  | loop_runs_body k st st' st'' :
      (2 ≤ pq_size (Q st))%nat → merge_step st = Ok st' →
      loop_runs k st' st'' → loop_runs (S k) st st''.

(** Lines 26-97 and 127: the final state of the merge loop and the tree
    [root] that the walk starts from. *)
Definition build_tree (histogram : gmap Value Z)
    : result (build_state * tree Value) :=
  if decide (size histogram ≤ 1)%nat then Err invalid_argument
  else
    let Q0 := seed_queue histogram in
    st ←ᵣ merge_loop (pq_size Q0) (mk_state Q0 ∅ 1);
    root ←ᵣ of_option out_of_range (interiors st !! (max_id st - 1)%nat);
    Ok (st, root).

Definition build_encoding (histogram : gmap Value Z)
    : result (gmap Value (list bool)) :=
  st_root ←ᵣ build_tree histogram;
  Ok (walk st_root.2).
End build_encoding.

(** ** The length limiting loop of [main] (memory_efficent_huffman.cc,
       lines 149-181) *)

(** Line 166: [std::reduce] over the table with the [(size_t, entry_t)]
    overload, the maximum of the codeword lengths. *)
Definition max_length (encoding : gmap (option Z) (list bool)) : nat :=
  map_fold (λ _ (c : list bool) (l : nat), l `max` length c)%nat 0%nat encoding.

(** [m[k]] on a map of counts: [operator[]] yields zero for an absent key
    (and enters it in the map, which nothing below can observe). *)
Definition count_at `{Countable K} (m : gmap K Z) (k : K) : Z :=
  default 0 (m !! k).

(** Lines 151-156. The comparison lambda of [std::sort]. *)
Definition sort_comp (hist : gmap Z Z) (lhs rhs : Z) : bool :=
  bool_decide (count_at hist lhs < count_at hist rhs).

(** [lhs] may stand before [rhs] in the sorted vector. *)
Definition not_after (hist : gmap Z Z) (lhs rhs : Z) : Prop :=
  sort_comp hist rhs lhs = false.

#[export] Instance not_after_dec hist lhs rhs : Decision (not_after hist lhs rhs).
Proof. unfold not_after. apply _. Defined.

(** [std::sort] leaves the order of symbols of equal count open: the loop
    below takes the sorted symbols as an argument, and
    [least_to_most_probable] is what [std::sort] guarantees of them.
    [symbols_least_to_most_probable] is one such order (a stable sort of the
    keys, which [std::transform] lists in key order). *)
Definition least_to_most_probable (hist : gmap Z Z) (symbols : list Z) : Prop :=
  symbols ≡ₚ (map_to_list hist).*1 ∧ StronglySorted (not_after hist) symbols.

Definition symbols_least_to_most_probable (hist : gmap Z Z) : list Z :=
  merge_sort (not_after hist) (map_in_order hist).*1.

Section length_limit.
Context `{PQ : !PriorityQueue (queue_entry (option Z)) count}.

(** Lines 160-181: the loop over [symbols_least_to_most_probable]; the
    result is the value of [encoding] and of [working_hist] after the loop.
    [std::invalid_argument] is caught and replaced by [std::runtime_error],
    any other failure of [build_encoding] passes through. *)
Fixpoint limiter_loop (hist : gmap Z Z) (allowed_length : nat) (symbols : list Z)
    (working_hist : gmap (option Z) Z) (encoding : gmap (option Z) (list bool))
    : result (gmap (option Z) (list bool) * gmap (option Z) Z) :=
  match symbols with
  | [] => Ok (encoding, working_hist)
  | least_symbol :: symbols' =>
      let working_hist1 :=
        <[None := wrap64 (count_at working_hist None + count_at hist least_symbol)]>
          working_hist in
      let working_hist2 := delete (Some least_symbol) working_hist1 in
      match build_encoding working_hist2 with
      | Err invalid_argument => Err runtime_error
      | Err e => Err e
      | Ok encoding' =>
          if decide (max_length encoding' ≤ allowed_length)%nat
          then Ok (encoding', working_hist2)
          else limiter_loop hist allowed_length symbols' working_hist2 encoding'
      end
  end.

(** Lines 150 and 159-181: [encoding] starts empty and [working_hist] as a
    copy of [hist]. *)
Definition build_length_limited (hist : gmap Z Z) (allowed_length : nat)
    (symbols : list Z)
    : result (gmap (option Z) (list bool) * gmap (option Z) Z) :=
  limiter_loop hist allowed_length symbols (kmap Some hist) ∅.
End length_limit.

(** ** The dense table (lines 184-209) *)

(** [std::max_element]: the first element that no later one exceeds. *)
Definition max_element {A : Type} (comp : A → A → bool) (l : list A) : option A :=
  match l with
  | [] => None
  | x :: l' => Some (foldl (λ largest y, if comp largest y then y else largest) x l')
  end.

(** The two comparison lambdas (lines 186-191 and 194-199). *)
Definition comp_least (lhs rhs : option Z * list bool) : bool :=
  match lhs.1, rhs.1 with
  | None, None => false
  | Some _, None => false
  | None, Some _ => true
  | Some a, Some b => bool_decide (a > b)
  end.

Definition comp_greatest (lhs rhs : option Z * list bool) : bool :=
  match lhs.1, rhs.1 with
  | None, None => false
  | Some _, None => false
  | None, Some _ => true
  | Some a, Some b => bool_decide (a < b)
  end.

(** [max_element(...)->first.value()]: dereferencing [end()] is undefined,
    [value()] of an empty optional throws. *)
Definition non_null_value (comp : option Z * list bool → option Z * list bool → bool)
    (encoding : gmap (option Z) (list bool)) : result Z :=
  match max_element comp (map_to_list encoding) with
  | None => Err undefined_behavior
  | Some (None, _) => Err bad_optional_access
  | Some (Some v, _) => Ok v
  end.

Definition least_non_null_value := non_null_value comp_least.
Definition greatest_non_null_value := non_null_value comp_greatest.

(** [encoding[std::nullopt]]: [operator[]] yields an empty codeword when the
    key is absent (and enters it in the map, which no later lookup of a
    value key can observe). *)
Definition unpredictable_encoding (encoding : gmap (option Z) (list bool))
    : list bool :=
  default [] (encoding !! None).

(** Line 202: the vector of [greatest - least] empty codewords; the [int]
    difference becomes a [size_t], and a negative one is more than any
    vector can hold. *)
Definition new_encoding_table (least greatest : Z) : result (list (list bool)) :=
  let n := wrap32 (greatest - least) in
  if decide (n < 0) then Err length_error else Ok (replicate (Z.to_nat n) []).

(** Lines 203-209, for [i] running over [indices]: the key
    [i + least_non_null_value] is a [size_t] converted to [value_t]. *)
Definition fill_indices (encoding : gmap (option Z) (list bool)) (least : Z)
    (indices : list nat) (encoding_table : list (list bool)) : list (list bool) :=
  foldl (λ table i,
           match encoding !! Some (wrap32 (Z.of_nat i + least)) with
           | Some c => <[i := c]> table
           | None => <[i := unpredictable_encoding encoding]> table
           end)
        encoding_table indices.

Definition fill_encoding_table (encoding : gmap (option Z) (list bool))
    (least : Z) (encoding_table : list (list bool)) : list (list bool) :=
  fill_indices encoding least (seq 0 (length encoding_table)) encoding_table.

Record dense_table : Type := mk_dense {
  least : Z;                             (* least_non_null_value *)
  greatest : Z;                          (* greatest_non_null_value *)
  encoding_table : list (list bool);
  escape : list bool;                    (* unpredictable_encoding *)
}.

Definition materialize (encoding : gmap (option Z) (list bool)) : result dense_table :=
  l ←ᵣ least_non_null_value encoding;
  g ←ᵣ greatest_non_null_value encoding;
  table ←ᵣ new_encoding_table l g;
  Ok (mk_dense l g (fill_encoding_table encoding l table)
               (unpredictable_encoding encoding)).

(** ** The encode loop (lines 211-226) *)

(** One iteration: the new [encoded_sequence] and [unpredictable]. The table
    is read only when the two bounds tests fail. *)
Definition encode_step (d : dense_table) (st : list bool * list Z) (i : Z)
    : result (list bool * list Z) :=
  let encode_index := wrap32 (i - least d) in
  let as_unpredictable := Ok (st.1 ++ escape d, st.2 ++ [i]) in
  if decide (encode_index < 0) then as_unpredictable
  else if decide (wrap32 (Z.of_nat (length (encoding_table d))) ≤ encode_index)
  then as_unpredictable
  else
    c ←ᵣ of_option undefined_behavior (encoding_table d !! Z.to_nat encode_index);
    if decide (c = escape d) then as_unpredictable
    else Ok (st.1 ++ c, st.2).

Fixpoint encode_loop (d : dense_table) (sequence : list Z) (st : list bool * list Z)
    : result (list bool * list Z) :=
  match sequence with
  | [] => Ok st
  | i :: sequence' => st' ←ᵣ encode_step d st i; encode_loop d sequence' st'
  end.

Definition encode (d : dense_table) (sequence : list Z) : result (list bool * list Z) :=
  encode_loop d sequence ([], []).

(** ** The decode loop (lines 228-248) *)

(** Lines 232-235: [encodings_to_indices], the indices as [int]. *)
Definition index_encodings (encoding_table : list (list bool))
    (indices : list nat) (m : gmap (list bool) Z) : gmap (list bool) Z :=
  foldl (λ m i, <[default [] (encoding_table !! i) := wrap32 (Z.of_nat i)]> m)
        m indices.

Definition make_encodings_to_indices (d : dense_table) : gmap (list bool) Z :=
  <[escape d := 0]>
    (index_encodings (encoding_table d) (seq 0 (length (encoding_table d))) ∅).

Record decode_state : Type := mk_decode {
  decoded_sequence : list Z;
  so_far : list bool;
  unpred_idx : nat;
}.

(** Lines 239-246, the body of [if (encodings_to_indices.contains(so_far))]
    for the accumulator [matched] and its index. Reading [unpredictable]
    past its end is undefined. *)
Definition on_match (d : dense_table) (unpredictable : list Z)
    (st : decode_state) (matched : list bool) (idx : Z) : result decode_state :=
  if decide (matched ≠ escape d) then
    Ok (mk_decode (decoded_sequence st ++ [wrap32 (idx + least d)]) []
                  (unpred_idx st))
  else
    v ←ᵣ of_option undefined_behavior (unpredictable !! unpred_idx st);
    Ok (mk_decode (decoded_sequence st ++ [v]) [] (S (unpred_idx st))).

(** Lines 236-248. *)
Fixpoint decode_loop (d : dense_table) (encodings_to_indices : gmap (list bool) Z)
    (unpredictable : list Z) (encoded_sequence : list bool) (st : decode_state)
    : result decode_state :=
  match encoded_sequence with
  | [] => Ok st
  | b :: rest =>
      let so_far' := so_far st ++ [b] in
      match encodings_to_indices !! so_far' with
      | Some idx =>
          st' ←ᵣ on_match d unpredictable st so_far' idx;
          decode_loop d encodings_to_indices unpredictable rest st'
      | None =>
          decode_loop d encodings_to_indices unpredictable rest
            (mk_decode (decoded_sequence st) so_far' (unpred_idx st))
      end
  end.

Definition decode (d : dense_table) (encoded_sequence : list bool)
    (unpredictable : list Z) : result decode_state :=
  decode_loop d (make_encodings_to_indices d) unpredictable encoded_sequence
              (mk_decode [] [] 0).

(** ** The two encoders of huffman_code.cc (lines 167-242)

    [encoded] and [par_encoded] are [std::vector<uint8_t>]: a bit of a
    codeword is stored as the byte 0 or 1. *)

(** Lines 169-173, the serial encoder: [encoding.at(v)] throws
    [std::out_of_range] for a value without a codeword. *)
Fixpoint serial_loop (encoding : gmap Z (list bool)) (values : list Z)
    (encoded : list Z) : result (list Z) :=
  match values with
  | [] => Ok encoded
  | v :: values' =>
      c ←ᵣ of_option out_of_range (encoding !! v);
      serial_loop encoding values' (encoded ++ (Z.b2z <$> c))
  end.

Definition serial_encode (encoding : gmap Z (list bool)) (values : list Z)
    : result (list Z) :=
  serial_loop encoding values [].

(** Lines 184-188. *)
Definition largest_encoding (encoding : gmap Z (list bool)) : nat :=
  map_fold (λ _ (encoded : list bool) (l : nat), l `max` length encoded)%nat
           0%nat encoding.

(** Lines 216-221, the exclusive scan. For a loop of one iteration or more
    OpenMP defines the result of the [inscan] reduction as that of the loop
    run in order: [offsets[i]] reads the sum of the lengths before position
    [i], and [acc] after the loop is its value in the last iteration. A loop
    without an iteration has no last iteration and the value of [acc] is not
    defined (the program built with g++ crashes there). [encoding.at] throws
    inside the parallel region, which no exception may leave. *)
Fixpoint scan_loop (encoding : gmap Z (list bool)) (values : list Z) (i : nat)
    (acc : nat) (offsets : list nat) : result (nat * list nat) :=
  match values with
  | [] => Err undefined_behavior
  | v :: values' =>
      c ←ᵣ of_option terminate (encoding !! v);
      let offsets' := <[i := acc]> offsets in
      let acc' := (acc + length c)%nat in
      match values' with
      | [] => Ok (acc', offsets')
      | _ :: _ => scan_loop encoding values' (S i) acc' offsets'
      end
  end.

(** Lines 231-236, the scatter: the stores [par_encoded[j + offsets[i]] =
    encoded[j]] of all iterations, in program order. The loop is in the
    same parallel region. *)
Fixpoint scatter_stores (encoding : gmap Z (list bool)) (values : list Z)
    (i : nat) (offsets : list nat) : result (list (nat * Z)) :=
  match values with
  | [] => Ok []
  | v :: values' =>
      encoded ←ᵣ of_option terminate (encoding !! v);
      offset ←ᵣ of_option undefined_behavior (offsets !! i);
      stores ←ᵣ scatter_stores encoding values' (S i) offsets;
      Ok (imap (λ j b, ((j + offset)%nat, Z.b2z b)) encoded ++ stores)
  end.

(** The stores are executed by the threads of the team in some order; a
    store outside the vector is undefined. *)
Fixpoint run_stores (stores : list (nat * Z)) (par_encoded : list Z)
    : result (list Z) :=
  match stores with
  | [] => Ok par_encoded
  | (k, x) :: stores' =>
      if decide (k < length par_encoded)%nat
      then run_stores stores' (<[k := x]> par_encoded)
      else Err undefined_behavior
  end.

(** Lines 184-242. [schedule] reorders the stores of the scatter loop. *)
Definition parallel_encode (schedule : list (nat * Z) → list (nat * Z))
    (encoding : gmap Z (list bool)) (values : list Z) : result (list Z) :=
  let par_encoded := replicate (length values * largest_encoding encoding) 0 in
  '(acc, offsets) ←ᵣ scan_loop encoding values 0 0 (replicate (length values) 0%nat);
  stores ←ᵣ scatter_stores encoding values 0 offsets;
  par_encoded' ←ᵣ run_stores (schedule stores) par_encoded;
  Ok (resize acc 0 par_encoded').

(** ** Vocabulary of the properties *)

(** Nodes with a child, and nodes without one. *)
Fixpoint interior_count {Value} (t : tree Value) : nat :=
  match t with
  | mk_tree _ None None => 0
  | mk_tree _ l r =>
      S (match l with Some l' => interior_count l' | None => 0 end +
         match r with Some r' => interior_count r' | None => 0 end)
  end.

Fixpoint leaf_count {Value} (t : tree Value) : nat :=
  match t with
  | mk_tree _ None None => 1
  | mk_tree _ l r =>
      match l with Some l' => leaf_count l' | None => 0 end +
      match r with Some r' => leaf_count r' | None => 0 end
  end.

(** A full binary tree in the sense of the program: a node made for a
    queue entry of id 0 has no child, a node with another id has two. *)
Inductive full_binary {Value} : tree Value → Prop :=
  | full_leaf v c : full_binary (mk_tree (mk_entry 0 v c) None None)
  | full_node e l r :
      id e ≠ 0%nat → full_binary l → full_binary r →
      full_binary (mk_tree e (Some l) (Some r)).

(** The assignments [encoding[value] = path] of a walk, in the order in
    which [walk_impl] makes them. *)
Fixpoint codes {Value} (node : tree Value) (path : list bool)
    : list (Value * list bool) :=
  match node with
  | mk_tree e l r =>
      match l with Some l' => codes l' (path ++ [false]) | None => [] end ++
      match r with Some r' => codes r' (path ++ [true]) | None => [] end ++
      (if decide (id e = 0%nat) then [(value e, path)] else [])
  end.

(** One assignment of the walk. *)
Definition assign `{Countable Value} (encoding : gmap Value (list bool))
    (vp : Value * list bool) : gmap Value (list bool) :=
  <[vp.1 := vp.2]> encoding.

(** The values that a walk assigns a codeword to. *)
Definition leaf_values {Value} (node : tree Value) : list Value :=
  (codes node []).*1.

(** No codeword is a prefix of the codeword of another symbol (so two
    symbols never share a codeword either). *)
Definition prefix_free `{Countable K} (encoding : gmap K (list bool)) : Prop :=
  ∀ k1 k2 c1 c2,
    encoding !! k1 = Some c1 → encoding !! k2 = Some c2 → k1 ≠ k2 →
    ¬ c1 `prefix_of` c2.

(** The tree that a queue entry stands for: the interior node of its id, or
    a new leaf (the first component of [insert_or_retrieve_child]). *)
Definition subtree {Value} (interiors : gmap nat (tree Value))
    (e : queue_entry Value) : tree Value :=
  (insert_or_retrieve_child interiors e).1.

(** The invariant of the merge loop, on the contents [es] of the queue. *)
Record forest_inv {Value} (keys : list Value) (es : list (queue_entry Value))
    (interiors : gmap nat (tree Value)) (max_id : nat) : Prop := {
  inv_ids : Forall (λ e, id e < max_id)%nat es;
  inv_nodup : NoDup (filter (λ k, k ≠ 0%nat) (id <$> es));
  inv_zero : interiors !! 0%nat = None;
  inv_pos : (1 ≤ max_id)%nat;
  inv_full : Forall (λ e, full_binary (subtree interiors e)) es;
  inv_leaves : es ≫= (λ e, leaf_values (subtree interiors e)) ≡ₚ keys;
  inv_interior :
    (sum_list_with (λ e, interior_count (subtree interiors e)) es + length es
     = length keys)%nat;
  inv_max_id : (max_id + length es = S (length keys))%nat;
  inv_nonempty : es ≠ [];
  inv_last :
    max_id = 1%nat ∨
    ∃ e, e ∈ es ∧ id e = (max_id - 1)%nat ∧ is_Some (interiors !! id e);
}.

(** The bytes that the encoders of huffman_code.cc emit for one value and
    for a sequence of values. *)
Definition bytes_of (encoding : gmap Z (list bool)) (v : Z) : list Z :=
  Z.b2z <$> default [] (encoding !! v).

Definition encoded_bytes (encoding : gmap Z (list bool)) (values : list Z)
    : list Z :=
  values ≫= bytes_of encoding.
Arguments bytes_of : simpl never.
Arguments encoded_bytes : simpl never.

(** The codeword that the filling loop stores at index [i]. *)
Definition entry_of (encoding : gmap (option Z) (list bool)) (least : Z)
    (i : nat) : list bool :=
  match encoding !! Some (wrap32 (Z.of_nat i + least)) with
  | Some c => c
  | None => unpredictable_encoding encoding
  end.

(** The encoder seen from outside: a symbol is escaped when its index
    [s - least], as an integer, is outside the table, or when the table
    holds the escape codeword there. *)
Definition escaped (d : dense_table) (s : Z) : Prop :=
  s - least d < 0 ∨
  Z.of_nat (length (encoding_table d)) ≤ s - least d ∨
  encoding_table d !! Z.to_nat (s - least d) = Some (escape d).

#[export] Instance escaped_dec d s : Decision (escaped d s).
Proof. unfold escaped. apply _. Defined.

Definition codeword (d : dense_table) (s : Z) : list bool :=
  if decide (escaped d s) then escape d
  else default [] (encoding_table d !! Z.to_nat (s - least d)).

(** What the encode loop needs of the dense table: it spans the
    [int32_t] values from [least] up to, but not including, [greatest]. *)
Record dense_range (d : dense_table) : Prop := {
  range_least : is_int32 (least d);
  range_greatest : is_int32 (greatest d);
  range_length : Z.of_nat (length (encoding_table d)) = greatest d - least d;
  range_size : Z.of_nat (length (encoding_table d)) < 2 ^ 31;
}.

(** What the decode loop needs in addition: the codewords of the table and
    the escape codeword form a prefix code, and a codeword other than the
    escape codeword stands at one index only. *)
Record dense_ok (d : dense_table) : Prop := {
  ok_range : dense_range d;
  ok_nonempty : ∀ c, c ∈ escape d :: encoding_table d → c ≠ [];
  ok_prefix : ∀ c c',
    c ∈ escape d :: encoding_table d → c' ∈ escape d :: encoding_table d →
    c `prefix_of` c' → c = c';
  ok_unique : ∀ i j c,
    encoding_table d !! i = Some c → encoding_table d !! j = Some c →
    c ≠ escape d → i = j;
}.

(** The keys of a table are [int32_t] values ([int32_key] is the test for
    one key, as a boolean). *)
Definition int32_key (k : option Z) : bool :=
  match k with
  | Some z => bool_decide (is_int32 z)
  | None => true
  end.

Definition int32_keys {V} (m : gmap (option Z) V) : Prop :=
  ∀ k, is_Some (m !! Some k) → is_int32 k.

(** What holds of [encoding] and [working_hist] once the body of the length
    limiting loop has run: the table is the one built from the working
    histogram, which has an entry for [std::nullopt] and otherwise only keys
    of [keys]. *)
Definition merged `{PQ : !PriorityQueue (queue_entry (option Z)) count}
    (keys : gset (option Z)) (encoding : gmap (option Z) (list bool))
    (working_hist : gmap (option Z) Z) : Prop :=
  build_encoding working_hist = Ok encoding ∧
  is_Some (working_hist !! None) ∧
  dom working_hist ⊆ {[None]} ∪ keys.

(** The data of [main]. *)
Definition hist_main : gmap Z Z :=
  list_to_map [(5, 95); (-5, 106); (-4, 7022); (4, 6938); (3, 179139);
    (-2, 1819395); (1, 7253819); (-3, 179326); (0, 11488681); (2, 1817008);
    (-1, 7248471)].
Definition allowed_length_main : nat := 8.
Definition sequence_main : list Z := [-5; -4; -3; -2; -1; 0; 1; 2; 3; 4; 5].

(** What the program computes from them: [encoding] and [working_hist]
    after the length limiting loop (the symbols 5, -5 and 4 are merged), and
    the dense table. *)
Definition encoding_main : gmap (option Z) (list bool) :=
  list_to_map [
    (None, [true; true; false; true; false; true; false; true]);
    (Some (-4), [true; true; false; true; false; true; false; false]);
    (Some (-3), [true; true; false; true; false; false]);
    (Some (-2), [true; true; false; false]);
    (Some (-1), [true; true; true]);
    (Some 0, [false]);
    (Some 1, [true; false]);
    (Some 2, [true; true; false; true; true]);
    (Some 3, [true; true; false; true; false; true; true])].

Definition working_hist_main : gmap (option Z) Z :=
  list_to_map [(None, 7139); (Some (-4), 7022); (Some (-3), 179326);
    (Some (-2), 1819395); (Some (-1), 7248471); (Some 0, 11488681);
    (Some 1, 7253819); (Some 2, 1817008); (Some 3, 179139)].

Definition dense_main : dense_table := {|
  least := -4;
  greatest := 3;
  encoding_table := [
    [true; true; false; true; false; true; false; false];
    [true; true; false; true; false; false];
    [true; true; false; false];
    [true; true; true];
    [false];
    [true; false];
    [true; true; false; true; true]];
  escape := [true; true; false; true; false; true; false; true];
|}.

(** The bitstream of [sequence_main]: the values -5, 3, 4 and 5 are escaped. *)
Definition encoded_sequence_main : list bool :=
  mjoin [
    [true; true; false; true; false; true; false; true];   (* -5, escaped *)
    [true; true; false; true; false; true; false; false];  (* -4 *)
    [true; true; false; true; false; false];               (* -3 *)
    [true; true; false; false];                            (* -2 *)
    [true; true; true];                                    (* -1 *)
    [false];                                               (* 0 *)
    [true; false];                                         (* 1 *)
    [true; true; false; true; true];                       (* 2 *)
    [true; true; false; true; false; true; false; true];   (* 3, escaped *)
    [true; true; false; true; false; true; false; true];   (* 4, escaped *)
    [true; true; false; true; false; true; false; true]].  (* 5, escaped *)

(** A histogram of three symbols with the counts 1, 2 and 4, the table
    built from it as it is, and what the length limiting loop and
    [materialize] make of it with a budget of 8 (the symbol 1 is merged). *)
Definition hist_small : gmap Z Z := list_to_map [(1, 1); (2, 2); (3, 4)].

Definition encoding_unmerged_small : gmap (option Z) (list bool) :=
  list_to_map [(Some 1, [false; false]); (Some 2, [false; true]); (Some 3, [true])].

Definition encoding_small : gmap (option Z) (list bool) :=
  list_to_map [(None, [false; false]); (Some 2, [false; true]); (Some 3, [true])].

Definition working_hist_small : gmap (option Z) Z :=
  list_to_map [(None, 1); (Some 2, 2); (Some 3, 4)].

Definition dense_small : dense_table := {|
  least := 2;
  greatest := 3;
  encoding_table := [[false; true]];
  escape := [false; false];
|}.

(** The histograms {A:1, B:1} and {A:1, B:1, C:2} with 1, 2, 3 for A, B, C. *)
Definition hist_ab : gmap Z Z := list_to_map [(1, 1); (2, 1)].
Definition hist_abc : gmap Z Z := list_to_map [(1, 1); (2, 1); (3, 2)].

(** A histogram of one symbol. *)
Definition hist_single : gmap Z Z := list_to_map [(7, 3)].

(** A code table and a sequence for the encoders of huffman_code.cc. *)
Definition encoding_two : gmap Z (list bool) :=
  list_to_map [(1, [true]); (2, [false; true])].
Definition values_two : list Z := [1; 2; 2; 1].

(** ** Counts, weights and costs *)

Definition sum_counts (l : list Z) : Z := foldr Z.add 0 l.

(** The number of samples that a histogram stands for. *)
Definition total_count `{Countable K} (hist : gmap K Z) : Z :=
  sum_counts (map_to_list hist).*2.

(** The leaves of a tree with their counts, in the order of the walk. *)
Fixpoint leaf_entries {Value} (node : tree Value) : list (Value * Z) :=
  match node with
  | mk_tree e l r =>
      match l with Some l' => leaf_entries l' | None => [] end ++
      match r with Some r' => leaf_entries r' | None => [] end ++
      (if decide (id e = 0%nat) then [(value e, count e)] else [])
  end.

(** The number of bits that a table spends on a sequence in which every
    symbol occurs as often as the histogram says. *)
Definition weighted_length `{Countable K} (hist : gmap K Z)
    (encoding : gmap K (list bool)) : Z :=
  sum_counts ((λ kc, kc.2 * Z.of_nat (length (default [] (encoding !! kc.1))))
                <$> map_to_list hist).

(** What the merge loop keeps of the counts, on the contents [es] of the
    queue: [interiors] holds nodes of queue entries only, the node of an
    entry carries that entry, the leaves below the entries are the entries
    of the histogram, and the count of an entry is the sum of the counts of
    its leaves as a [size_t]. *)
Record ledger_inv `{Countable Value} (histogram : gmap Value Z)
    (es : list (queue_entry Value)) (interiors : gmap nat (tree Value)) : Prop := {
  led_owner : ∀ k, is_Some (interiors !! k) → k ∈ id <$> es;
  led_entry : ∀ e, e ∈ es → entry (subtree interiors e) = e;
  led_leaves :
    es ≫= (λ e, leaf_entries (subtree interiors e)) ≡ₚ map_to_list histogram;
  led_weight : ∀ e, e ∈ es →
    wrap64 (count e) = wrap64 (sum_counts (leaf_entries (subtree interiors e)).*2);
  led_wrapped : ∀ e, e ∈ es → id e ≠ 0%nat → count e = wrap64 (count e);
}.

(** Lines 162-163, the body of the length limiting loop up to the call of
    [build_encoding]: the count of [least_symbol] is added to the count of
    [std::nullopt] and its entry is erased ([limiter_loop] has the same two
    steps inline). *)
Definition merge_symbol (hist : gmap Z Z) (working_hist : gmap (option Z) Z)
    (least_symbol : Z) : gmap (option Z) Z :=
  delete (Some least_symbol)
    (<[None := wrap64 (count_at working_hist None + count_at hist least_symbol)]>
       working_hist).

(** [working_hist] after the symbols of [merged_symbols] have been merged,
    one iteration each. *)
Definition working_hist_after (hist : gmap Z Z) (merged_symbols : list Z)
    : gmap (option Z) Z :=
  foldl (merge_symbol hist) (kmap Some hist) merged_symbols.

(** ** The first stages of huffman_code.cc (lines 30-142) *)

(** Lines 33-36, stage 1: [histogram[v]++] for every value. *)
Definition count_value (histogram : gmap Z Z) (v : Z) : gmap Z Z :=
  <[v := wrap64 (count_at histogram v + 1)]> histogram.

Definition make_histogram (values : list Z) : gmap Z Z :=
  foldl count_value ∅ values.

(** The histogram is a [std::unordered_map], which is iterated in an order
    that is not specified: [entries] is the order in which a loop over it
    meets the entries. *)
Definition iteration_order (histogram : gmap Z Z) (entries : list (Z * Z)) : Prop :=
  entries ≡ₚ map_to_list histogram.

Section huffman_code.
Context `{PQ : !PriorityQueue (queue_entry Z) count}.

(** Lines 88-90: one queue entry per histogram entry. *)
Definition emplace_entries (entries : list (Z * Z)) : pq_car PQ :=
  foldl (λ q vc, pq_emplace (mk_entry 0 vc.1 vc.2) q) pq_empty entries.

(** Lines 93-142, stages 2 and 3: the merge loop, whose body is that of
    [huffman::build_encoding] word for word, the root and the walk. The
    size of the histogram is not tested. *)
Definition main_encoding (entries : list (Z * Z)) : result (gmap Z (list bool)) :=
  let Q0 := emplace_entries entries in
  st ←ᵣ merge_loop (pq_size Q0) (mk_state Q0 ∅ 1);
  root ←ᵣ of_option out_of_range (interiors st !! (max_id st - 1)%nat);
  Ok (walk root).
End huffman_code.

(** The number of times that [v] occurs in [values]. *)
Definition occurrences (v : Z) (values : list Z) : Z :=
  Z.of_nat (length (filter (λ x, x = v) values)).

(** ** Vocabulary of the optimality of the table *)

(** A list of leaves as (weight, depth) pairs and its cost, the sum of
    weight times depth. *)
Definition cost (l : list (Z * nat)) : Z :=
  sum_counts ((λ wd, wd.1 * Z.of_nat wd.2) <$> l).

(** The table seen as such a list, along the entries of the histogram:
    [weighted_length] is its cost. *)
Definition profile `{Countable K} (hist : gmap K Z) (encoding : gmap K (list bool))
    : list (Z * nat) :=
  (λ kc, (kc.2, length (default [] (encoding !! kc.1)))) <$> map_to_list hist.

(** The depths of the leaves of the full binary trees, in any order. *)
Inductive tree_depths : list nat → Prop :=
  | depths_leaf : tree_depths [0%nat]
  | depths_node l r :
      tree_depths l → tree_depths r → tree_depths ((S <$> l) ++ (S <$> r))
  | depths_perm l l' : l ≡ₚ l' → tree_depths l → tree_depths l'.

(** The merge loop on the counts alone: two least weights are replaced by
    their sum, which is added to the cost, until one weight is left. *)
Inductive huffman_cost : list Z → Z → Prop :=
  | huffman_one w : huffman_cost [w] 0
  | huffman_merge ws a b rest c :
      ws ≡ₚ a :: b :: rest →
      (∀ x, x ∈ b :: rest → a ≤ x) →
      (∀ x, x ∈ rest → b ≤ x) →
      huffman_cost ((a + b) :: rest) c →
      huffman_cost ws (c + a + b).

(** The leaves of a tree as (count, depth) pairs, in the order of the walk,
    for a root at depth [depth]. *)
Fixpoint leaf_depths {Value} (node : tree Value) (depth : nat) : list (Z * nat) :=
  match node with
  | mk_tree e l r =>
      match l with Some l' => leaf_depths l' (S depth) | None => [] end ++
      match r with Some r' => leaf_depths r' (S depth) | None => [] end ++
      (if decide (id e = 0%nat) then [(count e, depth)] else [])
  end.

(** Two codewords of which none is a prefix of the other, and a list of
    codewords that are so two by two. *)
Definition incomparable (c1 c2 : list bool) : Prop :=
  ¬ c1 `prefix_of` c2 ∧ ¬ c2 `prefix_of` c1.

Inductive prefix_code : list (list bool) → Prop :=
  | prefix_code_nil : prefix_code []
  | prefix_code_cons c cs :
      Forall (incomparable c) cs → prefix_code cs → prefix_code (c :: cs).

(** The weighted codewords that start with the bit [b], without that bit. *)
Fixpoint strip (b : bool) (l : list (Z * list bool)) : list (Z * list bool) :=
  match l with
  | [] => []
  | (w, []) :: l' => strip b l'
  | (w, b' :: c) :: l' => if decide (b' = b) then (w, c) :: strip b l' else strip b l'
  end.

(** The cost of a list of weighted codewords. *)
Definition code_cost (l : list (Z * list bool)) : Z :=
  sum_counts ((λ wc, wc.1 * Z.of_nat (length wc.2)) <$> l).

(** The cost of a tree, the sum of the counts of its leaves, and the cost
    of the trees that the entries of the queue stand for. *)
Definition tree_cost {Value} (t : tree Value) : Z := cost (leaf_depths t 0).

Definition tree_weight {Value} (t : tree Value) : Z :=
  sum_counts (leaf_entries t).*2.

Definition forest_cost {Value} (interiors : gmap nat (tree Value))
    (es : list (queue_entry Value)) : Z :=
  sum_counts ((λ e, tree_cost (subtree interiors e)) <$> es).

(** What the merge loop keeps of the cost: if merging the counts that are
    in the queue costs [c] more, then merging the counts of the histogram
    costs [c] and the cost of the trees built so far. *)
Definition cost_inv `{Countable Value} (histogram : gmap Value Z)
    (es : list (queue_entry Value)) (interiors : gmap nat (tree Value)) : Prop :=
  ∀ c, huffman_cost (count <$> es) c →
    huffman_cost (map_to_list histogram).*2 (c + forest_cost interiors es).

(** The table of [hist_abc], and a table of two bits per symbol for the same
    symbols. *)
Definition encoding_abc : gmap Z (list bool) :=
  list_to_map [(3, [false]); (1, [true; false]); (2, [true; true])].

Definition fixed_abc : gmap Z (list bool) :=
  list_to_map [(1, [false; false]); (2, [false; true]); (3, [true; false])].

Lemma take_min_None {E} (prio : E → Z) l : take_min prio l = None → l = [].
Proof.
  destruct l as [|x l]; [done|]. simpl.
  destruct (take_min prio l) as [[y r]|]; [|done]. by case_match.
Qed.

Lemma take_min_Some {E} (prio : E → Z) l e r :
  take_min prio l = Some (e, r) →
  l ≡ₚ e :: r ∧ ∀ x, x ∈ l → prio e ≤ prio x.
Proof.
  revert e r. induction l as [|x l IH]; intros e r; [done|]. simpl.
  destruct (take_min prio l) as [[y r']|] eqn:Hl.
  - destruct (IH _ _ eq_refl) as [Hp Hmin].
    destruct (Z.ltb_spec (prio y) (prio x)); intros [= <- <-].
    + split; [by rewrite Hp, Permutation_swap|].
      intros z [->|Hz]%elem_of_cons; [lia|by apply Hmin].
    + split; [done|].
      intros z [->|Hz]%elem_of_cons; [lia|]. specialize (Hmin _ Hz). lia.
  - intros [= <- <-]. apply take_min_None in Hl as ->.
    split; [done|]. intros z ->%list_elem_of_singleton. lia.
Qed.

#[export, refine] Instance list_pq {E} (prio : E → Z) : PriorityQueue E prio := {|
  pq_car := list E;
  pq_empty := [];
  pq_emplace e q := q ++ [e];
  pq_top q := fst <$> take_min prio q;
  pq_pop q := from_option snd [] (take_min prio q);
  pq_size q := length q;
  pq_elems q := q;
|}.
Proof.
  - done.
  - intros e q. by rewrite Permutation_app_comm.
  - done.
  - intros q Hq. destruct (take_min prio q) eqn:Hm; [by eexists|].
    by apply take_min_None in Hm.
  - intros q e x Hq Hx. destruct (take_min prio q) as [[e' r]|] eqn:Hm; [|done].
    simplify_eq/=. by eapply take_min_Some.
  - intros q e Hq. destruct (take_min prio q) as [[e' r]|] eqn:Hm; [|done].
    simplify_eq/=. by eapply take_min_Some.
Defined.


(** ** Trees and walks *)

Section trees.
Context `{Countable Value}.
Implicit Types (t : tree Value) (path : list bool).

Lemma tree_rect' (P : tree Value → Prop) :
  (∀ e l r, from_option P True l → from_option P True r → P (mk_tree e l r)) →
  ∀ t, P t.
Proof.
  intros IH. fix REC 1. intros [e l r].
  apply IH; [destruct l|destruct r]; simpl; auto.
Qed.

Lemma walk_impl_codes t path encoding :
  walk_impl t path encoding = foldl assign encoding (codes t path).
Proof.
  revert path encoding. induction t as [e l r IHl IHr] using tree_rect'.
  intros path encoding. simpl. rewrite !foldl_app.
  destruct l as [l|], r as [r|]; simpl in *;
    rewrite ?IHl, ?IHr; by case_decide.
Qed.

Lemma foldl_assign_lookup (l : list (Value * list bool)) m k :
  NoDup l.*1 →
  foldl assign m l !! k = from_option Some (m !! k) (list_to_map (M:=gmap _ _) l !! k).
Proof.
  revert m. induction l as [|[v p] l IH]; intros m Hnd; simpl.
  { by rewrite lookup_empty. }
  apply NoDup_cons in Hnd as [Hv Hnd]. rewrite IH by done.
  unfold assign; simpl. destruct (decide (k = v)) as [->|Hne].
  - apply (not_elem_of_list_to_map_1 (M:=gmap Value)) in Hv. simpl in Hv.
    by rewrite Hv; simpl; rewrite !lookup_insert_eq.
  - by rewrite !lookup_insert_ne by done.
Qed.

Lemma walk_lookup t k c :
  NoDup (leaf_values t) →
  walk t !! k = Some c ↔ (k, c) ∈ codes t [].
Proof.
  intros Hnd. unfold walk. rewrite walk_impl_codes, foldl_assign_lookup by done.
  rewrite lookup_empty, elem_of_list_to_map by done.
  by destruct (list_to_map _ !! k).
Qed.

Lemma codes_fst t path : (codes t path).*1 = leaf_values t.
Proof.
  unfold leaf_values. generalize (@nil bool). revert path.
  induction t as [e l r IHl IHr] using tree_rect'. intros path path'. simpl.
  rewrite !fmap_app. f_equal; [|f_equal].
  - destruct l; simpl in *; [apply IHl|done].
  - destruct r; simpl in *; [apply IHr|done].
  - by case_decide.
Qed.

Lemma codes_path t path vp : vp ∈ codes t path → path `prefix_of` vp.2.
Proof.
  revert path. induction t as [e l r IHl IHr] using tree_rect'.
  intros path. simpl. rewrite !elem_of_app. intros [Hl|[Hr|He]].
  - destruct l as [l|]; simpl in *; [|by apply elem_of_nil in Hl].
    apply IHl in Hl. etrans; [|done]. by apply prefix_app_r.
  - destruct r as [r|]; simpl in *; [|by apply elem_of_nil in Hr].
    apply IHr in Hr. etrans; [|done]. by apply prefix_app_r.
  - case_decide; [|by apply elem_of_nil in He].
    apply list_elem_of_singleton in He as ->. simpl. reflexivity.
Qed.

Lemma siblings_incomparable path (p q : list bool) :
  path ++ [false] `prefix_of` p → path ++ [true] `prefix_of` q →
  ¬ p `prefix_of` q ∧ ¬ q `prefix_of` p.
Proof.
  intros [p' ->] [q' ->]. rewrite <-!(assoc_L (++)). simpl.
  split; intros Hpre%prefix_app_inv; by apply prefix_cons_inv_1 in Hpre.
Qed.

Lemma codes_incomparable t path x y :
  full_binary t → x ∈ codes t path → y ∈ codes t path → x.1 ≠ y.1 →
  ¬ x.2 `prefix_of` y.2.
Proof.
  intros Hfull. revert path. induction Hfull as [v c|e l r He _ IHl _ IHr].
  - intros path. simpl. intros ->%list_elem_of_singleton ->%list_elem_of_singleton.
    done.
  - intros path. simpl. rewrite decide_False, app_nil_r by done.
    rewrite !elem_of_app. intros [Hx|Hx] [Hy|Hy] Hne.
    + by eapply IHl.
    + apply codes_path in Hx, Hy.
      by destruct (siblings_incomparable path x.2 y.2).
    + apply codes_path in Hx, Hy.
      by destruct (siblings_incomparable path y.2 x.2).
    + by eapply IHr.
Qed.

Lemma walk_prefix_free t :
  full_binary t → NoDup (leaf_values t) → prefix_free (walk t).
Proof.
  intros Hfull Hnd k1 k2 c1 c2 H1%walk_lookup H2%walk_lookup Hne; [|done..].
  by apply (codes_incomparable t [] (k1, c1) (k2, c2)).
Qed.

Lemma walk_dom t :
  NoDup (leaf_values t) → dom (walk t) = list_to_set (leaf_values t).
Proof.
  intros Hnd. apply set_eq. intros k.
  rewrite elem_of_dom, elem_of_list_to_set. unfold is_Some.
  setoid_rewrite walk_lookup; [|done]. unfold leaf_values.
  rewrite list_elem_of_fmap. split.
  - intros [c Hc]. by exists (k, c).
  - intros [[k' c] [-> Hc]]. by exists c.
Qed.

Lemma full_binary_leaf_count t :
  full_binary t → leaf_count t = length (leaf_values t).
Proof.
  intros Hfull. unfold leaf_values. generalize (@nil bool).
  induction Hfull as [v c|e l r He _ IHl _ IHr]; intros path; simpl; [done|].
  rewrite decide_False, app_nil_r, fmap_app, length_app by done.
  by rewrite <-IHl, <-IHr.
Qed.

Lemma full_binary_counts t :
  full_binary t → leaf_count t = S (interior_count t).
Proof.
  induction 1 as [v c|e l r He _ IHl _ IHr]; simpl; [done|]. lia.
Qed.

End trees.

(** ** The merge loop *)

Lemma bind_ext_in {A B} (f g : A → list B) (l : list A) :
  (∀ x, x ∈ l → f x = g x) → l ≫= f = l ≫= g.
Proof.
  induction l as [|x l IH]; intros Hfg; csimpl; [done|].
  rewrite Hfg by left. rewrite IH; [done|]. intros y Hy. apply Hfg. by right.
Qed.

Lemma sum_list_with_ext_in {A} (f g : A → nat) (l : list A) :
  (∀ x, x ∈ l → f x = g x) → sum_list_with f l = sum_list_with g l.
Proof.
  induction l as [|x l IH]; intros Hfg; csimpl; [done|].
  rewrite Hfg by left. rewrite IH; [done|]. intros y Hy. apply Hfg. by right.
Qed.

Section merge_loop.
Context `{Countable Value, HuffmanValue Value}.
Context `{PQ : !PriorityQueue (queue_entry Value) count}.
Implicit Types (e : queue_entry Value) (es : list (queue_entry Value)).
Implicit Types (I : gmap nat (tree Value)) (st : build_state).

Lemma insert_or_retrieve_child_eq I e :
  insert_or_retrieve_child I e =
    (subtree I e, match I !! id e with Some _ => delete (id e) I | None => I end).
Proof.
  unfold subtree, insert_or_retrieve_child. by destruct (I !! id e).
Qed.

Lemma subtree_ext I I' e : I' !! id e = I !! id e → subtree I' e = subtree I e.
Proof.
  unfold subtree, insert_or_retrieve_child. intros ->. by destruct (I !! id e).
Qed.

Lemma subtree_leaf I e :
  I !! id e = None → subtree I e = mk_tree (mk_entry 0 (value e) (count e)) None None.
Proof. unfold subtree, insert_or_retrieve_child. by intros ->. Qed.

Lemma forest_inv_perm keys es es' I m :
  es ≡ₚ es' → forest_inv keys es I m → forest_inv keys es' I m.
Proof.
  intros Hp [Hids Hnd Hz Hpos Hfull Hleaves Hint Hmax Hne Hlast].
  split; try done.
  - by rewrite <-Hp.
  - by rewrite <-Hp.
  - by rewrite <-Hp.
  - by rewrite <-Hp.
  - by rewrite <-Hp.
  - by rewrite <-Hp.
  - intros ->. by apply Permutation_nil_r in Hp.
  - destruct Hlast as [?|(e & He & ?)]; [by left|right].
    exists e. by rewrite <-Hp.
Qed.

(** The queue seeded from the histogram. *)
Lemma seed_queue_elems (histogram : gmap Value Z) :
  pq_elems (seed_queue histogram) ≡ₚ
    (λ vc, mk_entry 0 vc.1 vc.2) <$> map_to_list histogram.
Proof.
  unfold seed_queue, map_in_order.
  rewrite <-(merge_sort_Permutation (λ a b, value_le a.1 b.1) (map_to_list histogram)) at 2.
  generalize (merge_sort (λ a b : Value * Z, value_le a.1 b.1) (map_to_list histogram)).
  intros l. rewrite <-(app_nil_l (_ <$> l)), <-(pq_elems_empty (PriorityQueue:=PQ)).
  generalize (pq_empty (PriorityQueue:=PQ)). induction l as [|vc l IH]; intros q; simpl.
  - by rewrite app_nil_r.
  - rewrite IH, pq_elems_emplace. by rewrite <-Permutation_middle.
Qed.

Lemma forest_inv_init (histogram : gmap Value Z) :
  (2 ≤ size histogram)%nat →
  forest_inv (map_to_list histogram).*1 (pq_elems (seed_queue histogram)) ∅ 1.
Proof.
  intros Hsize. eapply forest_inv_perm; [symmetry; apply seed_queue_elems|].
  assert (length (map_to_list histogram) = size histogram) as Hlen
    by apply length_map_to_list.
  revert Hlen. generalize (map_to_list histogram). intros l Hl.
  split.
  - apply Forall_fmap, Forall_true. simpl. lia.
  - rewrite <-list_fmap_compose. simpl. clear Hl Hsize.
    induction l as [|x l IH]; simpl; [constructor|].
    rewrite filter_cons_False by (simpl; lia). apply IH.
  - done.
  - done.
  - apply Forall_fmap, Forall_true. intros vc. simpl.
    rewrite subtree_leaf by done. constructor.
  - clear Hl Hsize. induction l as [|x l IH]; csimpl; [done|].
    rewrite subtree_leaf by done. csimpl. by rewrite IH.
  - rewrite !length_fmap. clear Hl Hsize. induction l as [|x l IH]; csimpl; [done|].
    rewrite subtree_leaf by done. csimpl. lia.
  - rewrite !length_fmap. lia.
  - destruct l; [simpl in *; lia|done].
  - by left.
Qed.

Lemma nodup_nonzero_cons (k : nat) (ks : list nat) :
  NoDup (filter (λ k, k ≠ 0%nat) (k :: ks)) →
  NoDup (filter (λ k, k ≠ 0%nat) ks) ∧ (k ≠ 0%nat → k ∉ ks).
Proof.
  destruct (decide (k = 0%nat)) as [->|Hk].
  - by rewrite filter_cons_False by (intros ?; done).
  - rewrite filter_cons_True by done. intros [Hin Hnd]%NoDup_cons.
    split; [done|]. intros _ Hks. apply Hin. by apply list_elem_of_filter.
Qed.

(** The map [interiors] after one iteration, at an id other than the new
    one. *)
Lemma interiors_after_step I (m : nat) e1 e2 (ph new_node : tree Value) k :
  let I1 := <[m := ph]> I in
  let I2 := (insert_or_retrieve_child I1 e1).2 in
  let I3 := (insert_or_retrieve_child I2 e2).2 in
  k ≠ m →
  (k = id e1 ∨ k = id e2 → I !! k = None) →
  (<[m := new_node]> I3) !! k = I !! k.
Proof.
  intros I1 I2 I3 Hkm Hk. rewrite lookup_insert_ne by done.
  assert (I1 !! k = I !! k) as H1 by (unfold I1; by rewrite lookup_insert_ne).
  assert (I2 !! k = I !! k) as H2.
  { unfold I2. rewrite insert_or_retrieve_child_eq. simpl.
    destruct (I1 !! id e1); [|done].
    destruct (decide (k = id e1)) as [->|?].
    - rewrite lookup_delete_eq. symmetry. auto.
    - by rewrite lookup_delete_ne. }
  unfold I3. rewrite insert_or_retrieve_child_eq. simpl.
  destruct (I2 !! id e2); [|done].
  destruct (decide (k = id e2)) as [->|?].
  - rewrite lookup_delete_eq. symmetry. auto.
  - by rewrite lookup_delete_ne.
Qed.

Lemma merge_step_inv keys st :
  forest_inv keys (pq_elems (Q st)) (interiors st) (max_id st) →
  (2 ≤ pq_size (Q st))%nat →
  ∃ st', merge_step st = Ok st' ∧
    forest_inv keys (pq_elems (Q st')) (interiors st') (max_id st') ∧
    S (pq_size (Q st')) = pq_size (Q st).
Proof.
  destruct st as [q I m]; simpl. intros Hinv Hsz.
  rewrite pq_size_elems in Hsz.
  destruct (pq_top_is_Some q) as [e1 He1].
  { intros Heq. rewrite Heq in Hsz. simpl in Hsz. lia. }
  pose proof (pq_top_pop _ _ He1) as Hp1.
  destruct (pq_top_is_Some (pq_pop q)) as [e2 He2].
  { intros Heq. rewrite Hp1, Heq in Hsz. simpl in Hsz. lia. }
  pose proof (pq_top_pop _ _ He2) as Hp2.
  set (es2 := pq_elems (pq_pop (pq_pop q))) in *.
  assert (pq_elems q ≡ₚ e1 :: e2 :: es2) as Hp by (by rewrite Hp1, Hp2).
  apply (forest_inv_perm _ _ _ _ _ Hp) in Hinv.
  destruct Hinv as [Hids Hnd Hz Hpos Hfull Hleaves Hint Hmax _ _].
  apply Forall_cons in Hids as [Hid1 Hids]. apply Forall_cons in Hids as [Hid2 Hids].
  apply Forall_cons in Hfull as [Hf1 Hfull]. apply Forall_cons in Hfull as [Hf2 Hfull].
  csimpl in Hnd. apply nodup_nonzero_cons in Hnd as [Hnd Hd1].
  apply nodup_nonzero_cons in Hnd as [Hnd Hd2].
  unfold merge_step. simpl. rewrite He1. simpl.
  set (ph := mk_tree (mk_entry m value_zero 0) None None).
  set (I1 := <[m := ph]> I).
  rewrite (surjective_pairing (insert_or_retrieve_child I1 e1)).
  rewrite He2. simpl.
  set (I2 := (insert_or_retrieve_child I1 e1).2).
  rewrite (surjective_pairing (insert_or_retrieve_child I2 e2)).
  set (I3 := (insert_or_retrieve_child I2 e2).2).
  fold (subtree I1 e1). fold (subtree I2 e2).
  assert (subtree I1 e1 = subtree I e1) as ->.
  { apply subtree_ext. unfold I1. rewrite lookup_insert_ne; [done|lia]. }
  assert (subtree I2 e2 = subtree I e2) as ->.
  { apply subtree_ext. unfold I2. rewrite insert_or_retrieve_child_eq. simpl.
    assert (I1 !! id e2 = I !! id e2) as H1
      by (unfold I1; rewrite lookup_insert_ne; [done|lia]).
    destruct (I1 !! id e1) as [t1|] eqn:Ht1; [|done].
    rewrite lookup_delete_ne; [done|]. intros Heq.
    unfold I1 in Ht1. rewrite lookup_insert_ne in Ht1 by lia.
    apply Hd1; [|rewrite Heq; left]. intros Hzero. by rewrite Hzero, Hz in Ht1. }
  set (new_entry := mk_entry m value_zero _).
  set (new_node := mk_tree new_entry _ _).
  eexists. split; [done|]. simpl. split.
  2:{ rewrite !pq_size_elems, pq_elems_emplace, Hp. done. }
  eapply forest_inv_perm; [symmetry; apply pq_elems_emplace|]. fold es2.
  assert (∀ e, e ∈ es2 → (<[m := new_node]> I3) !! id e = I !! id e) as Hkeep.
  { intros e He. apply interiors_after_step.
    - rewrite Forall_forall in Hids. specialize (Hids _ He). simpl in Hids. lia.
    - intros Hk. destruct (I !! id e) as [t|] eqn:Ht; [|done]. exfalso.
      assert (id e ≠ 0%nat) as Hne by (intros Hzero; by rewrite Hzero, Hz in Ht).
      destruct Hk as [Hk|Hk].
      + apply Hd1; [congruence|]. rewrite <-Hk. right. by apply list_elem_of_fmap_2.
      + apply Hd2; [congruence|]. rewrite <-Hk. by apply list_elem_of_fmap_2. }
  assert (subtree (<[m := new_node]> I3) new_entry = new_node) as Hnew.
  { unfold subtree, insert_or_retrieve_child. simpl. by rewrite lookup_insert_eq. }
  split.
  - constructor; [simpl; lia|]. eapply Forall_impl; [exact Hids|]. simpl. lia.
  - csimpl. rewrite filter_cons_True by (simpl; lia). apply NoDup_cons. split; [|done].
    rewrite list_elem_of_filter, list_elem_of_fmap. intros [_ (e & Heq & He)].
    rewrite Forall_forall in Hids. specialize (Hids _ He). simpl in Hids. lia.
  - etrans; [apply interiors_after_step; [lia|done]|done].
  - lia.
  - constructor.
    + rewrite Hnew. constructor; [simpl; lia|done..].
    + apply Forall_forall. intros e He. rewrite (subtree_ext I) by auto.
      rewrite Forall_forall in Hfull. auto.
  - rewrite <-Hleaves. csimpl. rewrite Hnew.
    assert (leaf_values new_node = leaf_values (subtree I e1) ++ leaf_values (subtree I e2)) as ->.
    { unfold leaf_values at 1. simpl. rewrite decide_False by (simpl; lia).
      rewrite app_nil_r, fmap_app. by rewrite !codes_fst. }
    rewrite <-(assoc_L (++)). do 2 f_equiv.
    rewrite (bind_ext_in _ (λ e, leaf_values (subtree I e))); [done|].
    intros e He. by rewrite (subtree_ext I) by auto.
  - rewrite <-Hint. csimpl. rewrite Hnew.
    rewrite (sum_list_with_ext_in _ (λ e, interior_count (subtree I e)) es2).
    + simpl. lia.
    + intros e He. by rewrite (subtree_ext I) by auto.
  - simpl in *. lia.
  - done.
  - right. exists new_entry. split; [left|]. simpl. split; [lia|].
    by rewrite lookup_insert_eq.
Qed.

Lemma merge_loop_inv keys fuel st :
  forest_inv keys (pq_elems (Q st)) (interiors st) (max_id st) →
  (pq_size (Q st) ≤ S fuel)%nat →
  ∃ st', merge_loop fuel st = Ok st' ∧
    loop_runs (pq_size (Q st) - 1) st st' ∧
    forest_inv keys (pq_elems (Q st')) (interiors st') (max_id st') ∧
    pq_size (Q st') = 1%nat.
Proof.
  assert (∀ st, forest_inv keys (pq_elems (Q st)) (interiors st) (max_id st) →
            ¬ (2 ≤ pq_size (Q st))%nat → pq_size (Q st) = 1%nat) as Hone.
  { intros st' Hinv Hlt. pose proof (inv_nonempty _ _ _ _ Hinv) as Hne.
    rewrite pq_size_elems in *. destruct (pq_elems (Q st')); [done|simpl in *; lia]. }
  revert st. induction fuel as [|fuel IH]; intros st Hinv Hsz; simpl.
  - rewrite decide_False by lia. exists st.
    rewrite (Hone st) by (done || lia). split_and!; [done| |done..].
    apply loop_runs_exit. lia.
  - case_decide as Hge.
    + destruct (merge_step_inv keys st Hinv Hge) as (st' & Hstep & Hinv' & Hsz').
      rewrite Hstep. simpl.
      destruct (IH st' Hinv') as (st'' & -> & Hruns & Hinv'' & Hone''); [lia|].
      exists st''. split_and!; [done| |done..].
      replace (pq_size (Q st) - 1)%nat with (S (pq_size (Q st') - 1)) by lia.
      by eapply loop_runs_body.
    + exists st. rewrite (Hone st) by done. split_and!; [done| |done..].
      by apply loop_runs_exit.
Qed.

Lemma seed_queue_size (histogram : gmap Value Z) :
  pq_size (seed_queue histogram) = size histogram.
Proof.
  by rewrite pq_size_elems, seed_queue_elems, length_fmap, length_map_to_list.
Qed.

(** The merge loop never runs out of fuel and the root is found: for a
    histogram of at least two entries the body of the loop runs once less
    than there are entries, and [build_tree] returns a full binary tree
    whose leaves are the symbols of the histogram. *)
Lemma build_tree_Ok (histogram : gmap Value Z) :
  (2 ≤ size histogram)%nat →
  ∃ st root,
    build_tree histogram = Ok (st, root) ∧
    loop_runs (size histogram - 1) (mk_state (seed_queue histogram) ∅ 1) st ∧
    max_id st = size histogram ∧
    full_binary root ∧
    leaf_values root ≡ₚ (map_to_list histogram).*1 ∧
    S (interior_count root) = size histogram.
Proof.
  intros Hsize. unfold build_tree. rewrite decide_False by lia.
  destruct (merge_loop_inv _ (pq_size (seed_queue histogram))
              (mk_state (seed_queue histogram) ∅ 1) (forest_inv_init _ Hsize))
    as (st & -> & Hruns & Hinv & Hone); [simpl; lia|].
  simpl in *. rewrite seed_queue_size in Hruns.
  destruct Hinv as [Hids Hnd Hz Hpos Hfull Hleaves Hint Hmax Hne Hlast].
  rewrite pq_size_elems in Hone.
  destruct (pq_elems (Q st)) as [|e [|??]] eqn:Hes; simplify_eq/=.
  rewrite length_fmap, length_map_to_list in Hmax, Hint.
  destruct Hlast as [?|(e' & ->%list_elem_of_singleton & Hid & [root Hroot])]; [lia|].
  rewrite <-Hid, Hroot. simpl. exists st, root.
  assert (subtree (interiors st) e = root) as Hsub.
  { unfold subtree, insert_or_retrieve_child. by rewrite Hroot. }
  rewrite Forall_singleton in Hfull. rewrite Hsub in *.
  rewrite app_nil_r in Hleaves. split_and!; [done|done|lia|done|done|lia].
Qed.

Lemma build_tree_Err (histogram : gmap Value Z) :
  (size histogram ≤ 1)%nat → build_tree histogram = Err invalid_argument.
Proof. intros Hsize. unfold build_tree. by rewrite decide_True. Qed.
End merge_loop.

(** ** [build_encoding] *)

Section build_encoding_correct.
Context `{Countable Value, HuffmanValue Value}.
Context `{PQ : !PriorityQueue (queue_entry Value) count}.
Implicit Types (histogram : gmap Value Z).

Lemma leaf_values_histogram histogram (root : tree Value) :
  leaf_values root ≡ₚ (map_to_list histogram).*1 →
  NoDup (leaf_values root) ∧ list_to_set (leaf_values root) = dom histogram.
Proof.
  intros Hp. split.
  - rewrite Hp. apply NoDup_fst_map_to_list.
  - apply set_eq. intros k. rewrite elem_of_list_to_set, Hp, elem_of_dom.
    rewrite list_elem_of_fmap. split.
    + intros [[k' c] [-> Hc%elem_of_map_to_list]]. by exists c.
    + intros [c Hc]. exists (k, c). by rewrite elem_of_map_to_list.
Qed.

Lemma build_encoding_Ok histogram :
  (2 ≤ size histogram)%nat →
  ∃ encoding,
    build_encoding histogram = Ok encoding ∧
    dom encoding = dom histogram ∧
    prefix_free encoding.
Proof.
  intros Hsize.
  destruct (build_tree_Ok histogram Hsize)
    as (st & root & Hb & _ & _ & Hfull & Hl & _).
  destruct (leaf_values_histogram _ _ Hl) as [Hnd Hdom].
  exists (walk root). unfold build_encoding. rewrite Hb. simpl. split_and!.
  - done.
  - by rewrite walk_dom.
  - by apply walk_prefix_free.
Qed.

Lemma build_encoding_inv histogram encoding :
  build_encoding histogram = Ok encoding →
  (2 ≤ size histogram)%nat ∧ dom encoding = dom histogram ∧ prefix_free encoding.
Proof.
  intros Hb. destruct (decide (size histogram ≤ 1)%nat) as [Hle|Hgt].
  - unfold build_encoding in Hb. by rewrite build_tree_Err in Hb.
  - destruct (build_encoding_Ok histogram) as (enc & Henc & ? & ?); [lia|].
    rewrite Hb in Henc. simplify_eq. split; [lia|done].
Qed.

Lemma build_encoding_Err histogram e :
  build_encoding histogram = Err e →
  (size histogram ≤ 1)%nat ∧ e = invalid_argument.
Proof.
  intros Hb. destruct (decide (size histogram ≤ 1)%nat) as [Hle|Hgt].
  - unfold build_encoding in Hb. rewrite build_tree_Err in Hb by done.
    by simplify_eq/=.
  - destruct (build_encoding_Ok histogram) as (enc & Henc & _); [lia|].
    by rewrite Hb in Henc.
Qed.

(** C3. For every histogram with n >= 2 entries, [build_encoding] makes a
    tree with exactly n - 1 interior nodes and n leaves: the body of the
    merge loop runs n - 1 times ([max_id], which starts at 1 and is
    incremented once in every iteration, ends at n), each time making one
    interior node; every node has two children or none; and in the code
    table read off that tree no codeword is a prefix of the codeword of
    another symbol. *)
Theorem build_encoding_tree_and_prefix_free histogram :
  (2 ≤ size histogram)%nat →
  ∃ st root,
    build_tree histogram = Ok (st, root) ∧
    build_encoding histogram = Ok (walk root) ∧
    loop_runs (size histogram - 1) (mk_state (seed_queue histogram) ∅ 1) st ∧
    max_id st = S (size histogram - 1) ∧
    interior_count root = (size histogram - 1)%nat ∧
    leaf_count root = size histogram ∧
    full_binary root ∧
    prefix_free (walk root).
Proof.
  intros Hsize.
  destruct (build_tree_Ok histogram Hsize)
    as (st & root & Hb & Hruns & Hid & Hfull & Hl & Hint).
  destruct (leaf_values_histogram _ _ Hl) as [Hnd Hdom].
  exists st, root. split_and!; try done.
  - unfold build_encoding. by rewrite Hb.
  - lia.
  - lia.
  - rewrite full_binary_counts by done. lia.
  - by apply walk_prefix_free.
Qed.

(** C8. [build_encoding] throws [std::invalid_argument] (the
    InsufficientAlphabet failure) if and only if the histogram has fewer
    than two entries, and with at least two entries it fails in no way. *)
Theorem build_encoding_invalid_argument_iff histogram :
  (build_encoding histogram = Err invalid_argument ↔ (size histogram < 2)%nat) ∧
  ((2 ≤ size histogram)%nat → ∃ encoding, build_encoding histogram = Ok encoding).
Proof.
  split; [split|].
  - intros [Hle _]%build_encoding_Err. lia.
  - intros Hlt. unfold build_encoding. rewrite build_tree_Err; [done|lia].
  - intros Hsize. destruct (build_encoding_Ok histogram Hsize) as (enc & ? & _).
    by exists enc.
Qed.

(** C9. For every histogram with at least two entries the table returned by
    [build_encoding] has exactly the symbols of the histogram as its keys:
    the queue is seeded with one leaf entry for each entry of the histogram,
    and the walk makes one assignment for each symbol of the histogram. *)
Theorem build_encoding_keys histogram :
  (2 ≤ size histogram)%nat →
  ∃ st root,
    build_tree histogram = Ok (st, root) ∧
    build_encoding histogram = Ok (walk root) ∧
    dom (walk root) = dom histogram ∧
    pq_elems (seed_queue histogram) ≡ₚ
      (λ vc, mk_entry 0 vc.1 vc.2) <$> map_to_list histogram ∧
    (codes root []).*1 ≡ₚ (map_to_list histogram).*1.
Proof.
  intros Hsize.
  destruct (build_tree_Ok histogram Hsize) as (st & root & Hb & _ & _ & _ & Hl & _).
  destruct (leaf_values_histogram _ _ Hl) as [Hnd Hdom].
  exists st, root. split_and!; try done.
  - unfold build_encoding. by rewrite Hb.
  - by rewrite walk_dom.
  - apply seed_queue_elems.
Qed.
End build_encoding_correct.

(** ** The length limiting loop *)

Lemma map_fold_max_le `{Countable K} (encoding : gmap K (list bool)) (n : nat) :
  (map_fold (λ _ (c : list bool) (l : nat), l `max` length c) 0 encoding ≤ n)%nat ↔
  ∀ k c, encoding !! k = Some c → (length c ≤ n)%nat.
Proof.
  apply (map_fold_weak_ind (λ r m, (r ≤ n)%nat ↔ ∀ k c, m !! k = Some c → (length c ≤ n)%nat)).
  - split; [|lia]. intros _ k c. by rewrite lookup_empty.
  - intros k c m r Hk IH. split.
    + intros Hmax k' c'. destruct (decide (k' = k)) as [->|Hne].
      * rewrite lookup_insert_eq. intros [= <-]. lia.
      * rewrite lookup_insert_ne by done. apply IH. lia.
    + intros Hall. apply Nat.max_lub.
      * apply IH. intros k' c' Hk'. apply (Hall k').
        rewrite lookup_insert_ne; [done|]. intros ->. congruence.
      * apply (Hall k). by rewrite lookup_insert_eq.
Qed.

Lemma max_length_le (encoding : gmap (option Z) (list bool)) (n : nat) :
  (max_length encoding ≤ n)%nat ↔
  ∀ k c, encoding !! k = Some c → (length c ≤ n)%nat.
Proof. apply map_fold_max_le. Qed.

Section length_limit_correct.
Context `{PQ : !PriorityQueue (queue_entry (option Z)) count}.
Implicit Types (hist : gmap Z Z) (symbols : list Z).
Implicit Types (wh : gmap (option Z) Z) (enc : gmap (option Z) (list bool)).

Lemma limiter_loop_merged keys hist L symbols wh enc enc' wh' :
  dom wh ⊆ {[None]} ∪ keys →
  symbols ≠ [] ∨ merged keys enc wh →
  limiter_loop hist L symbols wh enc = Ok (enc', wh') →
  merged keys enc' wh'.
Proof.
  revert wh enc. induction symbols as [|s symbols IH]; intros wh enc Hdom Hm; simpl.
  { destruct Hm as [?|Hm]; [done|]. by intros [= <- <-]. }
  set (wh2 := delete (Some s) (<[None := _]> wh)).
  assert (is_Some (wh2 !! None)) as Hnone.
  { unfold wh2. rewrite lookup_delete_ne, lookup_insert_eq by done. by eexists. }
  assert (dom wh2 ⊆ {[None]} ∪ keys) as Hdom2.
  { unfold wh2. rewrite dom_delete_L, dom_insert_L. set_solver. }
  destruct (build_encoding wh2) as [enc2|e] eqn:Hb; [|by destruct e].
  case_decide.
  - by intros [= <- <-].
  - apply IH; [done|]. by right.
Qed.

Lemma limiter_loop_within hist L symbols wh enc :
  dom wh ⊆ {[None]} ∪ list_to_set (Some <$> symbols) →
  symbols ≠ [] →
  match limiter_loop hist L symbols wh enc with
  | Ok (enc', _) => (max_length enc' ≤ L)%nat
  | Err e => e = runtime_error
  end.
Proof.
  revert wh enc. induction symbols as [|s symbols IH]; intros wh enc Hdom Hne; [done|].
  simpl. set (wh2 := delete (Some s) (<[None := _]> wh)).
  assert (dom wh2 ⊆ {[None]} ∪ list_to_set (Some <$> symbols)) as Hdom2.
  { unfold wh2. rewrite dom_delete_L, dom_insert_L. set_solver. }
  destruct (build_encoding wh2) as [enc2|e] eqn:Hb.
  - case_decide; [done|]. destruct symbols as [|s' symbols].
    + apply build_encoding_inv in Hb as [Hsize _]. exfalso.
      assert (dom wh2 ⊆ {[None]}) as Hsub by set_solver.
      apply subseteq_size in Hsub. rewrite size_dom, size_singleton in Hsub. lia.
    + by apply IH.
  - by apply build_encoding_Err in Hb as [_ ->].
Qed.

Lemma dom_kmap_Some_symbols hist symbols :
  symbols ≡ₚ (map_to_list hist).*1 →
  dom (kmap (M2:=gmap (option Z)) Some hist) = list_to_set (Some <$> symbols).
Proof.
  intros Hp. apply set_eq. intros k.
  rewrite elem_of_dom, lookup_kmap_is_Some by apply _.
  rewrite elem_of_list_to_set, list_elem_of_fmap.
  setoid_rewrite Hp. setoid_rewrite list_elem_of_fmap. split.
  - intros (s & -> & [c Hc]). exists s. split; [done|]. exists (s, c).
    by rewrite elem_of_map_to_list.
  - intros (s & -> & [s' c] & -> & Hc%elem_of_map_to_list). exists s'.
    split; [done|]. by exists c.
Qed.

(** C7. For every histogram, every length budget L >= 1 and every order of
    the symbols that the sort may produce, the length limiting loop either
    ends with a table in which no codeword is longer than L, or fails with
    [std::runtime_error] (the Unsolvable failure). *)
Theorem build_length_limited_within_budget hist L symbols :
  least_to_most_probable hist symbols →
  (1 ≤ L)%nat →
  (∃ enc wh,
     build_length_limited hist L symbols = Ok (enc, wh) ∧
     (max_length enc ≤ L)%nat ∧
     ∀ k c, enc !! k = Some c → (length c ≤ L)%nat) ∨
  build_length_limited hist L symbols = Err runtime_error.
Proof.
  intros [Hp _] _. unfold build_length_limited.
  destruct (decide (symbols = [])) as [->|Hne].
  { left. eexists _, _. split; [done|]. split; [by apply max_length_le|done]. }
  pose proof (limiter_loop_within hist L symbols (kmap Some hist) ∅) as Hw.
  destruct (limiter_loop _ _ _ _ _) as [[enc wh]|e].
  - left. exists enc, wh. split; [done|].
    assert (max_length enc ≤ L)%nat as Hmax.
    { apply Hw; [|done]. rewrite (dom_kmap_Some_symbols _ symbols) by done. set_solver. }
    split; [done|]. by apply max_length_le.
  - right. f_equal. apply Hw; [|done].
    rewrite (dom_kmap_Some_symbols _ symbols) by done. set_solver.
Qed.

(** C6, as the program has it. Whenever the body of the loop has run (the
    merge is its first statement, so at least one merge was performed), the
    final table has a codeword for the escape symbol [std::nullopt]. The
    loop never builds a table from the unmerged histogram. *)
Theorem escape_present_after_merge hist L symbols enc wh :
  build_length_limited hist L symbols = Ok (enc, wh) →
  symbols ≠ [] →
  is_Some (enc !! None) ∧ is_Some (wh !! None).
Proof.
  intros Hl Hne.
  destruct (limiter_loop_merged (dom (kmap (M2:=gmap (option Z)) Some hist))
              hist L symbols (kmap Some hist) ∅ enc wh) as (Hb & Hnone & _);
    [set_solver|by left|done|].
  split; [|done]. apply build_encoding_inv in Hb as (_ & Hdom & _).
  by rewrite <-elem_of_dom, Hdom, elem_of_dom.
Qed.
End length_limit_correct.

(** ** Machine arithmetic *)

Lemma wrap32_unique (z r k : Z) : is_int32 r → z = r + k * 2 ^ 32 → wrap32 z = r.
Proof.
  unfold is_int32, wrap32. intros Hr ->.
  replace (r + k * 2 ^ 32 + 2 ^ 31) with (r + 2 ^ 31 + k * 2 ^ 32) by lia.
  rewrite Z_mod_plus_full. rewrite Z.mod_small by lia. lia.
Qed.

Lemma wrap32_id (z : Z) : is_int32 z → wrap32 z = z.
Proof. intros Hz. apply (wrap32_unique z z 0); [done|lia]. Qed.

Lemma wrap32_spec (z : Z) : is_int32 (wrap32 z) ∧ ∃ k, z = wrap32 z + k * 2 ^ 32.
Proof.
  unfold is_int32, wrap32.
  pose proof (Z.mod_pos_bound (z + 2 ^ 31) (2 ^ 32)) as Hb.
  pose proof (Z.div_mod (z + 2 ^ 31) (2 ^ 32)) as Hd.
  split; [lia|]. exists ((z + 2 ^ 31) `div` 2 ^ 32). lia.
Qed.

Lemma wrap32_sub_add (s l : Z) : is_int32 s → wrap32 (wrap32 (s - l) + l) = s.
Proof.
  intros Hs. destruct (wrap32_spec (s - l)) as [_ [k Hk]].
  apply (wrap32_unique _ s (- k)); [done|lia].
Qed.

(** The index test of the encode loop, in integers: with the table ending
    at an [int32_t], the wrapped index is inside the table exactly when the
    integer index is. *)
Lemma wrap32_index (s l len : Z) :
  is_int32 s → is_int32 l → 0 ≤ len < 2 ^ 31 → is_int32 (l + len) →
  (0 ≤ wrap32 (s - l) < len ↔ 0 ≤ s - l < len) ∧
  (0 ≤ s - l < len → wrap32 (s - l) = s - l).
Proof.
  unfold is_int32. intros Hs Hl Hlen Hg.
  destruct (wrap32_spec (s - l)) as [Hr [k Hk]]. unfold is_int32 in Hr.
  split; [split|].
  - intros Hw. assert (k = 0) as -> by lia. lia.
  - intros Hi. rewrite wrap32_id; [done|unfold is_int32; lia].
  - intros Hi. apply wrap32_id. unfold is_int32. lia.
Qed.

(** ** The dense table *)

Lemma max_element_spec {A} (comp : A → A → bool) (l : list A) (r : A) :
  (∀ a, comp a a = false) →
  (∀ a b c, comp a b = true → comp b c = true → comp a c = true) →
  (∀ a b c, comp a c = true → comp a b = true ∨ comp b c = true) →
  max_element comp l = Some r →
  r ∈ l ∧ ∀ y, y ∈ l → comp r y = false.
Proof.
  intros Hirr Htrans Hneg. destruct l as [|x l]; [done|]. simpl. intros [= <-].
  revert x. induction l as [|y l IH]; intros x; simpl.
  { split; [left|]. by intros z ->%list_elem_of_singleton. }
  destruct (IH (if comp x y then y else x)) as [Hin Hmax].
  set (r := foldl _ _ l) in *. split.
  - apply elem_of_cons in Hin as [Hin|Hin]; [|by do 2 right].
    rewrite Hin. destruct (comp x y); [right|]; left.
  - intros z Hz. destruct (comp x y) eqn:Hxy.
    + apply elem_of_cons in Hz as [->|Hz]; [|by apply Hmax].
      destruct (comp r x) eqn:Hrx; [|done].
      assert (comp r y = true) as Hry by eauto.
      rewrite Hmax in Hry; [done|left].
    + apply elem_of_cons in Hz as [->|Hz]; [by apply Hmax; left|].
      apply elem_of_cons in Hz as [->|Hz]; [|by apply Hmax; right].
      destruct (comp r y) eqn:Hry; [|done].
      destruct (Hneg _ x _ Hry) as [Hrx|?]; [|congruence].
      rewrite Hmax in Hrx; [done|left].
Qed.

Lemma non_null_value_spec
    (comp : option Z * list bool → option Z * list bool → bool)
    (encoding : gmap (option Z) (list bool)) (v : Z) :
  (∀ a, comp a a = false) →
  (∀ a b c, comp a b = true → comp b c = true → comp a c = true) →
  (∀ a b c, comp a c = true → comp a b = true ∨ comp b c = true) →
  non_null_value comp encoding = Ok v →
  ∃ c, encoding !! Some v = Some c ∧
    ∀ k c', encoding !! k = Some c' → comp (Some v, c) (k, c') = false.
Proof.
  intros Hirr Htrans Hneg. unfold non_null_value.
  destruct (max_element comp (map_to_list encoding)) as [[[v'|] c]|] eqn:Hmax; [|done..].
  intros [= ->].
  apply max_element_spec in Hmax as [Hin Hmax]; [|done..].
  exists c. split; [by apply elem_of_map_to_list in Hin|].
  intros k c' Hk. apply Hmax. by apply elem_of_map_to_list.
Qed.

Lemma least_non_null_value_spec (encoding : gmap (option Z) (list bool)) (l : Z) :
  least_non_null_value encoding = Ok l →
  is_Some (encoding !! Some l) ∧ ∀ k, is_Some (encoding !! Some k) → l ≤ k.
Proof.
  intros Hl. apply non_null_value_spec in Hl as (c & Hc & Hmax).
  - split; [by eexists|]. intros k [c' Hk]. specialize (Hmax _ _ Hk).
    unfold comp_least in Hmax. simpl in Hmax. apply bool_decide_eq_false in Hmax. lia.
  - intros [[a|] ?]; unfold comp_least; simpl; [|done].
    apply bool_decide_eq_false. lia.
  - intros [[a|] ?] [[b|] ?] [[c|] ?]; unfold comp_least; simpl; try done.
    rewrite !bool_decide_eq_true. lia.
  - intros [[a|] ?] [[b|] ?] [[c|] ?]; unfold comp_least; simpl; auto.
    rewrite !bool_decide_eq_true. lia.
Qed.

Lemma greatest_non_null_value_spec (encoding : gmap (option Z) (list bool)) (g : Z) :
  greatest_non_null_value encoding = Ok g →
  is_Some (encoding !! Some g) ∧ ∀ k, is_Some (encoding !! Some k) → k ≤ g.
Proof.
  intros Hg. apply non_null_value_spec in Hg as (c & Hc & Hmax).
  - split; [by eexists|]. intros k [c' Hk]. specialize (Hmax _ _ Hk).
    unfold comp_greatest in Hmax. simpl in Hmax. apply bool_decide_eq_false in Hmax. lia.
  - intros [[a|] ?]; unfold comp_greatest; simpl; [|done].
    apply bool_decide_eq_false. lia.
  - intros [[a|] ?] [[b|] ?] [[c|] ?]; unfold comp_greatest; simpl; try done.
    rewrite !bool_decide_eq_true. lia.
  - intros [[a|] ?] [[b|] ?] [[c|] ?]; unfold comp_greatest; simpl; auto.
    rewrite !bool_decide_eq_true. lia.
Qed.

Lemma fill_step_eq (encoding : gmap (option Z) (list bool)) (least : Z)
    (table : list (list bool)) (i : nat) :
  match encoding !! Some (wrap32 (Z.of_nat i + least)) with
  | Some c => <[i := c]> table
  | None => <[i := unpredictable_encoding encoding]> table
  end = <[i := entry_of encoding least i]> table.
Proof. unfold entry_of. by destruct (encoding !! _). Qed.

Lemma fill_indices_lookup (encoding : gmap (option Z) (list bool)) (least : Z)
    (indices : list nat) (table : list (list bool)) (i : nat) :
  length (fill_indices encoding least indices table) = length table ∧
  ((i < length table)%nat →
   fill_indices encoding least indices table !! i =
     if decide (i ∈ indices) then Some (entry_of encoding least i) else table !! i).
Proof.
  unfold fill_indices.
  revert table. induction indices as [|j indices IH]; intros table.
  { split; [done|]. intros _. rewrite decide_False; [done|]. apply not_elem_of_nil. }
  simpl. rewrite fill_step_eq. destruct (IH (<[j := entry_of encoding least j]> table)) as [Hlen Hlook].
  rewrite length_insert in Hlen, Hlook. split; [done|]. intros Hi.
  rewrite Hlook by done. destruct (decide (i ∈ indices)) as [Hin|Hnin].
  - rewrite decide_True; [done|by right].
  - destruct (decide (i = j)) as [->|Hne].
    + rewrite decide_True by left. by rewrite list_lookup_insert_eq.
    + rewrite decide_False by (by intros [?|?]%elem_of_cons).
      by rewrite list_lookup_insert_ne.
Qed.

Lemma fill_encoding_table_lookup (encoding : gmap (option Z) (list bool))
    (least : Z) (table : list (list bool)) :
  length (fill_encoding_table encoding least table) = length table ∧
  ∀ i, (i < length table)%nat →
    fill_encoding_table encoding least table !! i = Some (entry_of encoding least i).
Proof.
  unfold fill_encoding_table.
  split; [apply (fill_indices_lookup encoding least _ table 0)|].
  intros i Hi.
  destruct (fill_indices_lookup encoding least (seq 0 (length table)) table i)
    as [_ Hlook].
  rewrite Hlook by done. rewrite decide_True; [done|]. apply elem_of_seq. lia.
Qed.

Lemma materialize_inv (encoding : gmap (option Z) (list bool)) (d : dense_table) :
  materialize encoding = Ok d →
  least_non_null_value encoding = Ok (least d) ∧
  greatest_non_null_value encoding = Ok (greatest d) ∧
  escape d = unpredictable_encoding encoding ∧
  0 ≤ wrap32 (greatest d - least d) ∧
  length (encoding_table d) = Z.to_nat (wrap32 (greatest d - least d)) ∧
  ∀ i, (i < length (encoding_table d))%nat →
    encoding_table d !! i = Some (entry_of encoding (least d) i).
Proof.
  unfold materialize, new_encoding_table.
  destruct (least_non_null_value encoding) as [l|]; [simpl|done].
  destruct (greatest_non_null_value encoding) as [g|]; [simpl|done].
  case_decide as Hneg; [done|]. simpl. intros [= <-]. simpl.
  destruct (fill_encoding_table_lookup encoding l
              (replicate (Z.to_nat (wrap32 (g - l))) [])) as [Hlen Hlook].
  rewrite length_replicate in Hlen, Hlook.
  split_and!; try done; [lia|]. intros i Hi. apply Hlook. lia.
Qed.

(** Between the least and the greatest coded value the difference does not
    wrap, and the table has one entry for each value below the greatest. *)
Lemma materialize_range (encoding : gmap (option Z) (list bool)) (d : dense_table) :
  int32_keys encoding →
  materialize encoding = Ok d →
  dense_range d ∧
  is_Some (encoding !! Some (least d)) ∧ is_Some (encoding !! Some (greatest d)).
Proof.
  intros Hkeys (Hl & Hg & _ & Hpos & Hlen & _)%materialize_inv.
  apply least_non_null_value_spec in Hl as [Hl Hmin].
  apply greatest_non_null_value_spec in Hg as [Hg Hmax].
  pose proof (Hkeys _ Hl) as Hl32. pose proof (Hkeys _ Hg) as Hg32.
  specialize (Hmin _ Hg). unfold is_int32 in *.
  destruct (wrap32_spec (greatest d - least d)) as [Hw [k Hk]]. unfold is_int32 in Hw.
  assert (k = 0) as -> by lia. split_and!; try done. split; unfold is_int32; lia.
Qed.

Lemma materialize_entry (encoding : gmap (option Z) (list bool)) (d : dense_table) (s : Z) :
  int32_keys encoding →
  materialize encoding = Ok d →
  least d ≤ s < greatest d →
  encoding_table d !! Z.to_nat (s - least d) =
    Some (match encoding !! Some s with
          | Some c => c
          | None => unpredictable_encoding encoding
          end).
Proof.
  intros Hkeys Hm Hs.
  destruct (materialize_range _ _ Hkeys Hm) as ([Hl Hg Hlen Hd] & _ & _).
  apply materialize_inv in Hm as (_ & _ & _ & _ & _ & Hlook).
  rewrite Hlook by lia. unfold entry_of. rewrite Z2Nat.id by lia.
  rewrite wrap32_id; [|unfold is_int32 in *; lia].
  by replace (s - least d + least d) with s by lia.
Qed.

Lemma materialize_ok (encoding : gmap (option Z) (list bool)) (d : dense_table) :
  prefix_free encoding →
  is_Some (encoding !! None) →
  int32_keys encoding →
  materialize encoding = Ok d →
  dense_ok d.
Proof.
  intros Hpf [esc Hesc] Hkeys Hm.
  destruct (materialize_range _ _ Hkeys Hm) as (Hrange & [cl Hcl] & _).
  pose proof Hrange as [Hl Hg Hlen Hd].
  pose proof (materialize_inv _ _ Hm) as (_ & _ & Hescape & _ & _ & Hlook).
  assert (escape d = esc) as He by (by rewrite Hescape; unfold unpredictable_encoding; rewrite Hesc).
  assert (∀ i c, encoding_table d !! i = Some c →
            c = esc ∨ encoding !! Some (Z.of_nat i + least d) = Some c) as Hentry.
  { intros i c Hi. pose proof (lookup_lt_Some _ _ _ Hi) as Hlt.
    rewrite Hlook in Hi by done. injection Hi as <-. unfold entry_of.
    rewrite wrap32_id by (unfold is_int32 in *; lia).
    destruct (encoding !! Some (Z.of_nat i + least d)) as [c|] eqn:Hc; [by right|left].
    unfold unpredictable_encoding. by rewrite Hesc. }
  assert (∀ c, c ∈ escape d :: encoding_table d → ∃ k, encoding !! k = Some c) as Hval.
  { intros c [->|Hc]%elem_of_cons; [exists None; by rewrite He|].
    apply list_elem_of_lookup in Hc as [i Hi].
    destruct (Hentry _ _ Hi) as [->|?]; by eexists. }
  split; try done.
  - intros c (k & Hk)%Hval ->.
    destruct k as [k|].
    + apply (Hpf (Some k) None [] esc); [done..|]. apply prefix_nil.
    + apply (Hpf None (Some (least d)) [] cl); [done..|]. apply prefix_nil.
  - intros c c' (k & Hk)%Hval (k' & Hk')%Hval Hpre.
    destruct (decide (k = k')) as [->|Hne]; [congruence|].
    by destruct (Hpf k k' c c').
  - intros i j c Hi Hj Hc. rewrite He in Hc.
    destruct (Hentry _ _ Hi) as [?|Hki]; [done|].
    destruct (Hentry _ _ Hj) as [?|Hkj]; [done|].
    destruct (decide (i = j)) as [|Hne]; [done|].
    destruct (Hpf (Some (Z.of_nat i + least d)) (Some (Z.of_nat j + least d)) c c);
      [done|done|intros [=]; lia|done].
Qed.

(** ** The encode loop *)

Lemma encode_step_spec (d : dense_table) (st : list bool * list Z) (s : Z) :
  dense_range d → is_int32 s →
  encode_step d st s =
    Ok (st.1 ++ codeword d s, st.2 ++ if decide (escaped d s) then [s] else []).
Proof.
  intros [Hl Hg Hlen Hsize] Hs. unfold encode_step, codeword.
  set (len := Z.of_nat (length (encoding_table d))) in *.
  assert (0 ≤ len) as Hlen0 by lia.
  destruct (wrap32_index s (least d) len) as [Hiff Hidx]; try done.
  { by replace (least d + len) with (greatest d) by lia. }
  rewrite (wrap32_id len) by (unfold is_int32; lia).
  destruct (decide (escaped d s)) as [Hesc|Hesc]; unfold escaped in Hesc; fold len in Hesc.
  - case_decide as H1; [done|]. case_decide as H2; [done|].
    rewrite Hidx by lia.
    destruct Hesc as [?|[?|Hesc]]; [lia|lia|]. rewrite Hesc. simpl.
    by rewrite decide_True.
  - case_decide as H1; [lia|]. case_decide as H2; [lia|].
    rewrite Hidx by lia.
    destruct (lookup_lt_is_Some_2 (encoding_table d) (Z.to_nat (s - least d)))
      as [c Hc]; [lia|].
    rewrite Hc. simpl. rewrite decide_False; [by rewrite app_nil_r|].
    intros ->. apply Hesc. by do 2 right.
Qed.

Lemma encode_loop_spec (d : dense_table) (sequence : list Z) (st : list bool * list Z) :
  dense_range d → Forall is_int32 sequence →
  encode_loop d sequence st =
    Ok (st.1 ++ mjoin (codeword d <$> sequence), st.2 ++ filter (escaped d) sequence).
Proof.
  intros Hd Hseq. revert st.
  induction Hseq as [|s sequence Hs _ IH]; intros st; simpl.
  { rewrite !app_nil_r. by destruct st. }
  rewrite encode_step_spec by done. simpl. rewrite IH. simpl.
  rewrite <-!(assoc_L (++)). do 3 f_equal.
  rewrite filter_cons. by case_decide.
Qed.

(** C10. The encode loop fails on no symbol: for a table made by
    [materialize] and any sequence of [int32_t] symbols it ends with the
    concatenation, in sequence order, of one codeword for each symbol, and
    with the escaped symbols, in sequence order, in the side channel. A
    symbol is escaped, and its codeword is the escape codeword, when its
    index [s - least] is outside the table or the table holds the escape
    codeword at that index. *)
Theorem encode_never_fails (encoding : gmap (option Z) (list bool))
    (d : dense_table) (sequence : list Z) :
  int32_keys encoding →
  materialize encoding = Ok d →
  Forall is_int32 sequence →
  encode d sequence =
    Ok (mjoin (codeword d <$> sequence), filter (escaped d) sequence) ∧
  ∀ s, s ∈ sequence →
    (s - least d < 0 ∨ Z.of_nat (length (encoding_table d)) ≤ s - least d ∨
     encoding_table d !! Z.to_nat (s - least d) = Some (escape d)) →
    codeword d s = escape d ∧ s ∈ filter (escaped d) sequence.
Proof.
  intros Hkeys Hm Hseq. destruct (materialize_range _ _ Hkeys Hm) as [Hd _].
  split; [by apply (encode_loop_spec d sequence ([], []))|].
  intros s Hs Hesc. split.
  - unfold codeword. by rewrite decide_True.
  - by apply list_elem_of_filter.
Qed.

(** ** The decode loop *)

Lemma index_encodings_lookup_Some (table : list (list bool)) (indices : list nat)
    (m : gmap (list bool) Z) (c : list bool) (v : Z) :
  index_encodings table indices m !! c = Some v →
  m !! c = Some v ∨
  ∃ j, j ∈ indices ∧ default [] (table !! j) = c ∧ v = wrap32 (Z.of_nat j).
Proof.
  unfold index_encodings. revert m.
  induction indices as [|i indices IH]; intros m; simpl; [by left|].
  intros [Hm|(j & Hj & ? & ?)]%IH.
  - destruct (decide (default [] (table !! i) = c)) as [Heq|Hne].
    + rewrite Heq, lookup_insert_eq in Hm. injection Hm as <-.
      right. exists i. split; [left|done].
    + rewrite lookup_insert_ne in Hm by done. by left.
  - right. exists j. split; [by right|done].
Qed.

Lemma index_encodings_mono (table : list (list bool)) (indices : list nat)
    (m : gmap (list bool) Z) (c : list bool) :
  is_Some (m !! c) → is_Some (index_encodings table indices m !! c).
Proof.
  unfold index_encodings. revert m.
  induction indices as [|i indices IH]; intros m Hm; simpl; [done|].
  apply IH. rewrite lookup_insert. case_decide; [by eexists|done].
Qed.

Lemma index_encodings_is_Some (table : list (list bool)) (indices : list nat)
    (m : gmap (list bool) Z) (j : nat) :
  j ∈ indices →
  is_Some (index_encodings table indices m !! default [] (table !! j)).
Proof.
  revert m. induction indices as [|i indices IH]; intros m Hj.
  { by apply elem_of_nil in Hj. }
  apply elem_of_cons in Hj as [->|Hj].
  - apply (index_encodings_mono table indices). rewrite lookup_insert_eq. by eexists.
  - by apply IH.
Qed.

Section decode.
Context (d : dense_table) (Hd : dense_ok d).
Let e2i := make_encodings_to_indices d.

Lemma encodings_to_indices_escape : e2i !! escape d = Some 0.
Proof. unfold e2i, make_encodings_to_indices. by rewrite lookup_insert_eq. Qed.

Lemma encodings_to_indices_entry (i : nat) (c : list bool) :
  encoding_table d !! i = Some c → c ≠ escape d → e2i !! c = Some (Z.of_nat i).
Proof.
  intros Hi Hc. unfold e2i, make_encodings_to_indices.
  rewrite lookup_insert_ne by done.
  pose proof (lookup_lt_Some _ _ _ Hi) as Hlt.
  destruct (index_encodings_is_Some (encoding_table d)
              (seq 0 (length (encoding_table d))) ∅ i) as [v Hv].
  { apply elem_of_seq. lia. }
  rewrite Hi in Hv. simpl in Hv. rewrite Hv. f_equal.
  apply index_encodings_lookup_Some in Hv as [Hv|(j & Hj & Hjc & ->)].
  { by rewrite lookup_empty in Hv. }
  apply elem_of_seq in Hj.
  destruct (lookup_lt_is_Some_2 (encoding_table d) j) as [c' Hc']; [lia|].
  rewrite Hc' in Hjc. simpl in Hjc. subst c'.
  rewrite (ok_unique d Hd j i c) by done.
  apply wrap32_id. pose proof (range_size d (ok_range d Hd)). unfold is_int32. lia.
Qed.

Lemma encodings_to_indices_code (c : list bool) :
  is_Some (e2i !! c) → c ∈ escape d :: encoding_table d.
Proof.
  unfold e2i, make_encodings_to_indices. intros [v Hv].
  destruct (decide (escape d = c)) as [<-|Hne]; [left|].
  rewrite lookup_insert_ne in Hv by done.
  apply index_encodings_lookup_Some in Hv as [Hv|(j & Hj & Hjc & ->)].
  { by rewrite lookup_empty in Hv. }
  apply elem_of_seq in Hj.
  destruct (lookup_lt_is_Some_2 (encoding_table d) j) as [c' Hc']; [lia|].
  rewrite Hc' in Hjc. simpl in Hjc. subst c'. right.
  by eapply list_elem_of_lookup_2.
Qed.

(** The accumulator grows through a codeword without a match and matches at
    its last bit. *)
Lemma decode_loop_codeword (unpredictable : list Z) (c2 c1 rest : list bool)
    (st : decode_state) (idx : Z) :
  so_far st = c1 → c2 ≠ [] →
  c1 ++ c2 ∈ escape d :: encoding_table d →
  e2i !! (c1 ++ c2) = Some idx →
  decode_loop d e2i unpredictable (c2 ++ rest) st =
    (st' ←ᵣ on_match d unpredictable st (c1 ++ c2) idx;
     decode_loop d e2i unpredictable rest st').
Proof.
  revert c1 st. induction c2 as [|b c2 IH]; intros c1 st Hst Hne Hin Hidx; [done|].
  simpl. rewrite Hst. destruct c2 as [|b' c2].
  { by rewrite Hidx. }
  destruct (e2i !! (c1 ++ [b])) as [v|] eqn:Hv.
  { exfalso. assert (c1 ++ [b] ∈ escape d :: encoding_table d) as Hin'
      by (apply encodings_to_indices_code; by eexists).
    assert (c1 ++ [b] = c1 ++ b :: b' :: c2) as Heq.
    { apply (ok_prefix d Hd); [done..|]. exists (b' :: c2).
      by rewrite <-(assoc_L (++)). }
    apply app_inv_head in Heq. done. }
  rewrite (IH (c1 ++ [b])); try done.
  - by rewrite <-(assoc_L (++)).
  - by rewrite <-(assoc_L (++)).
  - by rewrite <-(assoc_L (++)).
Qed.
End decode.

Lemma codeword_spec (d : dense_table) (s : Z) :
  dense_ok d → is_int32 s →
  codeword d s ∈ escape d :: encoding_table d ∧
  codeword d s ≠ [] ∧
  ∃ idx, make_encodings_to_indices d !! codeword d s = Some idx ∧
    (escaped d s ↔ codeword d s = escape d) ∧
    (¬ escaped d s → wrap32 (idx + least d) = s).
Proof.
  intros Hd Hs. unfold codeword.
  destruct (decide (escaped d s)) as [Hesc|Hesc].
  - split; [left|]. split; [apply (ok_nonempty d Hd); left|].
    exists 0. by rewrite encodings_to_indices_escape.
  - pose proof Hesc as Hesc'. unfold escaped in Hesc.
    destruct (lookup_lt_is_Some_2 (encoding_table d) (Z.to_nat (s - least d)))
      as [c Hc]; [lia|].
    rewrite Hc. simpl.
    assert (c ≠ escape d) as Hne by (intros ->; apply Hesc; by do 2 right).
    assert (c ∈ escape d :: encoding_table d) as Hin
      by (right; by eapply list_elem_of_lookup_2).
    split; [done|]. split; [by apply (ok_nonempty d Hd)|].
    exists (Z.of_nat (Z.to_nat (s - least d))).
    split; [by apply encodings_to_indices_entry|]. split; [done|].
    intros _. rewrite Z2Nat.id by lia.
    replace (s - least d + least d) with s by lia. by apply wrap32_id.
Qed.

Lemma decode_loop_encoded (d : dense_table) (sequence : list Z)
    (side_pre side_post : list Z) (rest : list bool) (dec : list Z) :
  dense_ok d → Forall is_int32 sequence →
  let side := side_pre ++ filter (escaped d) sequence ++ side_post in
  decode_loop d (make_encodings_to_indices d) side
    (mjoin (codeword d <$> sequence) ++ rest) (mk_decode dec [] (length side_pre)) =
  decode_loop d (make_encodings_to_indices d) side rest
    (mk_decode (dec ++ sequence) []
       (length side_pre + length (filter (escaped d) sequence))).
Proof.
  intros Hd Hseq. revert side_pre dec.
  induction Hseq as [|s sequence Hs _ IH]; intros side_pre dec side.
  { simpl. by rewrite app_nil_r, Nat.add_0_r. }
  destruct (codeword_spec d s Hd Hs) as (Hin & Hne & idx & Hidx & Hesc & Hval).
  csimpl. rewrite <-(assoc_L (++)).
  rewrite (decode_loop_codeword d Hd side (codeword d s) [] _ _ idx); [|done..].
  simpl. unfold on_match. simpl. subst side. rewrite filter_cons.
  destruct (decide (escaped d s)) as [He|He].
  - rewrite decide_False by (intros Hc; by apply Hc, Hesc).
    rewrite lookup_app_r by done. rewrite Nat.sub_diag. simpl.
    specialize (IH (side_pre ++ [s]) (dec ++ [s])). simpl in IH.
    rewrite length_app in IH. simpl in IH.
    rewrite <-!(assoc_L (++)) in IH. simpl in IH.
    rewrite Nat.add_1_r in IH. rewrite IH. do 2 f_equal; lia.
  - rewrite decide_True by (intros Hc; by apply He, Hesc).
    rewrite Hval by done. simpl. specialize (IH side_pre (dec ++ [s])). simpl in IH.
    rewrite IH. by rewrite <-(assoc_L (++)).
Qed.

Lemma decode_loop_unmatched (d : dense_table) (e2i : gmap (list bool) Z)
    (side : list Z) (tail : list bool) (st : decode_state) :
  (∀ p, p ≠ [] → p `prefix_of` tail → e2i !! (so_far st ++ p) = None) →
  decode_loop d e2i side tail st =
    Ok (mk_decode (decoded_sequence st) (so_far st ++ tail) (unpred_idx st)).
Proof.
  revert st. induction tail as [|b tail IH]; intros st Hnone; simpl.
  { rewrite app_nil_r. by destruct st. }
  rewrite (Hnone [b]); [|done|by apply prefix_cons, prefix_nil].
  rewrite IH; simpl; [by rewrite <-(assoc_L (++))|].
  intros p Hp Hpre. rewrite <-(assoc_L (++)). apply Hnone; [done|].
  by apply prefix_cons.
Qed.

Lemma decode_loop_app (d : dense_table) (e2i : gmap (list bool) Z)
    (side : list Z) (bits tail : list bool) (st : decode_state) :
  decode_loop d e2i side (bits ++ tail) st =
    (st' ←ᵣ decode_loop d e2i side bits st; decode_loop d e2i side tail st').
Proof.
  revert st. induction bits as [|b bits IH]; intros st; simpl; [done|].
  destruct (e2i !! (so_far st ++ [b])); [|apply IH].
  destruct (on_match _ _ _ _ _); simpl; [apply IH|done].
Qed.

(** C5, as the program has it. The decode loop has no failure for a
    malformed bitstream: when the bitstream goes on, after a part that is
    decoded to [st], with bits that complete no table entry, the loop ends
    without a failure, with the symbols decoded from the first part; the
    bits left over stay in the accumulator and are dropped. *)
Theorem decode_drops_unmatched_tail (d : dense_table) (bits tail : list bool)
    (side : list Z) (st : decode_state) :
  decode d bits side = Ok st →
  (∀ p, p ≠ [] → p `prefix_of` tail →
     make_encodings_to_indices d !! (so_far st ++ p) = None) →
  decode d (bits ++ tail) side =
    Ok (mk_decode (decoded_sequence st) (so_far st ++ tail) (unpred_idx st)).
Proof.
  unfold decode. intros Hbits Hnone.
  rewrite decode_loop_app, Hbits. simpl. by apply decode_loop_unmatched.
Qed.

(** ** The pipeline of [main] *)

Lemma symbols_least_to_most_probable_spec (hist : gmap Z Z) :
  least_to_most_probable hist (symbols_least_to_most_probable hist).
Proof.
  unfold least_to_most_probable, symbols_least_to_most_probable. split.
  - rewrite merge_sort_Permutation. unfold map_in_order.
    by rewrite merge_sort_Permutation.
  - apply StronglySorted_merge_sort.
    + intros x y z. unfold not_after, sort_comp.
      rewrite !bool_decide_eq_false. lia.
    + intros x y. unfold not_after, sort_comp.
      rewrite !bool_decide_eq_false. lia.
Qed.

Section pipeline.
Context `{PQ : !PriorityQueue (queue_entry (option Z)) count}.

Lemma limited_table (hist : gmap Z Z) (L : nat) (symbols : list Z)
    (enc : gmap (option Z) (list bool)) (wh : gmap (option Z) Z) (d : dense_table) :
  map_Forall (λ k _, is_int32 k) hist →
  build_length_limited hist L symbols = Ok (enc, wh) →
  materialize enc = Ok d →
  prefix_free enc ∧ is_Some (enc !! None) ∧ int32_keys enc.
Proof.
  intros Hkeys Hl Hm. destruct (decide (symbols = [])) as [->|Hne].
  { unfold build_length_limited in Hl. simpl in Hl. by simplify_eq. }
  destruct (limiter_loop_merged (dom (kmap (M2:=gmap (option Z)) Some hist))
              hist L symbols (kmap Some hist) ∅ enc wh) as (Hb & Hnone & Hdom);
    [set_solver|by left|done|].
  apply build_encoding_inv in Hb as (_ & Hdomenc & Hpf).
  split; [done|]. split; [by rewrite <-elem_of_dom, Hdomenc, elem_of_dom|].
  intros k Hk. rewrite <-elem_of_dom, Hdomenc in Hk. apply Hdom in Hk.
  apply elem_of_union in Hk as [Hk|Hk]; [set_solver|].
  apply elem_of_dom in Hk. rewrite lookup_kmap_is_Some in Hk by apply _.
  destruct Hk as (k' & [= <-] & [c Hc]). by apply (Hkeys k c).
Qed.

(** C1. Decoding what the encode loop makes of a sequence gives the
    sequence back: with a table that the length limiting loop returns and
    [materialize] turns into a dense table, every sequence of [int32_t]
    symbols (those of the histogram's alphabet among them) is encoded
    without a failure, and the decode loop, given the bitstream and the side
    channel of that encode, ends with exactly that sequence, an empty
    accumulator and the whole side channel consumed. *)
Theorem decode_encode_roundtrip (hist : gmap Z Z) (L : nat) (symbols : list Z)
    (enc : gmap (option Z) (list bool)) (wh : gmap (option Z) Z)
    (d : dense_table) (sequence : list Z) :
  map_Forall (λ k _, is_int32 k) hist →
  build_length_limited hist L symbols = Ok (enc, wh) →
  materialize enc = Ok d →
  Forall is_int32 sequence →
  ∃ bits side,
    encode d sequence = Ok (bits, side) ∧
    decode d bits side = Ok (mk_decode sequence [] (length side)).
Proof.
  intros Hkeys Hl Hm Hseq.
  destruct (limited_table _ _ _ _ _ _ Hkeys Hl Hm) as (Hpf & Hnone & Hint).
  pose proof (materialize_ok _ _ Hpf Hnone Hint Hm) as Hd.
  eexists _, _. split.
  { apply (encode_loop_spec d sequence ([], [])); [apply Hd|done]. }
  simpl. unfold decode.
  pose proof (decode_loop_encoded d sequence [] [] [] [] Hd Hseq) as Hdec.
  simpl in Hdec. rewrite !app_nil_r in Hdec. rewrite Hdec. done.
Qed.
End pipeline.

(** ** The serial and the parallel encoder of huffman_code.cc *)

Section encoders.
Context (encoding : gmap Z (list bool)).
Implicit Types (values : list Z) (offsets : list nat).

Lemma encoded_bytes_cons v values :
  encoded_bytes encoding (v :: values) =
    bytes_of encoding v ++ encoded_bytes encoding values.
Proof. done. Qed.

Lemma largest_encoding_le v c :
  encoding !! v = Some c → (length c ≤ largest_encoding encoding)%nat.
Proof.
  intros Hv. by eapply (map_fold_max_le encoding (largest_encoding encoding)).
Qed.

Lemma encoded_bytes_length values :
  (length (encoded_bytes encoding values)
   ≤ length values * largest_encoding encoding)%nat.
Proof.
  induction values as [|v values IH]; [done|].
  rewrite encoded_bytes_cons, length_app. simpl. unfold bytes_of at 1.
  rewrite length_fmap. destruct (encoding !! v) as [c|] eqn:Hv; simpl; [|lia].
  apply largest_encoding_le in Hv. lia.
Qed.

(** A value without a codeword: the serial encoder throws, and the
    exception of the scan cannot leave the parallel region. *)
Lemma serial_loop_missing values encoded :
  Exists (λ v, encoding !! v = None) values →
  serial_loop encoding values encoded = Err out_of_range.
Proof.
  intros Hex. revert encoded. induction values as [|v values IH]; intros encoded.
  { by apply Exists_nil in Hex. }
  simpl. destruct (encoding !! v) as [c|] eqn:Hv; [simpl|done].
  apply IH. apply Exists_cons in Hex as [?|?]; [congruence|done].
Qed.

Lemma scan_loop_missing values i acc offsets :
  Exists (λ v, encoding !! v = None) values →
  scan_loop encoding values i acc offsets = Err terminate.
Proof.
  intros Hex. revert i acc offsets.
  induction values as [|v values IH]; intros i acc offsets.
  { by apply Exists_nil in Hex. }
  simpl. destruct (encoding !! v) as [c|] eqn:Hv; [simpl|done].
  apply Exists_cons in Hex as [?|Hex]; [congruence|].
  destruct values as [|v' values]; [by apply Exists_nil in Hex|]. by apply IH.
Qed.

Lemma serial_loop_spec values encoded :
  Forall (λ v, is_Some (encoding !! v)) values →
  serial_loop encoding values encoded =
    Ok (encoded ++ encoded_bytes encoding values).
Proof.
  intros Hall. revert encoded.
  induction Hall as [|v values [c Hv] _ IH]; intros encoded; simpl.
  { by rewrite app_nil_r. }
  rewrite Hv. simpl. rewrite IH, encoded_bytes_cons. unfold bytes_of.
  by rewrite Hv, (assoc_L (++)).
Qed.

Lemma scan_loop_spec values i acc offsets :
  Forall (λ v, is_Some (encoding !! v)) values →
  values ≠ [] →
  (i + length values ≤ length offsets)%nat →
  ∃ offsets',
    scan_loop encoding values i acc offsets =
      Ok ((acc + length (encoded_bytes encoding values))%nat, offsets') ∧
    (∀ p, (p < i)%nat → offsets' !! p = offsets !! p) ∧
    (∀ k, (k < length values)%nat →
       offsets' !! (i + k)%nat =
         Some (acc + length (encoded_bytes encoding (take k values)))%nat).
Proof.
  intros Hall. revert i acc offsets.
  induction Hall as [|v values [c Hv] _ IH]; intros i acc offsets Hne Hlen; [done|].
  simpl. rewrite Hv. simpl in *.
  assert (length (bytes_of encoding v) = length c) as Hc
    by (unfold bytes_of; by rewrite Hv, length_fmap).
  destruct values as [|v' values].
  { exists (<[i := acc]> offsets). split_and!.
    - rewrite encoded_bytes_cons, length_app, Hc. do 2 f_equal.
      unfold encoded_bytes. simpl. lia.
    - intros p Hp. apply list_lookup_insert_ne. lia.
    - intros [|k] Hk; [|simpl in Hk; lia].
      rewrite Nat.add_0_r. simpl. rewrite list_lookup_insert_eq by lia.
      f_equal. unfold encoded_bytes. simpl. lia. }
  destruct (IH (S i) (acc + length c)%nat (<[i := acc]> offsets))
    as (offsets' & -> & Hbelow & Hat); [done| |].
  { rewrite length_insert. simpl in *. lia. }
  exists offsets'. split_and!.
  - rewrite (encoded_bytes_cons v), length_app, Hc. do 2 f_equal. lia.
  - intros p Hp. rewrite Hbelow by lia. apply list_lookup_insert_ne. lia.
  - intros [|k] Hk.
    + rewrite Nat.add_0_r, Hbelow by lia. simpl.
      rewrite list_lookup_insert_eq by lia. f_equal. unfold encoded_bytes. simpl. lia.
    + replace (i + S k)%nat with (S i + k)%nat by lia. rewrite Hat by (simpl in *; lia).
      rewrite firstn_cons, (encoded_bytes_cons v), length_app, Hc. f_equal. lia.
Qed.

Lemma scatter_stores_spec values i base offsets :
  Forall (λ v, is_Some (encoding !! v)) values →
  (∀ k, (k < length values)%nat →
     offsets !! (i + k)%nat =
       Some (base + length (encoded_bytes encoding (take k values)))%nat) →
  scatter_stores encoding values i offsets =
    Ok (imap (λ p x, ((base + p)%nat, x)) (encoded_bytes encoding values)).
Proof.
  intros Hall. revert i base.
  induction Hall as [|v values [c Hv] _ IH]; intros i base Hoff; simpl; [done|].
  rewrite Hv. simpl.
  specialize (Hoff 0%nat) as Hoff0. simpl in Hoff0.
  rewrite Nat.add_0_r in Hoff0. rewrite Hoff0 by lia. simpl.
  assert (length (bytes_of encoding v) = length c) as Hc
    by (unfold bytes_of; by rewrite Hv, length_fmap).
  rewrite (IH (S i) (base + length c)%nat).
  - simpl. rewrite encoded_bytes_cons, imap_app. f_equal. f_equal.
    + unfold bytes_of. rewrite Hv. simpl. rewrite imap_fmap.
      apply imap_ext. intros j b _. simpl. f_equal. lia.
    + apply imap_ext. intros p x _. rewrite Hc. f_equal. lia.
  - intros k Hk. replace (S i + k)%nat with (i + S k)%nat by lia.
    rewrite Hoff by (simpl; lia). simpl.
    rewrite encoded_bytes_cons, length_app, Hc. f_equal. lia.
Qed.

Lemma run_stores_spec (stores : list (nat * Z)) (par_encoded : list Z) :
  Forall (λ kx, kx.1 < length par_encoded)%nat stores →
  NoDup stores.*1 →
  ∃ par_encoded',
    run_stores stores par_encoded = Ok par_encoded' ∧
    length par_encoded' = length par_encoded ∧
    (∀ k x, (k, x) ∈ stores → par_encoded' !! k = Some x) ∧
    (∀ k, k ∉ stores.*1 → par_encoded' !! k = par_encoded !! k).
Proof.
  revert par_encoded.
  induction stores as [|[k x] stores IH]; intros par_encoded Hin Hnd; simpl.
  { exists par_encoded. split_and!; [done..| |done].
    intros k x Hk. by apply elem_of_nil in Hk. }
  apply Forall_cons in Hin as [Hk Hin]. apply NoDup_cons in Hnd as [Hnk Hnd].
  simpl in Hk. rewrite decide_True by done.
  destruct (IH (<[k := x]> par_encoded)) as (buf & -> & Hlen & Hsome & Hother).
  { by rewrite length_insert. }
  { done. }
  rewrite length_insert in Hlen. exists buf. split_and!; [done..| |].
  - intros k' x' [[= -> ->]|Hk']%elem_of_cons; [|by apply Hsome].
    rewrite Hother by done. by apply list_lookup_insert_eq.
  - intros k' Hk'. apply not_elem_of_cons in Hk' as [Hne Hk'].
    rewrite Hother by done. by apply list_lookup_insert_ne.
Qed.

(** C2. For every code table, every sequence of one value or more (those
    of one value among them) whose values all have a codeword, and every
    order in which the stores of the scatter loop are executed, the parallel
    encoder (exclusive scan, scatter into the preallocated vector, truncation
    to the accumulated length) gives the bytes of the serial encoder. When a
    value has no codeword, the serial encoder throws [std::out_of_range] and
    the exception of the parallel encoder ends the program. *)
Theorem parallel_encode_serial (schedule : list (nat * Z) → list (nat * Z))
    (values : list Z) :
  (∀ stores, schedule stores ≡ₚ stores) →
  (values ≠ [] → Forall (λ v, is_Some (encoding !! v)) values →
   serial_encode encoding values = Ok (encoded_bytes encoding values) ∧
   parallel_encode schedule encoding values = serial_encode encoding values) ∧
  (Exists (λ v, encoding !! v = None) values →
   serial_encode encoding values = Err out_of_range ∧
   parallel_encode schedule encoding values = Err terminate).
Proof.
  intros Hsched. unfold parallel_encode, serial_encode. split.
  2:{ intros Hex. by rewrite scan_loop_missing, serial_loop_missing. }
  intros Hne Hall. rewrite serial_loop_spec by done. simpl. split; [done|].
  destruct (scan_loop_spec values 0 0 (replicate (length values) 0%nat) Hall Hne)
    as (offsets & -> & _ & Hoff).
  { by rewrite length_replicate. }
  simpl. rewrite (scatter_stores_spec values 0 0 offsets Hall Hoff). simpl.
  set (out := encoded_bytes encoding values).
  set (stores := imap (λ p x, (p, x)) out).
  pose proof (encoded_bytes_length values) as Hbound. fold out in Hbound.
  destruct (run_stores_spec (schedule stores)
              (replicate (length values * largest_encoding encoding) 0))
    as (buf & -> & Hlen & Hsome & _).
  { rewrite Hsched. apply Forall_forall. intros [k x] Hkx. simpl.
    apply elem_of_lookup_imap in Hkx as (i & y & [= -> ->] & Hi).
    apply lookup_lt_Some in Hi. rewrite length_replicate. lia. }
  { rewrite Hsched. unfold stores. rewrite fmap_imap.
    apply NoDup_alt. intros i j k. rewrite !list_lookup_imap_Some.
    intros (? & _ & ->) (? & _ & Heq). done. }
  simpl. f_equal. rewrite length_replicate in Hlen.
  rewrite resize_le by lia. apply list_eq. intros i.
  destruct (decide (i < length out)%nat) as [Hi|Hi].
  - rewrite lookup_take_lt by done.
    destruct (lookup_lt_is_Some_2 out i Hi) as [x Hx]. rewrite Hx.
    apply Hsome. rewrite Hsched. by apply (elem_of_lookup_imap_2 (λ p x, (p, x))).
  - rewrite lookup_take_ge by lia. symmetry. apply lookup_ge_None. lia.
Qed.
End encoders.

(** ** The program's own data and a small histogram *)

Lemma int32_keys_Forall {V} (m : gmap (option Z) V) :
  Forall (λ kv, int32_key kv.1 = true) (map_to_list m) → int32_keys m.
Proof.
  intros Hall k [v Hk]. rewrite Forall_forall in Hall.
  apply (bool_decide_eq_true_1 (is_int32 k)).
  by apply (Hall (Some k, v)), elem_of_map_to_list.
Qed.

(** The dense table has no entry for the greatest coded value: the vector
    is made with [greatest - least] elements. *)
Lemma encoding_table_misses_greatest (encoding : gmap (option Z) (list bool))
    (d : dense_table) :
  int32_keys encoding →
  materialize encoding = Ok d →
  is_Some (encoding !! Some (greatest d)) ∧
  encoding_table d !! Z.to_nat (greatest d - least d) = None.
Proof.
  intros Hkeys Hm. destruct (materialize_range _ _ Hkeys Hm) as ([_ _ Hlen _] & _ & Hg).
  split; [done|]. apply lookup_ge_None. lia.
Qed.

(** C4, on the data of [main]. The length limiting loop ends with codewords
    for the values -4 to 3 and for the escape symbol; the dense table goes
    from -4 to 3 but has 7 entries only, for -4 to 2: index 3 - (-4) = 7
    is not in the vector, and the encode loop emits the escape codeword for
    the value 3, which has a codeword of its own in the code table. *)
Theorem encoding_table_misses_greatest_main :
  build_length_limited (PQ:=list_pq count) hist_main allowed_length_main
    (symbols_least_to_most_probable hist_main)
    = Ok (encoding_main, working_hist_main) ∧
  materialize encoding_main = Ok dense_main ∧
  least dense_main = -4 ∧ greatest dense_main = 3 ∧
  encoding_main !! Some 3 = Some [true; true; false; true; false; true; true] ∧
  length (encoding_table dense_main) = 7%nat ∧
  encoding_table dense_main !! Z.to_nat (3 - -4) = None ∧
  encode dense_main [3] = Ok (escape dense_main, [3]).
Proof. split_and!; by vm_compute. Qed.

(** The round trip on the data of [main]. *)
Lemma decode_encode_roundtrip_witness :
  map_Forall (λ k _, is_int32 k) hist_main ∧
  build_length_limited (PQ:=list_pq count) hist_main allowed_length_main
    (symbols_least_to_most_probable hist_main)
    = Ok (encoding_main, working_hist_main) ∧
  materialize encoding_main = Ok dense_main ∧
  Forall is_int32 sequence_main ∧
  ∃ bits side,
    encode dense_main sequence_main = Ok (bits, side) ∧
    decode dense_main bits side = Ok (mk_decode sequence_main [] (length side)).
Proof.
  assert (map_Forall (λ k _, is_int32 k) hist_main) as Hkeys.
  { apply map_Forall_to_list, (bool_decide_unpack _). by vm_compute. }
  assert (build_length_limited (PQ:=list_pq count) hist_main allowed_length_main
            (symbols_least_to_most_probable hist_main)
          = Ok (encoding_main, working_hist_main)) as Hl by (by vm_compute).
  assert (materialize encoding_main = Ok dense_main) as Hm by (by vm_compute).
  assert (Forall is_int32 sequence_main) as Hseq
    by (apply (bool_decide_unpack _); by vm_compute).
  split_and!; [done..|].
  exact (decode_encode_roundtrip hist_main allowed_length_main _ _ _ _ _
           Hkeys Hl Hm Hseq).
Defined.

(** The two encoders on a table of two codewords, with the stores of the
    scatter executed last to first. *)
Lemma parallel_encode_serial_witness :
  (∀ stores : list (nat * Z), reverse stores ≡ₚ stores) ∧
  values_two ≠ [] ∧
  Forall (λ v, is_Some (encoding_two !! v)) values_two ∧
  Exists (λ v, encoding_two !! v = None) [1; 3] ∧
  (serial_encode encoding_two values_two
     = Ok (encoded_bytes encoding_two values_two) ∧
   parallel_encode reverse encoding_two values_two
     = serial_encode encoding_two values_two) ∧
  (serial_encode encoding_two [1; 3] = Err out_of_range ∧
   parallel_encode reverse encoding_two [1; 3] = Err terminate).
Proof.
  assert (∀ stores : list (nat * Z), reverse stores ≡ₚ stores) as Hsched
    by (intros stores; apply reverse_Permutation).
  assert (values_two ≠ []) as Hne by done.
  assert (Forall (λ v, is_Some (encoding_two !! v)) values_two) as Hall.
  { apply (bool_decide_unpack _). vm_compute. reflexivity. }
  assert (Exists (λ v, encoding_two !! v = None) [1; 3]) as Hex.
  { apply (bool_decide_unpack _). vm_compute. reflexivity. }
  split; [exact Hsched|]. split; [exact Hne|]. split; [exact Hall|].
  split; [exact Hex|]. split.
  - exact (proj1 (parallel_encode_serial encoding_two reverse values_two Hsched)
             Hne Hall).
  - exact (proj2 (parallel_encode_serial encoding_two reverse [1; 3] Hsched) Hex).
Defined.

(** The empty sequence: the serial encoder returns no byte, and the scan of
    the parallel encoder is a loop without an iteration. *)
Lemma parallel_encode_empty_counterexample :
  serial_encode encoding_two [] = Ok [] ∧
  parallel_encode reverse encoding_two [] = Err undefined_behavior ∧
  parallel_encode reverse encoding_two [] ≠ serial_encode encoding_two [].
Proof. split_and!; [reflexivity..|]. intros Heq. by vm_compute in Heq. Qed.

(** The tree and the table of the histogram of three symbols. *)
Lemma build_encoding_tree_and_prefix_free_witness :
  (2 ≤ size hist_small)%nat ∧
  ∃ st root,
    build_tree (PQ:=list_pq count) hist_small = Ok (st, root) ∧
    build_encoding (PQ:=list_pq count) hist_small = Ok (walk root) ∧
    loop_runs (size hist_small - 1) (mk_state (seed_queue hist_small) ∅ 1) st ∧
    max_id st = S (size hist_small - 1) ∧
    interior_count root = (size hist_small - 1)%nat ∧
    leaf_count root = size hist_small ∧
    full_binary root ∧
    prefix_free (walk root).
Proof.
  assert (2 ≤ size hist_small)%nat as Hsize by (vm_compute; lia).
  split; [done|]. exact (build_encoding_tree_and_prefix_free hist_small Hsize).
Defined.

(** A histogram of one symbol is refused, the one of three symbols is not. *)
Lemma build_encoding_invalid_argument_iff_witness :
  (build_encoding (PQ:=list_pq count) hist_single = Err invalid_argument
   ↔ (size hist_single < 2)%nat) ∧
  ((2 ≤ size hist_small)%nat →
   ∃ encoding, build_encoding (PQ:=list_pq count) hist_small = Ok encoding).
Proof.
  split.
  - apply (build_encoding_invalid_argument_iff (PQ:=list_pq count) hist_single).
  - apply (build_encoding_invalid_argument_iff (PQ:=list_pq count) hist_small).
Defined.

(** The keys of the table of the histogram of three symbols. *)
Lemma build_encoding_keys_witness :
  (2 ≤ size hist_small)%nat ∧
  ∃ st root,
    build_tree (PQ:=list_pq count) hist_small = Ok (st, root) ∧
    build_encoding (PQ:=list_pq count) hist_small = Ok (walk root) ∧
    dom (walk root) = dom hist_small ∧
    pq_elems (seed_queue (PQ:=list_pq count) hist_small) ≡ₚ
      (λ vc, mk_entry 0 vc.1 vc.2) <$> map_to_list hist_small ∧
    (codes root []).*1 ≡ₚ (map_to_list hist_small).*1.
Proof.
  assert (2 ≤ size hist_small)%nat as Hsize by (vm_compute; lia).
  split; [done|]. exact (build_encoding_keys hist_small Hsize).
Defined.

(** With the table of the histogram of three symbols, the bitstream of the
    single bit 0 ends while the accumulator holds that bit, which is no table
    entry; the decode loop ends with no symbol and no failure. *)
Lemma decode_malformed_counterexample :
  build_length_limited (PQ:=list_pq count) hist_small 8
    (symbols_least_to_most_probable hist_small)
    = Ok (encoding_small, working_hist_small) ∧
  materialize encoding_small = Ok dense_small ∧
  decode dense_small [false] [] = Ok (mk_decode [] [false] 0) ∧
  [false] ≠ [] ∧
  make_encodings_to_indices dense_small !! [false] = None ∧
  ¬ ∃ e, decode dense_small [false] [] = Err e.
Proof. split_and!; [by vm_compute..|]. intros [e He]. by vm_compute in He. Qed.

(** The bits 0 1 are decoded to the symbol 2; one more bit 0 completes no
    table entry and is dropped. *)
Lemma decode_drops_unmatched_tail_witness :
  decode dense_small [false; true] [] = Ok (mk_decode [2] [] 0) ∧
  (∀ p, p ≠ [] → p `prefix_of` [false] →
     make_encodings_to_indices dense_small !! ([] ++ p) = None) ∧
  decode dense_small ([false; true] ++ [false]) [] = Ok (mk_decode [2] ([] ++ [false]) 0).
Proof.
  assert (decode dense_small [false; true] [] = Ok (mk_decode [2] [] 0)) as Hbits
    by (by vm_compute).
  assert (∀ p, p ≠ [] → p `prefix_of` [false] →
            make_encodings_to_indices dense_small !! ([] ++ p) = None) as Htail.
  { intros [|b [|b' p]] Hp Hpre; [done| |].
    - apply prefix_cons_inv_1 in Hpre as ->. by vm_compute.
    - apply prefix_length in Hpre. simpl in Hpre. lia. }
  split_and!; [done..|].
  exact (decode_drops_unmatched_tail dense_small [false; true] [false] []
           (mk_decode [2] [] 0) Hbits Htail).
Defined.

(** The histogram of three symbols satisfies the budget of 8 as it is (its
    table has codewords of at most 2 bits), and the table that the loop
    ends with has a codeword for the escape symbol all the same: the symbol
    1 was merged before the first table was built. *)
Lemma escape_without_need_counterexample :
  build_encoding (PQ:=list_pq count) (kmap Some hist_small)
    = Ok encoding_unmerged_small ∧
  (max_length encoding_unmerged_small ≤ 8)%nat ∧
  build_length_limited (PQ:=list_pq count) hist_small 8
    (symbols_least_to_most_probable hist_small)
    = Ok (encoding_small, working_hist_small) ∧
  encoding_small !! None = Some [false; false].
Proof. split_and!; [by vm_compute| vm_compute; lia|by vm_compute..]. Qed.

(** The escape symbol in the table of the histogram of three symbols. *)
Lemma escape_present_after_merge_witness :
  build_length_limited (PQ:=list_pq count) hist_small 8
    (symbols_least_to_most_probable hist_small)
    = Ok (encoding_small, working_hist_small) ∧
  symbols_least_to_most_probable hist_small ≠ [] ∧
  is_Some (encoding_small !! None) ∧ is_Some (working_hist_small !! None).
Proof.
  assert (build_length_limited (PQ:=list_pq count) hist_small 8
            (symbols_least_to_most_probable hist_small)
          = Ok (encoding_small, working_hist_small)) as Hl by (by vm_compute).
  assert (symbols_least_to_most_probable hist_small ≠ []) as Hne by (by vm_compute).
  split; [done|]. split; [done|].
  exact (escape_present_after_merge hist_small 8 _ _ _ Hl Hne).
Defined.

(** The budget of 8 bits on the data of [main]. *)
Lemma build_length_limited_within_budget_witness :
  least_to_most_probable hist_main (symbols_least_to_most_probable hist_main) ∧
  (1 ≤ allowed_length_main)%nat ∧
  ((∃ enc wh,
      build_length_limited (PQ:=list_pq count) hist_main allowed_length_main
        (symbols_least_to_most_probable hist_main) = Ok (enc, wh) ∧
      (max_length enc ≤ allowed_length_main)%nat ∧
      ∀ k c, enc !! k = Some c → (length c ≤ allowed_length_main)%nat) ∨
   build_length_limited (PQ:=list_pq count) hist_main allowed_length_main
     (symbols_least_to_most_probable hist_main) = Err runtime_error).
Proof.
  assert (1 ≤ allowed_length_main)%nat as HL by (vm_compute; lia).
  split; [apply symbols_least_to_most_probable_spec|]. split; [done|].
  exact (build_length_limited_within_budget hist_main allowed_length_main _
           (symbols_least_to_most_probable_spec hist_main) HL).
Defined.

(** The encode loop on the data of [main]. *)
Lemma encode_never_fails_witness :
  int32_keys encoding_main ∧
  materialize encoding_main = Ok dense_main ∧
  Forall is_int32 sequence_main ∧
  encode dense_main sequence_main =
    Ok (mjoin (codeword dense_main <$> sequence_main),
        filter (escaped dense_main) sequence_main) ∧
  ∀ s, s ∈ sequence_main →
    (s - least dense_main < 0 ∨
     Z.of_nat (length (encoding_table dense_main)) ≤ s - least dense_main ∨
     encoding_table dense_main !! Z.to_nat (s - least dense_main)
       = Some (escape dense_main)) →
    codeword dense_main s = escape dense_main ∧
    s ∈ filter (escaped dense_main) sequence_main.
Proof.
  assert (int32_keys encoding_main) as Hkeys.
  { apply int32_keys_Forall, (bool_decide_unpack _). by vm_compute. }
  assert (materialize encoding_main = Ok dense_main) as Hm by (by vm_compute).
  assert (Forall is_int32 sequence_main) as Hseq
    by (apply (bool_decide_unpack _); by vm_compute).
  split; [done|]. split; [done|]. split; [done|].
  exact (encode_never_fails encoding_main dense_main sequence_main Hkeys Hm Hseq).
Defined.

(** ** Examples, with the list implementation of the queue *)

(** Two symbols of equal count get one bit each. *)
Example build_encoding_ab :
  build_encoding (PQ:=list_pq count) hist_ab
    = Ok (list_to_map [(1, [false]); (2, [true])]).
Proof. vm_compute. reflexivity. Qed.

(** With the counts 1, 1 and 2 the symbol of count 2 gets one bit and the
    other two get two bits. *)
Example build_encoding_abc :
  build_encoding (PQ:=list_pq count) hist_abc
    = Ok (list_to_map [(3, [false]); (1, [true; false]); (2, [true; true])]).
Proof. vm_compute. reflexivity. Qed.

(** The values 7 and -9 are outside the dense table: both are escaped, the
    side channel holds them in encode order and the decode loop reads it
    first in, first out. *)
Example side_channel_fifo :
  encode dense_small [7; -9]
    = Ok ([false; false; false; false], [7; -9]) ∧
  decode dense_small [false; false; false; false] [7; -9]
    = Ok (mk_decode [7; -9] [] 2).
Proof. split; vm_compute; reflexivity. Qed.

(** The run of [main]: the bitstream and the side channel of its sequence,
    and what the decode loop makes of them. *)
Example main_run :
  encode dense_main sequence_main = Ok (encoded_sequence_main, [-5; 3; 4; 5]) ∧
  decode dense_main encoded_sequence_main [-5; 3; 4; 5]
    = Ok (mk_decode sequence_main [] 4).
Proof. split; vm_compute; reflexivity. Qed.
(** * Further properties of the two programs *)

(** ** The shape of the tree and of its codewords *)

Section trees_more.
Context `{Countable Value}.
Implicit Types (t : tree Value).

Lemma codes_length t path vp :
  full_binary t → vp ∈ codes t path →
  (length path ≤ length vp.2 ≤ length path + interior_count t)%nat ∧
  (interior_count t ≠ 0%nat → length path < length vp.2)%nat.
Proof.
  intros Hf. revert path. induction Hf as [v c|e l r He Hl IHl Hr IHr]; intros path; simpl.
  - rewrite list_elem_of_singleton. intros ->. simpl. lia.
  - rewrite decide_False by done. rewrite app_nil_r, elem_of_app.
    intros [Hin|Hin]; [apply IHl in Hin|apply IHr in Hin];
      rewrite length_app in Hin; simpl in Hin;
      (destruct l as [? [?|] [?|]], r as [? [?|] [?|]]; simpl in *; lia).
Qed.

Lemma codes_complete t path (bits : list bool) :
  full_binary t → (interior_count t ≤ length bits)%nat →
  ∃ vp k, vp ∈ codes t path ∧ vp.2 = path ++ take k bits.
Proof.
  intros Hf. revert path bits.
  induction Hf as [v c|e l r He Hl IHl Hr IHr]; intros path bits Hlen.
  - exists (v, path), 0%nat. simpl. rewrite take_0, app_nil_r. split; [|done].
    by apply list_elem_of_singleton.
  - assert (interior_count (mk_tree e (Some l) (Some r))
            = S (interior_count l + interior_count r)) as Hic
      by (by destruct l as [? [?|] [?|]]).
    rewrite Hic in Hlen. destruct bits as [|b bits]; [simpl in Hlen; lia|].
    simpl in Hlen. simpl codes. rewrite decide_False by done. rewrite app_nil_r.
    destruct b.
    + destruct (IHr (path ++ [true]) bits) as (vp & k & Hin & Heq); [lia|].
      exists vp, (S k). split; [apply elem_of_app; by right|].
      by rewrite Heq, <-(assoc_L (++)).
    + destruct (IHl (path ++ [false]) bits) as (vp & k & Hin & Heq); [lia|].
      exists vp, (S k). split; [apply elem_of_app; by left|].
      by rewrite Heq, <-(assoc_L (++)).
Qed.

Lemma walk_eq t :
  NoDup (leaf_values t) → walk t = list_to_map (codes t []).
Proof.
  intros Hnd. apply map_eq. intros k. unfold walk.
  rewrite walk_impl_codes, foldl_assign_lookup by (by rewrite codes_fst).
  rewrite lookup_empty. by destruct (list_to_map (codes t []) !! k).
Qed.

Lemma leaf_entries_fst t : (leaf_entries t).*1 = leaf_values t.
Proof.
  unfold leaf_values. generalize (@nil bool).
  induction t as [e l r IHl IHr] using tree_rect'; intros path; simpl.
  rewrite !fmap_app. f_equal; [|f_equal].
  - destruct l; simpl in *; [apply IHl|done].
  - destruct r; simpl in *; [apply IHr|done].
  - by case_decide.
Qed.
End trees_more.

(** ** One iteration of the merge loop, described *)

Section merge_more.
Context `{Countable Value, HuffmanValue Value}.
Context `{PQ : !PriorityQueue (queue_entry Value) count}.
Implicit Types (e : queue_entry Value) (es : list (queue_entry Value)).
Implicit Types (I : gmap nat (tree Value)) (st : build_state).

(** What an iteration does to the queue and to [interiors]: the two entries
    of least count leave the queue, the entry of the new node enters it, the
    new node is stored under the old [max_id] with the subtrees of the two
    entries as children, and the interior nodes that became children leave
    [interiors]. *)
Lemma merge_step_spec keys st st' :
  forest_inv keys (pq_elems (Q st)) (interiors st) (max_id st) →
  (2 ≤ pq_size (Q st))%nat →
  merge_step st = Ok st' →
  ∃ e1 e2 es2,
    pq_elems (Q st) ≡ₚ e1 :: e2 :: es2 ∧
    (∀ x, x ∈ e2 :: es2 → count e1 ≤ count x) ∧
    (∀ x, x ∈ es2 → count e2 ≤ count x) ∧
    let t1 := subtree (interiors st) e1 in
    let t2 := subtree (interiors st) e2 in
    let new_entry :=
      mk_entry (max_id st) value_zero (wrap64 (count (entry t1) + count (entry t2))) in
    pq_elems (Q st') ≡ₚ new_entry :: es2 ∧
    max_id st' = S (max_id st) ∧
    subtree (interiors st') new_entry = mk_tree new_entry (Some t1) (Some t2) ∧
    (∀ e, e ∈ es2 → interiors st' !! id e = interiors st !! id e) ∧
    (∀ k, is_Some (interiors st' !! k) →
       k = max_id st ∨ (is_Some (interiors st !! k) ∧ k ≠ id e1 ∧ k ≠ id e2)).
Proof.
  destruct st as [q I m]; simpl. intros Hinv Hsz.
  rewrite pq_size_elems in Hsz.
  destruct (pq_top_is_Some q) as [e1 He1].
  { intros Heq. rewrite Heq in Hsz. simpl in Hsz. lia. }
  pose proof (pq_top_pop _ _ He1) as Hp1.
  destruct (pq_top_is_Some (pq_pop q)) as [e2 He2].
  { intros Heq. rewrite Hp1, Heq in Hsz. simpl in Hsz. lia. }
  pose proof (pq_top_pop _ _ He2) as Hp2.
  set (es2 := pq_elems (pq_pop (pq_pop q))) in *.
  assert (pq_elems q ≡ₚ e1 :: e2 :: es2) as Hp by (by rewrite Hp1, Hp2).
  pose proof (forest_inv_perm _ _ _ _ _ Hp Hinv) as Hinv'.
  destruct Hinv' as [Hids Hnd Hz Hpos Hfull Hleaves Hint Hmax _ _].
  apply Forall_cons in Hids as [Hid1 Hids]. apply Forall_cons in Hids as [Hid2 Hids].
  csimpl in Hnd. apply nodup_nonzero_cons in Hnd as [Hnd Hd1].
  apply nodup_nonzero_cons in Hnd as [Hnd Hd2].
  unfold merge_step. simpl. rewrite He1. simpl.
  set (ph := mk_tree (mk_entry m value_zero 0) None None).
  set (I1 := <[m := ph]> I).
  rewrite (surjective_pairing (insert_or_retrieve_child I1 e1)).
  rewrite He2. simpl.
  set (I2 := (insert_or_retrieve_child I1 e1).2).
  rewrite (surjective_pairing (insert_or_retrieve_child I2 e2)).
  set (I3 := (insert_or_retrieve_child I2 e2).2).
  fold (subtree I1 e1). fold (subtree I2 e2).
  assert (I1 !! id e1 = I !! id e1) as H11
    by (unfold I1; rewrite lookup_insert_ne; [done|lia]).
  assert (I1 !! id e2 = I !! id e2) as H12
    by (unfold I1; rewrite lookup_insert_ne; [done|lia]).
  assert (I2 = match I !! id e1 with Some _ => delete (id e1) I1 | None => I1 end) as HI2.
  { unfold I2. rewrite insert_or_retrieve_child_eq. simpl. by rewrite H11. }
  assert (I2 !! id e2 = I !! id e2) as H22.
  { rewrite HI2. destruct (I !! id e1) as [t1|] eqn:Ht1; [|done].
    rewrite lookup_delete_ne; [done|]. intros Heq.
    apply Hd1; [|rewrite Heq; left]. intros Hzero. by rewrite Hzero, Hz in Ht1. }
  assert (I3 = match I !! id e2 with Some _ => delete (id e2) I2 | None => I2 end) as HI3.
  { unfold I3. rewrite insert_or_retrieve_child_eq. simpl. by rewrite H22. }
  rewrite (subtree_ext I I1 e1) by done. rewrite (subtree_ext I I2 e2) by done.
  intros [= <-]. simpl. exists e1, e2, es2. split_and!.
  - done.
  - intros x Hx. apply (pq_top_least q e1 x He1). rewrite Hp. by right.
  - intros x Hx. apply (pq_top_least (pq_pop q) e2 x He2). rewrite Hp2. by right.
  - apply pq_elems_emplace.
  - done.
  - unfold subtree, insert_or_retrieve_child. simpl. by rewrite lookup_insert_eq.
  - intros e He. apply interiors_after_step.
    + rewrite Forall_forall in Hids. specialize (Hids _ He). simpl in Hids. lia.
    + intros Hk. destruct (I !! id e) as [t|] eqn:Ht; [|done]. exfalso.
      assert (id e ≠ 0%nat) as Hne by (intros Hzero; by rewrite Hzero, Hz in Ht).
      destruct Hk as [Hk|Hk].
      * apply Hd1; [congruence|]. rewrite <-Hk. right. by apply list_elem_of_fmap_2.
      * apply Hd2; [congruence|]. rewrite <-Hk. by apply list_elem_of_fmap_2.
  - intros k Hk. destruct (decide (k = m)) as [|Hkm]; [by left|right].
    rewrite lookup_insert_ne in Hk by done.
    assert (is_Some (I2 !! k) ∧ k ≠ id e2) as [Hk2 ?].
    { rewrite HI3 in Hk. destruct (I !! id e2) as [t2|] eqn:Ht2.
      - destruct (decide (k = id e2)) as [->|?].
        + rewrite lookup_delete_eq in Hk. by destruct Hk.
        + by rewrite lookup_delete_ne in Hk.
      - split; [done|]. intros ->. rewrite H22 in Hk. by destruct Hk. }
    assert (is_Some (I1 !! k) ∧ k ≠ id e1) as [Hk1 ?].
    { rewrite HI2 in Hk2. destruct (I !! id e1) as [t1|] eqn:Ht1.
      - destruct (decide (k = id e1)) as [->|?].
        + rewrite lookup_delete_eq in Hk2. by destruct Hk2.
        + by rewrite lookup_delete_ne in Hk2.
      - split; [done|]. intros ->. rewrite H11 in Hk2. by destruct Hk2. }
    unfold I1 in Hk1. by rewrite lookup_insert_ne in Hk1.
Qed.

(** A property of the state that every iteration preserves holds when the
    loop ends. *)
Lemma loop_runs_invariant keys (P : build_state → Prop) k st st' :
  (∀ s s', forest_inv keys (pq_elems (Q s)) (interiors s) (max_id s) →
     (2 ≤ pq_size (Q s))%nat → merge_step s = Ok s' → P s → P s') →
  loop_runs k st st' →
  forest_inv keys (pq_elems (Q st)) (interiors st) (max_id st) →
  P st →
  P st' ∧ forest_inv keys (pq_elems (Q st')) (interiors st') (max_id st') ∧
  pq_size (Q st') = 1%nat.
Proof.
  intros Hstep. induction 1 as [st Hexit|k st st1 st2 Hge Hs Hruns IH]; intros Hinv HP.
  - split_and!; [done..|].
    pose proof (inv_nonempty _ _ _ _ Hinv) as Hne.
    rewrite pq_size_elems in *. destruct (pq_elems (Q st)); [done|simpl in *; lia].
  - destruct (merge_step_inv keys st Hinv Hge) as (st1' & Hs' & Hinv1 & _).
    assert (st1' = st1) as -> by congruence.
    apply IH; [done|]. exact (Hstep st st1 Hinv Hge Hs HP).
Qed.
End merge_more.

(** ** The counts through the merge loop *)

#[export] Instance sum_counts_perm : Proper ((≡ₚ) ==> (=)) sum_counts.
Proof. induction 1; simpl; lia. Qed.

Lemma sum_counts_app (l1 l2 : list Z) :
  sum_counts (l1 ++ l2) = sum_counts l1 + sum_counts l2.
Proof. induction l1; simpl; lia. Qed.

Lemma wrap64_idemp (z : Z) : wrap64 (wrap64 z) = wrap64 z.
Proof. unfold wrap64. by rewrite Z.mod_mod. Qed.

Lemma wrap64_add (a b a' b' : Z) :
  wrap64 a = wrap64 a' → wrap64 b = wrap64 b' → wrap64 (a + b) = wrap64 (a' + b').
Proof.
  unfold wrap64. intros Ha Hb.
  rewrite (Z.add_mod a b), (Z.add_mod a' b') by done. by rewrite Ha, Hb.
Qed.

Lemma wrap64_small (z : Z) : 0 ≤ z < 2 ^ 64 → wrap64 z = z.
Proof. unfold wrap64. intros ?. by apply Z.mod_small. Qed.

Section ledger.
Context `{Countable Value, HuffmanValue Value}.
Context `{PQ : !PriorityQueue (queue_entry Value) count}.
Context (histogram : gmap Value Z).
Implicit Types (e : queue_entry Value) (es : list (queue_entry Value)).
Implicit Types (I : gmap nat (tree Value)) (st : build_state).

Lemma ledger_inv_perm es es' I :
  es ≡ₚ es' → ledger_inv histogram es I → ledger_inv histogram es' I.
Proof.
  intros Hp [Hown Hent Hlv Hw Hwr]. split.
  - intros k Hk. rewrite <-Hp. auto.
  - intros e He. rewrite <-Hp in He. auto.
  - by rewrite <-Hp.
  - intros e He. rewrite <-Hp in He. auto.
  - intros e He. rewrite <-Hp in He. auto.
Qed.

Lemma ledger_inv_init :
  ledger_inv histogram (pq_elems (seed_queue histogram)) ∅.
Proof.
  eapply ledger_inv_perm; [symmetry; apply seed_queue_elems|].
  split.
  - intros k [? Hk]. by rewrite lookup_empty in Hk.
  - intros e (vc & -> & _)%list_elem_of_fmap. by rewrite subtree_leaf.
  - generalize (map_to_list histogram). intros l.
    induction l as [|x l IH]; csimpl; [done|].
    rewrite subtree_leaf by done. destruct x. csimpl. by rewrite IH.
  - intros e (vc & -> & _)%list_elem_of_fmap. rewrite subtree_leaf by done.
    simpl. by rewrite Z.add_0_r.
  - by intros e (vc & -> & _)%list_elem_of_fmap.
Qed.

Lemma ledger_inv_step keys st st' :
  forest_inv keys (pq_elems (Q st)) (interiors st) (max_id st) →
  (2 ≤ pq_size (Q st))%nat →
  merge_step st = Ok st' →
  ledger_inv histogram (pq_elems (Q st)) (interiors st) →
  ledger_inv histogram (pq_elems (Q st')) (interiors st').
Proof.
  intros Hinv Hge Hstep Hled.
  destruct (merge_step_spec keys st st' Hinv Hge Hstep)
    as (e1 & e2 & es2 & Hp & _ & _ & Hp' & _ & Hnew & Hkeep & Hdom).
  pose proof (inv_pos _ _ _ _ Hinv) as Hpos.
  apply (ledger_inv_perm _ _ _ Hp) in Hled. destruct Hled as [Hown Hent Hlv Hw Hwr].
  eapply ledger_inv_perm; [symmetry; exact Hp'|].
  set (new_entry := mk_entry (max_id st) _ _) in *.
  assert (∀ e, e ∈ es2 → subtree (interiors st') e = subtree (interiors st) e) as Hsub
    by (intros e He; apply subtree_ext; auto).
  split.
  - intros k Hk. destruct (Hdom k Hk) as [->|(Hk' & Hk1 & Hk2)]; [by left|].
    apply Hown in Hk'. csimpl in *. set_solver.
  - intros e [->|He]%elem_of_cons; [by rewrite Hnew|].
    rewrite Hsub by done. apply Hent. set_solver.
  - rewrite <-Hlv. csimpl. rewrite Hnew. simpl.
    rewrite decide_False by lia. rewrite app_nil_r, <-(assoc_L (++)). do 2 f_equiv.
    rewrite (bind_ext_in _ (λ e, leaf_entries (subtree (interiors st) e))); [done|].
    intros e He. by rewrite Hsub.
  - intros e [->|He]%elem_of_cons.
    + rewrite Hnew. simpl. rewrite decide_False by lia.
      rewrite app_nil_r, fmap_app, sum_counts_app, wrap64_idemp.
      rewrite !Hent by set_solver. apply wrap64_add; apply Hw; set_solver.
    + rewrite Hsub by done. apply Hw. set_solver.
  - intros e [->|He]%elem_of_cons Hid.
    + simpl. by rewrite wrap64_idemp.
    + apply Hwr; [set_solver|done].
Qed.

(** The state in which the loop ends and the root that is read from it. *)
Lemma build_tree_final st root :
  build_tree histogram = Ok (st, root) →
  (2 ≤ size histogram)%nat ∧
  max_id st = size histogram ∧
  forest_inv (map_to_list histogram).*1 (pq_elems (Q st)) (interiors st) (max_id st) ∧
  ledger_inv histogram (pq_elems (Q st)) (interiors st) ∧
  ∃ e, pq_elems (Q st) = [e] ∧ id e = (max_id st - 1)%nat ∧
    interiors st !! id e = Some root ∧ subtree (interiors st) e = root.
Proof.
  intros Hbuild.
  assert (2 ≤ size histogram)%nat as Hsize.
  { unfold build_tree in Hbuild. case_decide; [done|lia]. }
  destruct (build_tree_Ok histogram Hsize) as (st' & root' & Hb & Hruns & Hmax & _).
  rewrite Hbuild in Hb. injection Hb as <- <-.
  destruct (loop_runs_invariant (map_to_list histogram).*1
              (λ s, ledger_inv histogram (pq_elems (Q s)) (interiors s))
              _ _ _ (ledger_inv_step _) Hruns (forest_inv_init _ Hsize) ledger_inv_init)
    as (Hled & Hinv & Hone).
  split_and!; [done..|].
  unfold build_tree in Hbuild. rewrite decide_False in Hbuild by lia.
  destruct (merge_loop _ _) as [st''|] eqn:Hloop; [|done]. simpl in Hbuild.
  destruct (interiors st'' !! _) as [root''|] eqn:Hroot; [|done].
  simpl in Hbuild. injection Hbuild as -> ->.
  rewrite pq_size_elems in Hone.
  destruct (pq_elems (Q st)) as [|e [|??]] eqn:Hes; simplify_eq/=.
  destruct (inv_last _ _ _ _ Hinv) as [?|(e' & ->%list_elem_of_singleton & Hid & _)]; [lia|].
  exists e. rewrite Hid. split_and!; [done..|].
  unfold subtree, insert_or_retrieve_child. by rewrite Hid, Hroot.
Qed.
End ledger.

(** ** More about [build_encoding] *)

Section build_encoding_more.
Context `{Countable Value, HuffmanValue Value}.
Context `{PQ : !PriorityQueue (queue_entry Value) count}.
Implicit Types (histogram : gmap Value Z).

(** A table that [build_encoding] returns is the walk of the tree. *)
Lemma build_encoding_walk histogram encoding :
  build_encoding histogram = Ok encoding →
  ∃ st root,
    build_tree histogram = Ok (st, root) ∧ encoding = walk root ∧
    (2 ≤ size histogram)%nat ∧
    full_binary root ∧ NoDup (leaf_values root) ∧
    leaf_values root ≡ₚ (map_to_list histogram).*1 ∧
    S (interior_count root) = size histogram.
Proof.
  intros Hb. destruct (build_encoding_inv _ _ Hb) as (Hsize & _).
  destruct (build_tree_Ok histogram Hsize) as (st & root & Hbt & _ & _ & Hfull & Hlv & Hic).
  unfold build_encoding in Hb. rewrite Hbt in Hb. simpl in Hb. injection Hb as <-.
  exists st, root. split_and!; try done.
  by destruct (leaf_values_histogram histogram root Hlv).
Qed.

Lemma build_encoding_codeword_lengths_aux histogram encoding k c :
  build_encoding histogram = Ok encoding →
  encoding !! k = Some c →
  (1 ≤ length c ≤ size histogram - 1)%nat.
Proof.
  intros (st & root & _ & -> & Hsize & Hfull & Hnd & _ & Hic)%build_encoding_walk Hk.
  apply walk_lookup in Hk; [|done].
  destruct (codes_length root [] (k, c) Hfull Hk) as [Hle Hlt]. simpl in *. lia.
Qed.

(** X1. Every codeword of a table that [build_encoding] returns has at
    least one bit and at most one bit less than the histogram has entries. *)
Theorem build_encoding_codeword_lengths histogram encoding k c :
  build_encoding histogram = Ok encoding →
  encoding !! k = Some c →
  (1 ≤ length c ≤ size histogram - 1)%nat.
Proof. apply build_encoding_codeword_lengths_aux. Qed.

(** X2. The table is a complete prefix code: a bit sequence that is at
    least as long as the longest possible codeword starts with the codeword
    of exactly one symbol. *)
Theorem build_encoding_complete histogram encoding (bits : list bool) :
  build_encoding histogram = Ok encoding →
  (size histogram - 1 ≤ length bits)%nat →
  ∃ k c, encoding !! k = Some c ∧ c `prefix_of` bits ∧
    ∀ k' c', encoding !! k' = Some c' → c' `prefix_of` bits → k' = k.
Proof.
  intros Hb Hlen. destruct (build_encoding_inv _ _ Hb) as (_ & _ & Hpf).
  destruct (build_encoding_walk _ _ Hb)
    as (st & root & _ & -> & Hsize & Hfull & Hnd & _ & Hic).
  destruct (codes_complete root [] bits Hfull) as ([k c] & n & Hin & Hc); [lia|].
  simpl in Hc. subst c. apply walk_lookup in Hin; [|done].
  exists k, (take n bits). split_and!; [done|apply prefix_take|].
  intros k' c' Hk' Hc'. destruct (decide (k' = k)) as [|Hne]; [done|exfalso].
  destruct (prefix_weak_total c' (take n bits) bits Hc' (prefix_take _ _)) as [Hp|Hp].
  - by apply (Hpf k' k c' (take n bits)).
  - by apply (Hpf k k' (take n bits) c').
Qed.

(** X3. The leaves of the tree are the entries of the histogram, each with
    its count, and the count of the root is the sum of all counts as a
    [size_t]. *)
Theorem build_tree_root_count histogram st root :
  build_tree histogram = Ok (st, root) →
  leaf_entries root ≡ₚ map_to_list histogram ∧
  count (entry root) = wrap64 (total_count histogram).
Proof.
  intros (Hsize & Hmax & Hinv & Hled & e & Hes & Hid & _ & Hsub)%build_tree_final.
  destruct Hled as [_ Hent Hlv Hw Hwr]. rewrite Hes in *. csimpl in Hlv.
  rewrite app_nil_r, Hsub in Hlv. split; [done|].
  specialize (Hent e). specialize (Hw e). specialize (Hwr e).
  rewrite Hsub in Hent, Hw. rewrite Hent by set_solver.
  rewrite Hwr by (set_solver || lia). rewrite Hw by set_solver.
  unfold total_count. by rewrite Hlv.
Qed.

(** X4. When the merge loop has ended, the queue holds the entry of the
    root and nothing else, and [interiors] holds the root and nothing else:
    every other node has been handed over to its parent. *)
Theorem build_tree_final_state histogram st root :
  build_tree histogram = Ok (st, root) →
  pq_elems (Q st) = [entry root] ∧
  id (entry root) = (size histogram - 1)%nat ∧
  max_id st = size histogram ∧
  interiors st = {[ (size histogram - 1)%nat := root ]}.
Proof.
  intros (Hsize & Hmax & Hinv & Hled & e & Hes & Hid & Hroot & Hsub)%build_tree_final.
  destruct Hled as [Hown Hent _ _ _]. rewrite Hes in *.
  specialize (Hent e). rewrite Hsub in Hent. rewrite Hent by set_solver.
  rewrite Hmax in Hid. split_and!; [done..|].
  apply map_eq. intros k. destruct (decide (k = (size histogram - 1)%nat)) as [->|Hk].
  - by rewrite lookup_singleton_eq, <-Hid.
  - rewrite lookup_singleton_ne by done. apply eq_None_not_Some. intros Hsome.
    apply Hown in Hsome. csimpl in Hsome. apply list_elem_of_singleton in Hsome. lia.
Qed.
End build_encoding_more.

(** The table of three symbols: its lengths, and the bits 1, 1, 0. *)
Lemma build_encoding_codeword_lengths_witness :
  build_encoding (PQ:=list_pq count) hist_abc = Ok encoding_abc ∧
  encoding_abc !! 1 = Some [true; false] ∧
  (1 ≤ length [true; false] ≤ size hist_abc - 1)%nat.
Proof.
  assert (encoding_abc !! 1 = Some [true; false]) as Hk by reflexivity.
  assert (build_encoding (PQ:=list_pq count) hist_abc = Ok encoding_abc) as Hb
    by (vm_compute; reflexivity).
  split; [exact Hb|]. split; [exact Hk|].
  exact (build_encoding_codeword_lengths hist_abc encoding_abc 1 [true; false] Hb Hk).
Defined.

Lemma build_encoding_complete_witness :
  build_encoding (PQ:=list_pq count) hist_abc = Ok encoding_abc ∧
  (size hist_abc - 1 ≤ length [true; true; false])%nat ∧
  ∃ k c,
    encoding_abc !! k = Some c ∧
    c `prefix_of` [true; true; false] ∧
    ∀ k' c',
      encoding_abc !! k' = Some c' → c' `prefix_of` [true; true; false] → k' = k.
Proof.
  assert (size hist_abc - 1 ≤ length [true; true; false])%nat as Hlen
    by (vm_compute; lia).
  assert (build_encoding (PQ:=list_pq count) hist_abc = Ok encoding_abc) as Hb
    by (vm_compute; reflexivity).
  split; [exact Hb|]. split; [exact Hlen|].
  exact (build_encoding_complete hist_abc encoding_abc [true; true; false] Hb Hlen).
Defined.

Lemma build_tree_root_count_witness :
  ∃ st root,
    build_tree (PQ:=list_pq count) hist_abc = Ok (st, root) ∧
    leaf_entries root ≡ₚ map_to_list hist_abc ∧
    count (entry root) = wrap64 (total_count hist_abc).
Proof.
  destruct (build_tree (PQ:=list_pq count) hist_abc) as [[st root]|e] eqn:Hb;
    [|by vm_compute in Hb].
  exists st, root. split; [reflexivity|].
  exact (build_tree_root_count hist_abc st root Hb).
Defined.

Lemma build_tree_final_state_witness :
  ∃ st root,
    build_tree (PQ:=list_pq count) hist_abc = Ok (st, root) ∧
    pq_elems (Q st) = [entry root] ∧
    id (entry root) = (size hist_abc - 1)%nat ∧
    max_id st = size hist_abc ∧
    interiors st = {[ (size hist_abc - 1)%nat := root ]}.
Proof.
  destruct (build_tree (PQ:=list_pq count) hist_abc) as [[st root]|e] eqn:Hb;
    [|by vm_compute in Hb].
  exists st, root. split; [reflexivity|].
  exact (build_tree_final_state hist_abc st root Hb).
Defined.

(** ** The length limiting loop, step by step *)

Lemma total_count_delete `{Countable K} (m : gmap K Z) (k : K) :
  total_count (delete k m) = total_count m - count_at m k.
Proof.
  unfold total_count, count_at. destruct (m !! k) as [x|] eqn:Hk; simpl.
  - rewrite <-(map_to_list_delete m k x Hk). csimpl. lia.
  - rewrite delete_id by done. lia.
Qed.

Lemma total_count_insert `{Countable K} (m : gmap K Z) (k : K) (v : Z) :
  total_count (<[k := v]> m) = total_count m - count_at m k + v.
Proof.
  rewrite <-insert_delete_eq. unfold total_count at 1.
  rewrite map_to_list_insert by apply lookup_delete_eq. csimpl.
  fold (total_count (delete k m)). rewrite total_count_delete. lia.
Qed.

Lemma total_count_kmap_Some (hist : gmap Z Z) :
  total_count (kmap (M2:=gmap (option Z)) Some hist) = total_count hist.
Proof.
  unfold total_count.
  rewrite (map_to_list_kmap (M2:=gmap (option Z)) Some hist), <-list_fmap_compose.
  done.
Qed.

Lemma size_two `{Countable K} {V} (m : gmap K V) (k1 k2 : K) :
  is_Some (m !! k1) → is_Some (m !! k2) → k1 ≠ k2 → (2 ≤ size m)%nat.
Proof.
  intros [v1 H1] [v2 H2] Hne.
  rewrite <-(insert_id m k1 v1 H1), <-insert_delete_eq.
  rewrite map_size_insert_None by apply lookup_delete_eq.
  assert (delete k1 m !! k2 = Some v2) as H2' by (by rewrite lookup_delete_ne).
  rewrite <-(insert_id _ k2 v2 H2'), <-insert_delete_eq.
  rewrite map_size_insert_None by apply lookup_delete_eq. lia.
Qed.

Lemma merge_symbol_lookup_Some hist wh x s :
  merge_symbol hist wh x !! Some s = if decide (s = x) then None else wh !! Some s.
Proof.
  unfold merge_symbol. case_decide as Hs.
  - subst. apply lookup_delete_eq.
  - rewrite lookup_delete_ne by congruence. by rewrite lookup_insert_ne.
Qed.

Lemma merge_symbol_lookup_None hist wh x :
  merge_symbol hist wh x !! None
  = Some (wrap64 (count_at wh None + count_at hist x)).
Proof.
  unfold merge_symbol. rewrite lookup_delete_ne by done. by rewrite lookup_insert_eq.
Qed.

Lemma merge_symbol_total hist wh x :
  wh !! Some x = hist !! x →
  wrap64 (total_count (merge_symbol hist wh x)) = wrap64 (total_count wh).
Proof.
  intros Hx. unfold merge_symbol.
  rewrite total_count_delete, total_count_insert.
  assert (∀ v, count_at (<[None := v]> wh) (Some x) = count_at hist x) as ->.
  { intros v. unfold count_at. rewrite lookup_insert_ne by done. by rewrite Hx. }
  set (a := count_at wh None). set (b := count_at hist x). set (t := total_count wh).
  unfold wrap64.
  replace (t - a + (a + b) `mod` 2 ^ 64 - b) with ((a + b) `mod` 2 ^ 64 + (t - a - b)) by lia.
  rewrite Z.add_mod_idemp_l by done. f_equal. lia.
Qed.

Lemma working_hist_after_snoc hist ms x :
  working_hist_after hist (ms ++ [x])
  = merge_symbol hist (working_hist_after hist ms) x.
Proof. unfold working_hist_after. by rewrite foldl_app. Qed.

Lemma working_hist_after_lookup_Some hist ms s :
  working_hist_after hist ms !! Some s
  = if decide (s ∈ ms) then None else hist !! s.
Proof.
  induction ms as [|x ms IH] using rev_ind.
  - unfold working_hist_after. simpl. by rewrite lookup_kmap by apply _.
  - rewrite working_hist_after_snoc, merge_symbol_lookup_Some, IH.
    repeat case_decide; set_solver.
Qed.

Lemma working_hist_after_lookup_None hist ms :
  working_hist_after hist ms !! None
  = if decide (ms = []) then None
    else Some (wrap64 (sum_counts (count_at hist <$> ms))).
Proof.
  induction ms as [|x ms IH] using rev_ind.
  - unfold working_hist_after. simpl. apply lookup_kmap_None; [apply _|].
    intros ? [=].
  - rewrite working_hist_after_snoc, merge_symbol_lookup_None.
    rewrite decide_False by (by destruct ms). f_equal.
    rewrite fmap_app, sum_counts_app. simpl. rewrite Z.add_0_r.
    unfold count_at at 1. rewrite IH. case_decide as Hms.
    + subst. done.
    + simpl. unfold wrap64. by rewrite Z.add_mod_idemp_l.
Qed.

Lemma working_hist_after_total hist ms :
  NoDup ms →
  wrap64 (total_count (working_hist_after hist ms)) = wrap64 (total_count hist).
Proof.
  induction ms as [|x ms IH] using rev_ind; intros Hnd.
  - unfold working_hist_after. simpl. by rewrite total_count_kmap_Some.
  - apply NoDup_app in Hnd as (Hnd & Hx & _).
    rewrite working_hist_after_snoc, merge_symbol_total; [by apply IH|].
    rewrite working_hist_after_lookup_Some, decide_False; [done|].
    intros Hin. apply (Hx _ Hin). by left.
Qed.

Section length_limit_more.
Context `{PQ : !PriorityQueue (queue_entry (option Z)) count}.

Lemma limiter_loop_cons hist L s symbols wh enc :
  limiter_loop hist L (s :: symbols) wh enc =
    match build_encoding (merge_symbol hist wh s) with
    | Err invalid_argument => Err runtime_error
    | Err e => Err e
    | Ok encoding' =>
        if decide (max_length encoding' ≤ L)%nat
        then Ok (encoding', merge_symbol hist wh s)
        else limiter_loop hist L symbols (merge_symbol hist wh s) encoding'
    end.
Proof. reflexivity. Qed.

(** The loop stops at the first table that fits, or when the symbols run
    out. *)
Lemma limiter_loop_first_fit hist L symbols wh enc enc' wh' :
  limiter_loop hist L symbols wh enc = Ok (enc', wh') →
  symbols ≠ [] →
  ∃ k, (1 ≤ k ≤ length symbols)%nat ∧
    wh' = foldl (merge_symbol hist) wh (take k symbols) ∧
    build_encoding wh' = Ok enc' ∧
    ∀ j, (1 ≤ j < k)%nat → ∃ enc_j,
      build_encoding (foldl (merge_symbol hist) wh (take j symbols)) = Ok enc_j ∧
      (L < max_length enc_j)%nat.
Proof.
  revert wh enc. induction symbols as [|s rest IH]; intros wh enc Hloop Hne; [done|].
  rewrite limiter_loop_cons in Hloop.
  destruct (build_encoding (merge_symbol hist wh s)) as [e2|[]] eqn:Hb; try done.
  case_decide as Hfit.
  - injection Hloop as <- <-. exists 1%nat. simpl. rewrite ?take_0. simpl.
    split_and!; [lia|lia|done|done|]. intros j Hj. lia.
  - destruct rest as [|s' rest'].
    + simpl in Hloop. injection Hloop as <- <-. exists 1%nat. simpl.
      split_and!; [lia|lia|done|done|]. intros j Hj. lia.
    + destruct (IH _ _ Hloop) as (k & Hk & Hwh & Hb' & Hless); [done|].
      exists (S k). split_and!; [lia|simpl in *; lia|done|done|].
      intros j Hj. destruct j as [|[|j]]; [lia|..].
      * exists e2. simpl. rewrite ?take_0. simpl. split; [done|lia].
      * destruct (Hless (S j)) as (enc_j & ? & ?); [lia|]. by exists enc_j.
Qed.

(** With two symbols or more left, a working histogram that holds them, and
    a budget of one bit or more, the loop ends with a table. *)
Lemma limiter_loop_Ok hist L symbols wh enc :
  NoDup symbols →
  (∀ s, s ∈ symbols → is_Some (wh !! Some s)) →
  dom wh ⊆ {[None]} ∪ list_to_set (Some <$> symbols) →
  (1 ≤ L)%nat → (2 ≤ length symbols)%nat →
  ∃ r, limiter_loop hist L symbols wh enc = Ok r.
Proof.
  revert wh enc. induction symbols as [|s rest IH]; intros wh enc Hnd Hin Hdom HL Hlen;
    [simpl in Hlen; lia|].
  apply NoDup_cons in Hnd as [Hs Hnd]. rewrite limiter_loop_cons.
  set (wh2 := merge_symbol hist wh s).
  assert (∀ x, x ∈ rest → is_Some (wh2 !! Some x)) as Hin2.
  { intros x Hx. unfold wh2. rewrite merge_symbol_lookup_Some.
    rewrite decide_False by (intros ->; done). apply Hin. by right. }
  assert (dom wh2 ⊆ {[None]} ∪ list_to_set (Some <$> rest)) as Hdom2.
  { intros k Hk. apply elem_of_dom in Hk. destruct k as [x|]; [|set_solver].
    unfold wh2 in Hk. rewrite merge_symbol_lookup_Some in Hk.
    case_decide; [by destruct Hk|]. apply elem_of_dom in Hk. apply Hdom in Hk.
    csimpl in Hk. set_solver. }
  destruct rest as [|s' rest']; [simpl in Hlen; lia|].
  assert (2 ≤ size wh2)%nat as Hsize.
  { apply (size_two wh2 None (Some s')); [|apply Hin2; by left|done].
    unfold wh2. by rewrite merge_symbol_lookup_None. }
  destruct (build_encoding_Ok wh2 Hsize) as (e2 & Hb & _). rewrite Hb.
  case_decide as Hfit; [by eexists|].
  destruct rest' as [|s'' rest''].
  - exfalso. apply Hfit. apply max_length_le. intros k c Hk.
    assert (size wh2 ≤ 2)%nat as Hle.
    { rewrite <-(size_dom (D:=gset (option Z)) wh2).
      pose proof (subseteq_size (C:=gset (option Z)) _ _ Hdom2) as Hsz.
      replace ({[None]} ∪ list_to_set (Some <$> [s']) : gset (option Z))
        with ({[None]} ∪ {[Some s']} : gset (option Z)) in Hsz by set_solver.
      rewrite size_union in Hsz by set_solver.
      by rewrite !size_singleton in Hsz. }
    pose proof (build_encoding_codeword_lengths_aux wh2 e2 k c Hb Hk). lia.
  - apply IH; [done|done|done|done|simpl; lia].
Qed.

Lemma symbols_keys (hist : gmap Z Z) (symbols : list Z) :
  symbols ≡ₚ (map_to_list hist).*1 →
  NoDup symbols ∧ (∀ s, s ∈ symbols ↔ is_Some (hist !! s)) ∧
  length symbols = size hist.
Proof.
  intros Hp. split_and!.
  - rewrite Hp. apply NoDup_fst_map_to_list.
  - intros s. rewrite Hp, list_elem_of_fmap. split.
    + intros ([k v] & -> & Hin). apply elem_of_map_to_list in Hin. by exists v.
    + intros [v Hv]. exists (s, v). split; [done|]. by apply elem_of_map_to_list.
  - by rewrite Hp, length_fmap, length_map_to_list.
Qed.

Lemma size_only_None {V} (m : gmap (option Z) V) :
  (∀ s, m !! Some s = None) → (size m ≤ 1)%nat.
Proof.
  intros Hm. rewrite <-(size_dom (D:=gset (option Z)) m).
  assert (dom m ⊆ ({[None]} : gset (option Z))) as Hsub.
  { intros [s|] Hk; [|set_solver]. apply elem_of_dom in Hk. rewrite Hm in Hk.
    by destruct Hk. }
  pose proof (subseteq_size (C:=gset (option Z)) _ _ Hsub) as Hsz.
  by rewrite size_singleton in Hsz.
Qed.

Lemma working_hist_after_all hist symbols :
  symbols ≡ₚ (map_to_list hist).*1 →
  (size (working_hist_after hist symbols) ≤ 1)%nat.
Proof.
  intros (_ & Hin & _)%symbols_keys. apply size_only_None. intros s.
  rewrite working_hist_after_lookup_Some. case_decide as Hs; [done|].
  apply eq_None_not_Some. by rewrite <-Hin.
Qed.

(** The result of the loop for the sorted symbols of a histogram that is
    not empty: some [k] symbols are merged, fewer than there are, the table
    is the one of the working histogram and fits the budget, and the table
    after any smaller number of merges does not fit. *)
Lemma build_length_limited_inv hist L symbols enc wh :
  least_to_most_probable hist symbols →
  build_length_limited hist L symbols = Ok (enc, wh) →
  symbols ≠ [] →
  ∃ k, (1 ≤ k < length symbols)%nat ∧
    wh = working_hist_after hist (take k symbols) ∧
    build_encoding wh = Ok enc ∧
    (max_length enc ≤ L)%nat ∧
    ∀ j, (1 ≤ j < k)%nat → ∃ enc_j,
      build_encoding (working_hist_after hist (take j symbols)) = Ok enc_j ∧
      (L < max_length enc_j)%nat.
Proof.
  intros [Hperm _] Hloop Hne. unfold build_length_limited in Hloop.
  destruct (limiter_loop_first_fit _ _ _ _ _ _ _ Hloop Hne)
    as (k & Hk & Hwh & Hb & Hless).
  exists k. fold (working_hist_after hist (take k symbols)) in Hwh.
  split_and!; [lia| |done|done| |done].
  - destruct (decide (k = length symbols)) as [->|]; [exfalso|lia].
    rewrite firstn_all in Hwh. subst wh.
    destruct (build_encoding_inv _ _ Hb) as (Hsize & _).
    pose proof (working_hist_after_all hist symbols Hperm). lia.
  - pose proof (limiter_loop_within hist L symbols (kmap Some hist) ∅) as Hw.
    rewrite Hloop in Hw. apply Hw; [|done].
    rewrite (dom_kmap_Some_symbols hist symbols Hperm). set_solver.
Qed.

(** X5. The length limiting loop stops at the first table that fits: for
    the sorted symbols of a histogram that is not empty it returns the table
    of the working histogram after merging the first [k] symbols, this table
    fits the budget, and after any smaller number of merges the table was
    longer than the budget. *)
Theorem build_length_limited_first_fit hist L symbols enc wh :
  least_to_most_probable hist symbols →
  build_length_limited hist L symbols = Ok (enc, wh) →
  symbols ≠ [] →
  ∃ k, (1 ≤ k < length symbols)%nat ∧
    wh = working_hist_after hist (take k symbols) ∧
    build_encoding wh = Ok enc ∧
    (max_length enc ≤ L)%nat ∧
    ∀ j, (1 ≤ j < k)%nat → ∃ enc_j,
      build_encoding (working_hist_after hist (take j symbols)) = Ok enc_j ∧
      (L < max_length enc_j)%nat.
Proof. apply build_length_limited_inv. Qed.

(** X6. What the working histogram holds when the loop has ended: the
    merged symbols are a prefix of the sorted symbols, so none of them is
    more frequent than a symbol that is kept; their entries are gone and
    their counts are pooled, as a [size_t], in the entry of [std::nullopt];
    every other entry is as in the histogram; the sum of all counts is the
    same as a [size_t]; and the table has a codeword for exactly the keys
    of the working histogram. *)
Theorem build_length_limited_working_hist hist L symbols enc wh :
  least_to_most_probable hist symbols →
  build_length_limited hist L symbols = Ok (enc, wh) →
  symbols ≠ [] →
  ∃ merged_symbols kept_symbols,
    symbols = merged_symbols ++ kept_symbols ∧
    merged_symbols ≠ [] ∧ kept_symbols ≠ [] ∧
    (∀ s s', s ∈ merged_symbols → s' ∈ kept_symbols →
       count_at hist s ≤ count_at hist s') ∧
    wh !! None = Some (wrap64 (sum_counts (count_at hist <$> merged_symbols))) ∧
    (∀ s, s ∈ merged_symbols → wh !! Some s = None) ∧
    (∀ s, s ∉ merged_symbols → wh !! Some s = hist !! s) ∧
    wrap64 (total_count wh) = wrap64 (total_count hist) ∧
    dom enc = dom wh.
Proof.
  intros Hsorted Hloop Hne.
  destruct (build_length_limited_inv _ _ _ _ _ Hsorted Hloop Hne)
    as (k & Hk & -> & Hb & _ & _).
  destruct Hsorted as [Hperm Hsort].
  destruct (symbols_keys hist symbols Hperm) as (Hnd & _ & _).
  exists (take k symbols), (drop k symbols).
  rewrite <-(take_drop k symbols) in Hsort, Hnd.
  split_and!.
  - by rewrite take_drop.
  - intros Ht. apply (f_equal length) in Ht. rewrite length_take in Ht. simpl in Ht. lia.
  - intros Ht. apply (f_equal length) in Ht. rewrite length_drop in Ht. simpl in Ht. lia.
  - intros s s' Hs Hs'.
    pose proof (StronglySorted_app_1_elem_of _ _ _ _ _ Hsort Hs Hs') as Hna.
    unfold not_after, sort_comp in Hna. apply bool_decide_eq_false in Hna. lia.
  - rewrite working_hist_after_lookup_None. rewrite decide_False; [done|].
    intros Ht. apply (f_equal length) in Ht. rewrite length_take in Ht. simpl in Ht. lia.
  - intros s Hs. rewrite working_hist_after_lookup_Some. by rewrite decide_True.
  - intros s Hs. rewrite working_hist_after_lookup_Some. by rewrite decide_False.
  - apply working_hist_after_total. by apply NoDup_app in Hnd as (? & _).
  - by destruct (build_encoding_inv _ _ Hb) as (_ & ? & _).
Qed.

(** X7. When the length limiting loop fails: for the sorted symbols of a
    histogram and a budget of one bit or more, an empty histogram leaves the
    empty table, a histogram of one symbol ends in [std::runtime_error], and
    a histogram of two symbols or more always gives a table. *)
Theorem build_length_limited_outcome hist L symbols :
  least_to_most_probable hist symbols →
  (1 ≤ L)%nat →
  (size hist = 0%nat → build_length_limited hist L symbols = Ok (∅, ∅)) ∧
  (size hist = 1%nat → build_length_limited hist L symbols = Err runtime_error) ∧
  ((2 ≤ size hist)%nat →
   ∃ enc wh, build_length_limited hist L symbols = Ok (enc, wh)).
Proof.
  intros [Hperm _] HL.
  destruct (symbols_keys hist symbols Hperm) as (Hnd & Hin & Hlen).
  pose proof (dom_kmap_Some_symbols hist symbols Hperm) as Hdom.
  unfold build_length_limited. split_and!.
  - intros Hsize. rewrite Hsize in Hlen. apply nil_length_inv in Hlen. subst symbols.
    apply map_size_empty_iff in Hsize. subst hist. simpl. by rewrite kmap_empty.
  - intros Hsize. rewrite Hsize in Hlen.
    pose proof (limiter_loop_within hist L symbols (kmap Some hist) ∅) as Hw.
    destruct (limiter_loop _ _ _ _ _) as [[enc wh]|e] eqn:Hloop.
    + exfalso. destruct (limiter_loop_first_fit _ _ _ _ _ _ _ Hloop)
        as (k & Hk & Hwh & Hb & _); [by destruct symbols|].
      assert (k = length symbols) as -> by lia. rewrite firstn_all in Hwh.
      fold (working_hist_after hist symbols) in Hwh. subst wh.
      destruct (build_encoding_inv _ _ Hb) as (Hsize' & _).
      pose proof (working_hist_after_all hist symbols Hperm). lia.
    + f_equal. apply Hw; [rewrite Hdom; set_solver|by destruct symbols].
  - intros Hsize.
    destruct (limiter_loop_Ok hist L symbols (kmap Some hist) ∅) as [[enc wh] Hr];
      [done| |rewrite Hdom; set_solver|done|lia|by exists enc, wh].
    intros s Hs. rewrite lookup_kmap by apply _. by apply Hin.
Qed.
End length_limit_more.

(** The first fit on the data of [main]: three symbols are merged. *)
Lemma build_length_limited_first_fit_witness :
  least_to_most_probable hist_main (symbols_least_to_most_probable hist_main) ∧
  build_length_limited (PQ:=list_pq count) hist_main allowed_length_main
    (symbols_least_to_most_probable hist_main)
    = Ok (encoding_main, working_hist_main) ∧
  symbols_least_to_most_probable hist_main ≠ [] ∧
  ∃ k, (1 ≤ k < length (symbols_least_to_most_probable hist_main))%nat ∧
    working_hist_main
      = working_hist_after hist_main (take k (symbols_least_to_most_probable hist_main)) ∧
    build_encoding (PQ:=list_pq count) working_hist_main = Ok encoding_main ∧
    (max_length encoding_main ≤ allowed_length_main)%nat ∧
    ∀ j, (1 ≤ j < k)%nat → ∃ enc_j,
      build_encoding (PQ:=list_pq count)
        (working_hist_after hist_main
           (take j (symbols_least_to_most_probable hist_main))) = Ok enc_j ∧
      (allowed_length_main < max_length enc_j)%nat.
Proof.
  assert (build_length_limited (PQ:=list_pq count) hist_main allowed_length_main
            (symbols_least_to_most_probable hist_main)
          = Ok (encoding_main, working_hist_main)) as Hl by (by vm_compute).
  assert (symbols_least_to_most_probable hist_main ≠ []) as Hne by (by vm_compute).
  split; [apply symbols_least_to_most_probable_spec|]. split; [done|]. split; [done|].
  exact (build_length_limited_first_fit hist_main allowed_length_main _ _ _
           (symbols_least_to_most_probable_spec hist_main) Hl Hne).
Defined.

(** The working histogram of [main]: 5, -5 and 4 are pooled. *)
Lemma build_length_limited_working_hist_witness :
  least_to_most_probable hist_main (symbols_least_to_most_probable hist_main) ∧
  build_length_limited (PQ:=list_pq count) hist_main allowed_length_main
    (symbols_least_to_most_probable hist_main)
    = Ok (encoding_main, working_hist_main) ∧
  symbols_least_to_most_probable hist_main ≠ [] ∧
  ∃ merged_symbols kept_symbols,
    symbols_least_to_most_probable hist_main = merged_symbols ++ kept_symbols ∧
    merged_symbols ≠ [] ∧ kept_symbols ≠ [] ∧
    (∀ s s', s ∈ merged_symbols → s' ∈ kept_symbols →
       count_at hist_main s ≤ count_at hist_main s') ∧
    working_hist_main !! None
      = Some (wrap64 (sum_counts (count_at hist_main <$> merged_symbols))) ∧
    (∀ s, s ∈ merged_symbols → working_hist_main !! Some s = None) ∧
    (∀ s, s ∉ merged_symbols → working_hist_main !! Some s = hist_main !! s) ∧
    wrap64 (total_count working_hist_main) = wrap64 (total_count hist_main) ∧
    dom encoding_main = dom working_hist_main.
Proof.
  assert (build_length_limited (PQ:=list_pq count) hist_main allowed_length_main
            (symbols_least_to_most_probable hist_main)
          = Ok (encoding_main, working_hist_main)) as Hl by (by vm_compute).
  assert (symbols_least_to_most_probable hist_main ≠ []) as Hne by (by vm_compute).
  split; [apply symbols_least_to_most_probable_spec|]. split; [done|]. split; [done|].
  exact (build_length_limited_working_hist hist_main allowed_length_main _ _ _
           (symbols_least_to_most_probable_spec hist_main) Hl Hne).
Defined.

(** The three outcomes, for the histogram of one symbol. *)
Lemma build_length_limited_outcome_witness :
  least_to_most_probable hist_single (symbols_least_to_most_probable hist_single) ∧
  (1 ≤ 8)%nat ∧
  (size hist_single = 0%nat →
   build_length_limited (PQ:=list_pq count) hist_single 8
     (symbols_least_to_most_probable hist_single) = Ok (∅, ∅)) ∧
  (size hist_single = 1%nat →
   build_length_limited (PQ:=list_pq count) hist_single 8
     (symbols_least_to_most_probable hist_single) = Err runtime_error) ∧
  ((2 ≤ size hist_single)%nat →
   ∃ enc wh,
     build_length_limited (PQ:=list_pq count) hist_single 8
       (symbols_least_to_most_probable hist_single) = Ok (enc, wh)).
Proof.
  assert (1 ≤ 8)%nat as HL by lia.
  split; [apply symbols_least_to_most_probable_spec|]. split; [done|].
  exact (build_length_limited_outcome hist_single 8 _
           (symbols_least_to_most_probable_spec hist_single) HL).
Defined.

(** ** When the dense table can be built *)

Lemma comp_least_order :
  (∀ a, comp_least a a = false) ∧
  (∀ a b c, comp_least a b = true → comp_least b c = true → comp_least a c = true) ∧
  (∀ a b c, comp_least a c = true → comp_least a b = true ∨ comp_least b c = true).
Proof.
  split_and!.
  - intros [[a|] ?]; unfold comp_least; simpl; [|done].
    apply bool_decide_eq_false. lia.
  - intros [[a|] ?] [[b|] ?] [[c|] ?]; unfold comp_least; simpl; try done.
    rewrite !bool_decide_eq_true. lia.
  - intros [[a|] ?] [[b|] ?] [[c|] ?]; unfold comp_least; simpl; auto.
    rewrite !bool_decide_eq_true. lia.
Qed.

Lemma comp_greatest_order :
  (∀ a, comp_greatest a a = false) ∧
  (∀ a b c, comp_greatest a b = true → comp_greatest b c = true →
     comp_greatest a c = true) ∧
  (∀ a b c, comp_greatest a c = true →
     comp_greatest a b = true ∨ comp_greatest b c = true).
Proof.
  split_and!.
  - intros [[a|] ?]; unfold comp_greatest; simpl; [|done].
    apply bool_decide_eq_false. lia.
  - intros [[a|] ?] [[b|] ?] [[c|] ?]; unfold comp_greatest; simpl; try done.
    rewrite !bool_decide_eq_true. lia.
  - intros [[a|] ?] [[b|] ?] [[c|] ?]; unfold comp_greatest; simpl; auto.
    rewrite !bool_decide_eq_true. lia.
Qed.

(** The outcomes of [max_element(...)->first.value()] for a comparison that
    puts [std::nullopt] below every value. *)
Lemma non_null_value_cases
    (comp : option Z * list bool → option Z * list bool → bool)
    (encoding : gmap (option Z) (list bool)) :
  (∀ a, comp a a = false) →
  (∀ a b c, comp a b = true → comp b c = true → comp a c = true) →
  (∀ a b c, comp a c = true → comp a b = true ∨ comp b c = true) →
  (∀ c k c', comp (None, c) (Some k, c') = true) →
  match non_null_value comp encoding with
  | Ok v => is_Some (encoding !! Some v)
  | Err undefined_behavior => encoding = ∅
  | Err bad_optional_access => encoding ≠ ∅ ∧ ∀ k, encoding !! Some k = None
  | Err _ => False
  end.
Proof.
  intros Hirr Htrans Hneg Hnull. unfold non_null_value.
  destruct (max_element comp (map_to_list encoding)) as [[[v|] c]|] eqn:Hmax.
  - apply max_element_spec in Hmax as [Hin _]; [|done..].
    apply elem_of_map_to_list in Hin. by exists c.
  - apply max_element_spec in Hmax as [Hin Hmax]; [|done..]. split.
    + intros ->. by rewrite map_to_list_empty in Hin; apply elem_of_nil in Hin.
    + intros k. destruct (encoding !! Some k) as [c'|] eqn:Hk; [|done].
      apply elem_of_map_to_list in Hk. apply Hmax in Hk. by rewrite Hnull in Hk.
  - apply map_to_list_empty_iff. by destruct (map_to_list encoding).
Qed.

(** X8. When the dense table can be built from a table with [int32_t]
    keys: an empty table has no greatest element to dereference, a table
    that holds the escape codeword only has no value to read, for keys that
    span [2^31] or more the [int] difference overflows (it wraps to a
    negative size, which the vector constructor refuses), and in every other
    case the table is built with the least and the greatest key as its
    bounds. *)
Theorem materialize_outcome (encoding : gmap (option Z) (list bool)) :
  int32_keys encoding →
  match materialize encoding with
  | Ok d =>
      is_Some (encoding !! Some (least d)) ∧
      is_Some (encoding !! Some (greatest d)) ∧
      (∀ k, is_Some (encoding !! Some k) → least d ≤ k ≤ greatest d) ∧
      greatest d - least d < 2 ^ 31 ∧
      escape d = default [] (encoding !! None)
  | Err undefined_behavior => encoding = ∅
  | Err bad_optional_access => encoding ≠ ∅ ∧ ∀ k, encoding !! Some k = None
  | Err length_error =>
      ∃ l g, is_Some (encoding !! Some l) ∧ is_Some (encoding !! Some g) ∧
        2 ^ 31 ≤ g - l
  | Err _ => False
  end.
Proof.
  intros Hkeys.
  destruct comp_least_order as (Hl1 & Hl2 & Hl3).
  destruct comp_greatest_order as (Hg1 & Hg2 & Hg3).
  pose proof (non_null_value_cases comp_least encoding Hl1 Hl2 Hl3 (λ _ _ _, eq_refl))
    as Hleast.
  pose proof (non_null_value_cases comp_greatest encoding Hg1 Hg2 Hg3 (λ _ _ _, eq_refl))
    as Hgreatest.
  destruct (materialize encoding) as [d|e] eqn:Hm.
  - destruct (materialize_inv _ _ Hm) as (Hl & Hg & Hesc & Hpos & _).
    apply least_non_null_value_spec in Hl as [Hl Hmin].
    apply greatest_non_null_value_spec in Hg as [Hg Hmax].
    pose proof (Hkeys _ Hl) as Hl32. pose proof (Hkeys _ Hg) as Hg32.
    pose proof (Hmin _ Hg). unfold is_int32 in *.
    destruct (wrap32_spec (greatest d - least d)) as [Hw [k Hk]]. unfold is_int32 in Hw.
    assert (k = 0) as -> by lia. split_and!; [done|done| |lia|done].
    intros k Hk'. split; [by apply Hmin|by apply Hmax].
  - unfold materialize in Hm. fold (non_null_value comp_least encoding) in Hleast.
    unfold least_non_null_value, greatest_non_null_value in Hm.
    destruct (non_null_value comp_least encoding) as [l|el] eqn:Hl; simpl in Hm.
    + destruct (non_null_value comp_greatest encoding) as [g|eg] eqn:Hg; simpl in Hm.
      * unfold new_encoding_table in Hm. case_decide as Hneg; [|done].
        simpl in Hm. injection Hm as <-. exists l, g. split_and!; [done..|].
        apply least_non_null_value_spec in Hl as [_ Hmin].
        specialize (Hmin _ Hgreatest).
        pose proof (Hkeys _ Hleast) as Hl32. pose proof (Hkeys _ Hgreatest) as Hg32.
        unfold is_int32 in *.
        destruct (wrap32_spec (g - l)) as [Hw [k Hk]]. unfold is_int32 in Hw. lia.
      * injection Hm as <-. by destruct eg.
    + injection Hm as <-. by destruct el.
Qed.

(** The three failures: the empty table, a table with the escape codeword
    only, and a table whose keys are too far apart. *)
Lemma materialize_outcome_witness :
  int32_keys encoding_main ∧
  match materialize encoding_main with
  | Ok d =>
      is_Some (encoding_main !! Some (least d)) ∧
      is_Some (encoding_main !! Some (greatest d)) ∧
      (∀ k, is_Some (encoding_main !! Some k) → least d ≤ k ≤ greatest d) ∧
      greatest d - least d < 2 ^ 31 ∧
      escape d = default [] (encoding_main !! None)
  | Err undefined_behavior => encoding_main = ∅
  | Err bad_optional_access => encoding_main ≠ ∅ ∧ ∀ k, encoding_main !! Some k = None
  | Err length_error =>
      ∃ l g, is_Some (encoding_main !! Some l) ∧ is_Some (encoding_main !! Some g) ∧
        2 ^ 31 ≤ g - l
  | Err _ => False
  end.
Proof.
  assert (int32_keys encoding_main) as Hkeys.
  { apply int32_keys_Forall, (bool_decide_unpack _). by vm_compute. }
  split; [done|]. exact (materialize_outcome encoding_main Hkeys).
Defined.

Example materialize_failures :
  materialize ∅ = Err undefined_behavior ∧
  materialize {[None := [true]]} = Err bad_optional_access ∧
  materialize (list_to_map [(Some (-2 ^ 31), [false]); (Some (2 ^ 31 - 1), [true])])
    = Err length_error.
Proof. split_and!; by vm_compute. Qed.

(** ** Which symbols the encode loop escapes, and how long its output is *)

(** What [materialize] returns for a table of the length limiting loop. *)
Lemma materialize_facts (encoding : gmap (option Z) (list bool)) (d : dense_table) :
  int32_keys encoding →
  materialize encoding = Ok d →
  dense_range d ∧
  escape d = default [] (encoding !! None) ∧
  (∀ k, is_Some (encoding !! Some k) → least d ≤ k ≤ greatest d) ∧
  (∀ s, least d ≤ s < greatest d →
     encoding_table d !! Z.to_nat (s - least d) =
       Some (default (escape d) (encoding !! Some s))) ∧
  (∀ c, c ∈ escape d :: encoding_table d →
     c = default [] (encoding !! None) ∨ ∃ k, encoding !! Some k = Some c).
Proof.
  intros Hkeys Hm. destruct (materialize_range _ _ Hkeys Hm) as (Hrange & _ & _).
  destruct (materialize_inv _ _ Hm) as (Hl & Hg & Hesc & _ & _ & Hentries).
  apply least_non_null_value_spec in Hl as [_ Hmin].
  apply greatest_non_null_value_spec in Hg as [_ Hmax].
  split_and!; [done|done| | |].
  - intros k Hk. split; [by apply Hmin|by apply Hmax].
  - intros s Hs. rewrite (materialize_entry _ _ s Hkeys Hm Hs), Hesc.
    by destruct (encoding !! Some s).
  - intros c [->|Hc]%elem_of_cons; [by left|].
    apply list_elem_of_lookup in Hc as [i Hi].
    rewrite Hentries in Hi by (by eapply lookup_lt_Some). injection Hi as <-.
    unfold entry_of. destruct (encoding !! Some _) eqn:Hk; [right; by eexists|by left].
Qed.

(** X9. Which symbols are sent in band: the encoder escapes a symbol if and
    only if the table has no codeword for it or it is the greatest symbol of
    the table, and every other symbol is sent as its codeword. *)
Theorem encode_in_band (encoding : gmap (option Z) (list bool)) (d : dense_table)
    (s : Z) :
  prefix_free encoding →
  is_Some (encoding !! None) →
  int32_keys encoding →
  materialize encoding = Ok d →
  is_int32 s →
  (escaped d s ↔ encoding !! Some s = None ∨ s = greatest d) ∧
  (¬ escaped d s → encoding !! Some s = Some (codeword d s)).
Proof.
  intros Hpf [c0 Hc0] Hkeys Hm Hs.
  destruct (materialize_facts _ _ Hkeys Hm) as (Hrange & Hesc & Hbounds & Hentry & _).
  rewrite Hc0 in Hesc. simpl in Hesc.
  destruct Hrange as [_ _ Hlen _].
  assert (∀ c, encoding !! Some s = Some c → c ≠ escape d) as Hne.
  { intros c Hc Heq. apply (Hpf (Some s) None c c0 Hc Hc0); [done|].
    by rewrite Heq, Hesc. }
  assert (escaped d s ↔ encoding !! Some s = None ∨ s = greatest d) as Hiff.
  { unfold escaped. rewrite Hlen. split.
    - intros Hesc'. destruct (encoding !! Some s) as [c|] eqn:Hc; [right|by left].
      destruct (Hbounds s) as [? ?]; [by eexists|].
      destruct (decide (s = greatest d)) as [|Hsg]; [done|exfalso].
      destruct Hesc' as [?|[?|Ht]]; [lia|lia|].
      rewrite Hentry, Hc in Ht by lia. simpl in Ht. injection Ht as ->. by eapply Hne.
    - intros [Hnone| ->]; [|right; left; lia].
      destruct (decide (least d ≤ s < greatest d)) as [Hin|Hout].
      + right. right. by rewrite Hentry, Hnone by done.
      + destruct (decide (s - least d < 0)); [by left|right; left; lia]. }
  split; [done|]. intros Hnot. unfold codeword. rewrite decide_False by done.
  assert (least d ≤ s < greatest d) as Hin.
  { unfold escaped in Hnot. rewrite Hlen in Hnot. lia. }
  rewrite Hentry by done. simpl.
  destruct (encoding !! Some s) as [c|] eqn:Hc; [done|].
  exfalso. apply Hnot, Hiff. by left.
Qed.

Lemma encode_in_band_witness :
  prefix_free encoding_main ∧
  is_Some (encoding_main !! None) ∧
  int32_keys encoding_main ∧
  materialize encoding_main = Ok dense_main ∧
  is_int32 2 ∧
  (escaped dense_main 2 ↔ encoding_main !! Some 2 = None ∨ 2 = greatest dense_main) ∧
  (¬ escaped dense_main 2 → encoding_main !! Some 2 = Some (codeword dense_main 2)).
Proof.
  assert (is_int32 2) as Hs by (unfold is_int32; lia).
  assert (map_Forall (λ k _, is_int32 k) hist_main) as Hhist.
  { apply map_Forall_to_list, (bool_decide_unpack _). by vm_compute. }
  assert (build_length_limited (PQ:=list_pq count) hist_main allowed_length_main
            (symbols_least_to_most_probable hist_main)
          = Ok (encoding_main, working_hist_main)) as Hl by (vm_compute; reflexivity).
  assert (materialize encoding_main = Ok dense_main) as Hm by (vm_compute; reflexivity).
  destruct (limited_table hist_main allowed_length_main _ _ _ _ Hhist Hl Hm)
    as (Hpf & Hnone & Hkeys).
  split; [exact Hpf|]. split; [exact Hnone|]. split; [exact Hkeys|].
  split; [exact Hm|]. split; [exact Hs|].
  exact (encode_in_band encoding_main dense_main 2 Hpf Hnone Hkeys Hm Hs).
Defined.

Lemma mjoin_length_bounds (cs : list (list bool)) (lo hi : nat) :
  Forall (λ c, lo ≤ length c ≤ hi)%nat cs →
  (lo * length cs ≤ length (mjoin cs) ≤ hi * length cs)%nat.
Proof.
  induction 1 as [|c cs Hc _ IH]; simpl; [lia|]. rewrite length_app. lia.
Qed.

Section budget.
Context `{PQ : !PriorityQueue (queue_entry (option Z)) count}.

(** X10. The size of the bitstream: with the table of the length limiting
    loop every symbol of the sequence, escaped or not, takes at least one
    bit and at most [allowed_length] bits, and the side channel holds at
    most one value per symbol. *)
Theorem encode_within_budget (hist : gmap Z Z) (L : nat) (symbols : list Z)
    (enc : gmap (option Z) (list bool)) (wh : gmap (option Z) Z)
    (d : dense_table) (sequence : list Z) :
  map_Forall (λ k _, is_int32 k) hist →
  least_to_most_probable hist symbols →
  build_length_limited hist L symbols = Ok (enc, wh) →
  materialize enc = Ok d →
  Forall is_int32 sequence →
  ∃ bits side,
    encode d sequence = Ok (bits, side) ∧
    (length sequence ≤ length bits ≤ L * length sequence)%nat ∧
    (length side ≤ length sequence)%nat.
Proof.
  intros Hhist Hsorted Hl Hm Hseq.
  destruct (limited_table hist L symbols enc wh d Hhist Hl Hm) as (Hpf & [c0 Hc0] & Hkeys).
  assert (symbols ≠ []) as Hne.
  { intros ->. injection Hl as <- <-. by vm_compute in Hm. }
  destruct (build_length_limited_inv _ _ _ _ _ Hsorted Hl Hne)
    as (k & _ & _ & Hb & Hfit & _).
  pose proof (materialize_ok enc d Hpf (ex_intro _ c0 Hc0) Hkeys Hm) as Hok.
  destruct (materialize_facts _ _ Hkeys Hm) as (Hrange & _ & _ & _ & Hcodes).
  unfold encode. rewrite encode_loop_spec by done. simpl.
  eexists _, _. split; [done|].
  rewrite max_length_le in Hfit. split.
  - rewrite <-(Nat.mul_1_l (length sequence)) at 1.
    rewrite <-(length_fmap (codeword d) sequence).
    apply mjoin_length_bounds, Forall_fmap, Forall_forall. intros s Hs. simpl.
    rewrite Forall_forall in Hseq.
    destruct (codeword_spec d s Hok (Hseq s Hs)) as (Hin & _).
    destruct (Hcodes _ Hin) as [Heq|[k' Hk']].
    + rewrite Hc0 in Heq. simpl in Heq. rewrite Heq.
      pose proof (build_encoding_codeword_lengths_aux _ _ _ _ Hb Hc0).
      pose proof (Hfit _ _ Hc0). lia.
    + pose proof (build_encoding_codeword_lengths_aux _ _ _ _ Hb Hk').
      pose proof (Hfit _ _ Hk'). lia.
  - apply length_filter.
Qed.
End budget.

Lemma encode_within_budget_witness :
  map_Forall (λ k _, is_int32 k) hist_main ∧
  least_to_most_probable hist_main (symbols_least_to_most_probable hist_main) ∧
  build_length_limited (PQ:=list_pq count) hist_main allowed_length_main
    (symbols_least_to_most_probable hist_main)
    = Ok (encoding_main, working_hist_main) ∧
  materialize encoding_main = Ok dense_main ∧
  Forall is_int32 sequence_main ∧
  ∃ bits side,
    encode dense_main sequence_main = Ok (bits, side) ∧
    (length sequence_main ≤ length bits ≤ allowed_length_main * length sequence_main)%nat ∧
    (length side ≤ length sequence_main)%nat.
Proof.
  assert (map_Forall (λ k _, is_int32 k) hist_main) as Hkeys.
  { apply map_Forall_to_list, (bool_decide_unpack _). by vm_compute. }
  assert (build_length_limited (PQ:=list_pq count) hist_main allowed_length_main
            (symbols_least_to_most_probable hist_main)
          = Ok (encoding_main, working_hist_main)) as Hl by (by vm_compute).
  assert (materialize encoding_main = Ok dense_main) as Hm by (by vm_compute).
  assert (Forall is_int32 sequence_main) as Hseq
    by (apply (bool_decide_unpack _); by vm_compute).
  split; [done|]. split; [apply symbols_least_to_most_probable_spec|].
  do 3 (split; [done|]).
  exact (encode_within_budget hist_main allowed_length_main _ _ _ _ _
           Hkeys (symbols_least_to_most_probable_spec hist_main) Hl Hm Hseq).
Defined.

(** ** Sequences in pieces *)

Lemma encode_step_acc (d : dense_table) (st : list bool * list Z) (i : Z) :
  encode_step d st i =
    ('(b, u) ←ᵣ encode_step d ([], []) i; Ok (st.1 ++ b, st.2 ++ u)).
Proof.
  unfold encode_step. simpl. repeat case_decide; simpl; try done.
  destruct (encoding_table d !! _); simpl; [|done].
  case_decide; simpl; [done|]. by rewrite app_nil_r.
Qed.

Lemma encode_loop_acc (d : dense_table) (sequence : list Z) (st : list bool * list Z) :
  encode_loop d sequence st =
    ('(b, u) ←ᵣ encode_loop d sequence ([], []); Ok (st.1 ++ b, st.2 ++ u)).
Proof.
  revert st. induction sequence as [|i sequence IH]; intros st; simpl.
  - destruct st. by rewrite !app_nil_r.
  - rewrite (encode_step_acc d st i).
    destruct (encode_step d ([], []) i) as [[b u]|e]; simpl; [|done].
    rewrite (IH (st.1 ++ b, st.2 ++ u)), (IH (b, u)).
    destruct (encode_loop d sequence ([], [])) as [[b' u']|e]; simpl; [|done].
    by rewrite !(assoc_L (++)).
Qed.

(** X11. Encoding in pieces: the bitstream and the side channel of a
    concatenation are the concatenations of those of the two parts, and a
    failure of a part is the failure of the whole. *)
Theorem encode_app (d : dense_table) (sequence1 sequence2 : list Z) :
  encode d (sequence1 ++ sequence2) =
    ('(bits1, side1) ←ᵣ encode d sequence1;
     '(bits2, side2) ←ᵣ encode d sequence2;
     Ok (bits1 ++ bits2, side1 ++ side2)).
Proof.
  assert (∀ st, encode_loop d (sequence1 ++ sequence2) st =
            (st' ←ᵣ encode_loop d sequence1 st; encode_loop d sequence2 st')) as Happ.
  { induction sequence1 as [|i sequence1 IH]; intros st; simpl; [done|].
    destruct (encode_step d st i) as [st'|e]; simpl; [apply IH|done]. }
  unfold encode. rewrite Happ.
  destruct (encode_loop d sequence1 ([], [])) as [[bits1 side1]|e]; simpl; [|done].
  rewrite (encode_loop_acc d sequence2 (bits1, side1)).
  by destruct (encode_loop d sequence2 ([], [])) as [[??]|].
Qed.

Lemma filter_split_at {A} (P : A → Prop) `{∀ x, Decision (P x)} (l : list A) (n : nat) :
  (n < length (filter P l))%nat →
  ∃ pre x post,
    l = pre ++ x :: post ∧ P x ∧ filter P pre = take n (filter P l).
Proof.
  revert n. induction l as [|y l IH]; intros n Hn; [simpl in Hn; lia|].
  destruct (decide (P y)) as [Hy|Hy].
  - rewrite filter_cons_True in Hn |- * by done. destruct n as [|n].
    + exists [], y, l. by rewrite take_0.
    + destruct (IH n) as (pre & x & post & -> & Hx & Hpre); [simpl in Hn; lia|].
      exists (y :: pre), x, post. split_and!; [done..|].
      rewrite filter_cons_True by done. simpl. by rewrite Hpre.
  - rewrite filter_cons_False in Hn |- * by done.
    destruct (IH n Hn) as (pre & x & post & -> & Hx & Hpre).
    exists (y :: pre), x, post. split_and!; [done..|].
    by rewrite filter_cons_False.
Qed.

Section streams.
Context `{PQ : !PriorityQueue (queue_entry (option Z)) count}.
Context (hist : gmap Z Z) (L : nat) (symbols : list Z).
Context (enc : gmap (option Z) (list bool)) (wh : gmap (option Z) Z).
Context (d : dense_table).
Context (Hhist : map_Forall (λ k _, is_int32 k) hist).
Context (Hlimit : build_length_limited hist L symbols = Ok (enc, wh)).
Context (Hdense : materialize enc = Ok d).

Lemma limited_dense_ok : dense_ok d.
Proof.
  destruct (limited_table hist L symbols enc wh d Hhist Hlimit Hdense)
    as (Hpf & Hnone & Hkeys).
  by apply (materialize_ok enc d).
Qed.

(** X12. The decoder works on line: the bits of the first part of a
    sequence decode to that part, with the side channel of the whole
    sequence and whatever bits follow for the rest. *)
Theorem decode_prefix (sequence1 sequence2 : list Z) :
  Forall is_int32 sequence1 → Forall is_int32 sequence2 →
  ∃ bits1 bits2 side1 side2,
    encode d sequence1 = Ok (bits1, side1) ∧
    encode d (sequence1 ++ sequence2) = Ok (bits1 ++ bits2, side1 ++ side2) ∧
    decode d bits1 (side1 ++ side2) = Ok (mk_decode sequence1 [] (length side1)) ∧
    decode d (bits1 ++ bits2) (side1 ++ side2)
      = Ok (mk_decode (sequence1 ++ sequence2) [] (length side1 + length side2)).
Proof.
  intros Hs1 Hs2. pose proof limited_dense_ok as Hok.
  pose proof (ok_range d Hok) as Hrange.
  exists (mjoin (codeword d <$> sequence1)), (mjoin (codeword d <$> sequence2)),
    (filter (escaped d) sequence1), (filter (escaped d) sequence2).
  unfold encode. rewrite !encode_loop_spec by (done || by apply Forall_app).
  simpl. rewrite fmap_app, join_app, filter_app. split_and!; [done|done| |].
  - unfold decode.
    pose proof (decode_loop_encoded d sequence1 [] (filter (escaped d) sequence2) [] []
                  Hok Hs1) as Hdec.
    simpl in Hdec. rewrite app_nil_r in Hdec. by rewrite Hdec.
  - unfold decode. rewrite decode_loop_app.
    pose proof (decode_loop_encoded d sequence1 [] (filter (escaped d) sequence2) [] []
                  Hok Hs1) as Hdec.
    simpl in Hdec. rewrite app_nil_r in Hdec. rewrite Hdec. simpl.
    pose proof (decode_loop_encoded d sequence2 (filter (escaped d) sequence1) [] []
                  sequence1 Hok Hs2) as Hdec2.
    simpl in Hdec2. rewrite !app_nil_r in Hdec2. by rewrite Hdec2.
Qed.

(** X13. A side channel that is too short: when the decoder is given fewer
    unpredictable values than the sequence has escaped symbols, it reads
    [unpredictable] past its end at the first escape codeword that has no
    value left, which is undefined. *)
Theorem decode_side_channel_too_short (sequence : list Z) (bits : list bool)
    (side : list Z) (n : nat) :
  Forall is_int32 sequence →
  encode d sequence = Ok (bits, side) →
  (n < length side)%nat →
  decode d bits (take n side) = Err undefined_behavior.
Proof.
  intros Hseq Henc Hn. pose proof limited_dense_ok as Hok.
  pose proof (ok_range d Hok) as Hrange.
  unfold encode in Henc. rewrite encode_loop_spec in Henc by done.
  simpl in Henc. injection Henc as <- <-.
  destruct (filter_split_at (escaped d) sequence n Hn)
    as (pre & s & post & -> & Hs & Hpre).
  rewrite <-Hpre. apply Forall_app in Hseq as [Hpre32 [Hs32 _]%Forall_cons].
  rewrite fmap_app, join_app. csimpl. unfold decode.
  pose proof (decode_loop_encoded d pre [] [] (codeword d s ++ mjoin (codeword d <$> post))
                [] Hok Hpre32) as Hdec.
  simpl in Hdec. rewrite app_nil_r in Hdec. rewrite Hdec. clear Hdec.
  destruct (codeword_spec d s Hok Hs32) as (Hin & Hne & idx & Hidx & Hesc & _).
  rewrite (decode_loop_codeword d Hok _ (codeword d s) [] _ _ idx); [|done..].
  simpl. unfold on_match. rewrite decide_False; [|intros Hneq; apply Hneq; by apply Hesc].
  simpl. by rewrite lookup_ge_None_2.
Qed.
End streams.

Lemma decode_prefix_witness :
  map_Forall (λ k _, is_int32 k) hist_main ∧
  build_length_limited (PQ:=list_pq count) hist_main allowed_length_main
    (symbols_least_to_most_probable hist_main)
    = Ok (encoding_main, working_hist_main) ∧
  materialize encoding_main = Ok dense_main ∧
  Forall is_int32 [-5; 0; 1] ∧ Forall is_int32 [3; 2] ∧
  ∃ bits1 bits2 side1 side2,
    encode dense_main [-5; 0; 1] = Ok (bits1, side1) ∧
    encode dense_main ([-5; 0; 1] ++ [3; 2]) = Ok (bits1 ++ bits2, side1 ++ side2) ∧
    decode dense_main bits1 (side1 ++ side2)
      = Ok (mk_decode [-5; 0; 1] [] (length side1)) ∧
    decode dense_main (bits1 ++ bits2) (side1 ++ side2)
      = Ok (mk_decode ([-5; 0; 1] ++ [3; 2]) [] (length side1 + length side2)).
Proof.
  assert (Forall is_int32 [-5; 0; 1]) as Hs1
    by (apply (bool_decide_unpack _); vm_compute; reflexivity).
  assert (Forall is_int32 [3; 2]) as Hs2
    by (apply (bool_decide_unpack _); vm_compute; reflexivity).
  assert (map_Forall (λ k _, is_int32 k) hist_main) as Hkeys.
  { apply map_Forall_to_list, (bool_decide_unpack _). vm_compute. reflexivity. }
  assert (build_length_limited (PQ:=list_pq count) hist_main allowed_length_main
            (symbols_least_to_most_probable hist_main)
          = Ok (encoding_main, working_hist_main)) as Hl by (vm_compute; reflexivity).
  assert (materialize encoding_main = Ok dense_main) as Hm by (vm_compute; reflexivity).
  split; [exact Hkeys|]. split; [exact Hl|]. split; [exact Hm|].
  split; [exact Hs1|]. split; [exact Hs2|].
  exact (decode_prefix hist_main allowed_length_main _ _ _ _ Hkeys Hl Hm _ _ Hs1 Hs2).
Defined.

Lemma decode_side_channel_too_short_witness :
  map_Forall (λ k _, is_int32 k) hist_main ∧
  build_length_limited (PQ:=list_pq count) hist_main allowed_length_main
    (symbols_least_to_most_probable hist_main)
    = Ok (encoding_main, working_hist_main) ∧
  materialize encoding_main = Ok dense_main ∧
  Forall is_int32 sequence_main ∧
  encode dense_main sequence_main = Ok (encoded_sequence_main, [-5; 3; 4; 5]) ∧
  (3 < length [-5; 3; 4; 5]%Z)%nat ∧
  decode dense_main encoded_sequence_main (take 3 [-5; 3; 4; 5])
    = Err undefined_behavior.
Proof.
  assert (3 < length [-5; 3; 4; 5]%Z)%nat as Hn by (simpl; lia).
  assert (Forall is_int32 sequence_main) as Hseq
    by (apply (bool_decide_unpack _); vm_compute; reflexivity).
  assert (map_Forall (λ k _, is_int32 k) hist_main) as Hkeys.
  { apply map_Forall_to_list, (bool_decide_unpack _). vm_compute. reflexivity. }
  assert (encode dense_main sequence_main = Ok (encoded_sequence_main, [-5; 3; 4; 5]))
    as He by (vm_compute; reflexivity).
  assert (build_length_limited (PQ:=list_pq count) hist_main allowed_length_main
            (symbols_least_to_most_probable hist_main)
          = Ok (encoding_main, working_hist_main)) as Hl by (vm_compute; reflexivity).
  assert (materialize encoding_main = Ok dense_main) as Hm by (vm_compute; reflexivity).
  split; [exact Hkeys|]. split; [exact Hl|]. split; [exact Hm|].
  split; [exact Hseq|]. split; [exact He|]. split; [exact Hn|].
  exact (decode_side_channel_too_short hist_main allowed_length_main _ _ _ _
           Hkeys Hl Hm _ _ _ 3%nat Hseq He Hn).
Defined.

(** ** The first stages of huffman_code.cc *)

Lemma count_at_insert `{Countable K} (m : gmap K Z) (k k' : K) (v : Z) :
  count_at (<[k := v]> m) k' = if decide (k' = k) then v else count_at m k'.
Proof.
  unfold count_at. case_decide as Hk.
  - subst. by rewrite lookup_insert_eq.
  - by rewrite lookup_insert_ne.
Qed.

Lemma occurrences_snoc (v x : Z) (values : list Z) :
  occurrences v (values ++ [x])
  = occurrences v values + (if decide (v = x) then 1 else 0).
Proof.
  unfold occurrences. rewrite filter_app, length_app.
  rewrite filter_cons, filter_nil.
  destruct (decide (x = v)), (decide (v = x)); simpl; try done; lia.
Qed.

Lemma occurrences_bounds (v : Z) (values : list Z) :
  0 ≤ occurrences v values ≤ Z.of_nat (length values).
Proof. unfold occurrences. pose proof (length_filter (λ x, x = v) values). lia. Qed.

Lemma make_histogram_snoc (values : list Z) (x : Z) :
  make_histogram (values ++ [x]) = count_value (make_histogram values) x.
Proof. unfold make_histogram. by rewrite foldl_app. Qed.

Lemma make_histogram_count_at (values : list Z) (v : Z) :
  count_at (make_histogram values) v = wrap64 (occurrences v values).
Proof.
  induction values as [|x values IH] using rev_ind; [done|].
  rewrite make_histogram_snoc, occurrences_snoc. unfold count_value.
  rewrite count_at_insert. case_decide as Hv.
  - subst. rewrite IH. unfold wrap64. by rewrite Z.add_mod_idemp_l.
  - by rewrite IH, Z.add_0_r.
Qed.

Lemma make_histogram_dom (values : list Z) :
  dom (make_histogram values) = list_to_set values.
Proof.
  induction values as [|x values IH] using rev_ind.
  { unfold make_histogram. simpl. by rewrite dom_empty_L. }
  rewrite make_histogram_snoc. unfold count_value.
  rewrite dom_insert_L, IH, list_to_set_app_L. set_solver.
Qed.

(** X14. Stage 1 of huffman_code.cc counts: for fewer than [2^64] values
    the histogram has an entry for exactly the values that occur, the count
    of a value is the number of its occurrences, and the counts add up to the
    number of values. *)
Theorem make_histogram_counts (values : list Z) :
  Z.of_nat (length values) < 2 ^ 64 →
  dom (make_histogram values) = list_to_set values ∧
  (∀ v, v ∈ values →
     make_histogram values !! v = Some (occurrences v values) ∧
     1 ≤ occurrences v values) ∧
  (∀ v, v ∉ values → make_histogram values !! v = None) ∧
  total_count (make_histogram values) = Z.of_nat (length values).
Proof.
  intros Hlen. split_and!.
  - apply make_histogram_dom.
  - intros v Hv.
    assert (1 ≤ occurrences v values) as Hocc.
    { unfold occurrences.
      assert (v ∈ filter (λ x, x = v) values) as Hin by (by apply list_elem_of_filter).
      destruct (filter (λ x, x = v) values); [by apply elem_of_nil in Hin|simpl; lia]. }
    split; [|done].
    assert (is_Some (make_histogram values !! v)) as [c Hc].
    { apply elem_of_dom. rewrite make_histogram_dom. set_solver. }
    pose proof (make_histogram_count_at values v) as Hcount.
    unfold count_at in Hcount. rewrite Hc in Hcount. simpl in Hcount.
    rewrite Hc, Hcount. f_equal. apply wrap64_small.
    pose proof (occurrences_bounds v values). lia.
  - intros v Hv. apply not_elem_of_dom. rewrite make_histogram_dom. set_solver.
  - induction values as [|x values IH] using rev_ind; [done|].
    rewrite length_app in Hlen |- *. simpl in Hlen |- *.
    rewrite make_histogram_snoc. unfold count_value.
    rewrite total_count_insert, IH by lia.
    rewrite make_histogram_count_at.
    pose proof (occurrences_bounds x values).
    rewrite !wrap64_small by lia. lia.
Qed.

Lemma make_histogram_counts_witness :
  Z.of_nat (length values_two) < 2 ^ 64 ∧
  dom (make_histogram values_two) = list_to_set values_two ∧
  (∀ v, v ∈ values_two →
     make_histogram values_two !! v = Some (occurrences v values_two) ∧
     1 ≤ occurrences v values_two) ∧
  (∀ v, v ∉ values_two → make_histogram values_two !! v = None) ∧
  total_count (make_histogram values_two) = Z.of_nat (length values_two).
Proof.
  assert (Z.of_nat (length values_two) < 2 ^ 64) as Hlen by (vm_compute; reflexivity).
  split; [exact Hlen|]. exact (make_histogram_counts values_two Hlen).
Defined.

Section huffman_code_correct.
Context `{PQ : !PriorityQueue (queue_entry Z) count}.

Lemma emplace_entries_elems (entries : list (Z * Z)) :
  pq_elems (emplace_entries entries) ≡ₚ (λ vc, mk_entry 0 vc.1 vc.2) <$> entries.
Proof.
  unfold emplace_entries.
  rewrite <-(app_nil_l (_ <$> entries)), <-(pq_elems_empty (PriorityQueue:=PQ)).
  generalize (pq_empty (PriorityQueue:=PQ)).
  induction entries as [|vc l IH]; intros q; simpl.
  - by rewrite app_nil_r.
  - rewrite IH, pq_elems_emplace. by rewrite <-Permutation_middle.
Qed.

(** The encoding of huffman_code.cc for a histogram of two entries or more,
    with what is known of the tree. *)
Lemma main_encoding_Ok (histogram : gmap Z Z) (entries : list (Z * Z)) :
  iteration_order histogram entries →
  (2 ≤ size histogram)%nat →
  ∃ root,
    main_encoding entries = Ok (walk root) ∧
    full_binary root ∧
    leaf_values root ≡ₚ (map_to_list histogram).*1 ∧
    S (interior_count root) = size histogram.
Proof.
  intros Horder Hsize. unfold main_encoding.
  assert (pq_elems (emplace_entries entries) ≡ₚ pq_elems (seed_queue histogram)) as Hp.
  { rewrite emplace_entries_elems, seed_queue_elems. by rewrite Horder. }
  pose proof (forest_inv_perm _ _ _ _ _ (symmetry Hp) (forest_inv_init histogram Hsize))
    as Hinit.
  destruct (merge_loop_inv _ (pq_size (emplace_entries entries))
              (mk_state (emplace_entries entries) ∅ 1) Hinit)
    as (st & -> & Hruns & Hinv & Hone); [simpl; lia|].
  simpl in *.
  destruct Hinv as [Hids Hnd Hz Hpos Hfull Hleaves Hint Hmax Hne Hlast].
  rewrite pq_size_elems in Hone.
  destruct (pq_elems (Q st)) as [|e [|??]] eqn:Hes; simplify_eq/=.
  rewrite length_fmap, length_map_to_list in Hmax, Hint.
  destruct Hlast as [?|(e' & ->%list_elem_of_singleton & Hid & [root Hroot])]; [lia|].
  rewrite <-Hid, Hroot. simpl. exists root.
  assert (subtree (interiors st) e = root) as Hsub.
  { unfold subtree, insert_or_retrieve_child. by rewrite Hroot. }
  rewrite Forall_singleton in Hfull. rewrite Hsub in *.
  rewrite app_nil_r in Hleaves. split_and!; [done|done|done|lia].
Qed.

(** With fewer than two entries the loop does not run and there is no
    root. *)
Lemma main_encoding_Err (histogram : gmap Z Z) (entries : list (Z * Z)) :
  iteration_order histogram entries →
  (size histogram < 2)%nat →
  main_encoding entries = Err out_of_range.
Proof.
  intros Horder Hsize. unfold main_encoding.
  assert (pq_size (emplace_entries entries) = size histogram) as Hsz.
  { rewrite pq_size_elems, emplace_entries_elems, length_fmap.
    unfold iteration_order in Horder. by rewrite Horder, length_map_to_list. }
  rewrite Hsz.
  assert (∀ fuel, merge_loop fuel (mk_state (emplace_entries entries) ∅ 1)
                  = Ok (mk_state (emplace_entries entries) ∅ 1)) as ->; [|done].
  intros fuel. destruct fuel; simpl; rewrite decide_False; (done || lia).
Qed.

(** X15. Stages 2 and 3 of huffman_code.cc, whatever the order in which
    the histogram is iterated: for two distinct values or more the result is
    a prefix-free table with a codeword of at least one bit for every key of
    the histogram; for fewer, where [huffman::build_encoding] would throw
    [std::invalid_argument], the loop does not run and the lookup of the root
    [interiors.at(max_id-1)] throws [std::out_of_range]. *)
Theorem main_encoding_outcome (histogram : gmap Z Z) (entries : list (Z * Z)) :
  iteration_order histogram entries →
  ((2 ≤ size histogram)%nat →
   ∃ encoding,
     main_encoding entries = Ok encoding ∧
     dom encoding = dom histogram ∧
     prefix_free encoding ∧
     ∀ k c, encoding !! k = Some c → (1 ≤ length c ≤ size histogram - 1)%nat) ∧
  ((size histogram < 2)%nat → main_encoding entries = Err out_of_range).
Proof.
  intros Horder. split.
  - intros Hsize.
    destruct (main_encoding_Ok histogram entries Horder Hsize)
      as (root & Hmain & Hfull & Hlv & Hic).
    destruct (leaf_values_histogram histogram root Hlv) as [Hnd Hdom].
    exists (walk root). split_and!; [done| |by apply walk_prefix_free|].
    + by rewrite walk_dom.
    + intros k c Hk. apply walk_lookup in Hk; [|done].
      destruct (codes_length root [] (k, c) Hfull Hk) as [Hle Hlt]. simpl in *. lia.
  - by apply main_encoding_Err.
Qed.
End huffman_code_correct.

Lemma main_encoding_outcome_witness :
  iteration_order hist_abc (reverse (map_to_list hist_abc)) ∧
  ((2 ≤ size hist_abc)%nat →
   ∃ encoding,
     main_encoding (PQ:=list_pq count) (reverse (map_to_list hist_abc)) = Ok encoding ∧
     dom encoding = dom hist_abc ∧
     prefix_free encoding ∧
     ∀ k c, encoding !! k = Some c → (1 ≤ length c ≤ size hist_abc - 1)%nat) ∧
  ((size hist_abc < 2)%nat →
   main_encoding (PQ:=list_pq count) (reverse (map_to_list hist_abc))
     = Err out_of_range).
Proof.
  assert (iteration_order hist_abc (reverse (map_to_list hist_abc))) as Horder
    by apply reverse_Permutation.
  split; [exact Horder|].
  exact (main_encoding_outcome hist_abc _ Horder).
Defined.

Example main_encoding_single :
  main_encoding (PQ:=list_pq count) (map_to_list hist_single) = Err out_of_range ∧
  main_encoding (PQ:=list_pq count) [] = Err out_of_range.
Proof. split; vm_compute; reflexivity. Qed.

(** ** The two encoders on the table of the program *)

Section encoders_more.
Context (encoding : gmap Z (list bool)).

Lemma encoded_bytes_app values1 values2 :
  encoded_bytes encoding (values1 ++ values2)
  = encoded_bytes encoding values1 ++ encoded_bytes encoding values2.
Proof. unfold encoded_bytes. by rewrite bind_app. Qed.

Lemma encoded_bytes_sum values :
  length (encoded_bytes encoding values)
  = sum_list_with (λ v, length (default [] (encoding !! v))) values.
Proof.
  induction values as [|v values IH]; [done|].
  rewrite encoded_bytes_cons, length_app, IH. unfold bytes_of.
  by rewrite length_fmap.
Qed.

Lemma imap_index_fst {A} (l : list A) :
  (imap (λ p x, (p, x)) l).*1 = seq 0 (length l).
Proof.
  apply list_eq. intros i. rewrite list_lookup_fmap, list_lookup_imap.
  destruct (l !! i) as [x|] eqn:Hi; simpl.
  - symmetry. apply lookup_seq. split; [done|]. by eapply lookup_lt_Some.
  - symmetry. apply lookup_seq_ge. by apply lookup_ge_None.
Qed.

(** The scan and the scatter for one value or more that all have a
    codeword. *)
Lemma scan_scatter_Ok values :
  values ≠ [] →
  Forall (λ v, is_Some (encoding !! v)) values →
  ∃ offsets,
    scan_loop encoding values 0 0 (replicate (length values) 0%nat)
      = Ok (length (encoded_bytes encoding values), offsets) ∧
    (∀ k, (k < length values)%nat →
       offsets !! k = Some (length (encoded_bytes encoding (take k values)))) ∧
    scatter_stores encoding values 0 offsets
      = Ok (imap (λ p x, (p, x)) (encoded_bytes encoding values)).
Proof.
  intros Hne Hall.
  destruct (scan_loop_spec encoding values 0 0 (replicate (length values) 0%nat)
              Hall Hne) as (offsets & Hscan & _ & Hoff).
  { by rewrite length_replicate. }
  exists offsets. split_and!; [done|done|].
  by rewrite (scatter_stores_spec encoding values 0 0 offsets Hall Hoff).
Qed.

Lemma parallel_encode_Ok (schedule : list (nat * Z) → list (nat * Z)) values :
  (∀ stores, schedule stores ≡ₚ stores) →
  values ≠ [] →
  Forall (λ v, is_Some (encoding !! v)) values →
  parallel_encode schedule encoding values = Ok (encoded_bytes encoding values).
Proof.
  intros Hsched Hne Hall. unfold parallel_encode.
  destruct (scan_scatter_Ok values Hne Hall) as (offsets & -> & _ & Hscatter).
  simpl. rewrite Hscatter. simpl.
  set (out := encoded_bytes encoding values).
  set (stores := imap (λ p x, (p, x)) out).
  pose proof (encoded_bytes_length encoding values) as Hbound. fold out in Hbound.
  destruct (run_stores_spec (schedule stores)
              (replicate (length values * largest_encoding encoding) 0))
    as (buf & -> & Hlen & Hsome & _).
  { rewrite Hsched. apply Forall_forall. intros [k x] Hkx. simpl.
    apply elem_of_lookup_imap in Hkx as (i & y & [= -> ->] & Hi).
    apply lookup_lt_Some in Hi. rewrite length_replicate. lia. }
  { rewrite Hsched. unfold stores. rewrite imap_index_fst. apply NoDup_seq. }
  simpl. f_equal. rewrite length_replicate in Hlen.
  rewrite resize_le by lia. apply list_eq. intros i.
  destruct (decide (i < length out)%nat) as [Hi|Hi].
  - rewrite lookup_take_lt by done.
    destruct (lookup_lt_is_Some_2 out i Hi) as [x Hx]. rewrite Hx.
    apply Hsome. rewrite Hsched. by apply (elem_of_lookup_imap_2 (λ p x, (p, x))).
  - rewrite lookup_take_ge by lia. symmetry. apply lookup_ge_None. lia.
Qed.

(** X17. The scatter writes every byte of the output exactly once: for one
    value or more that all have a codeword, the stores of all iterations go
    to the indices [0], [1], ... up to the accumulated length, one store
    each, and the accumulated length is within the preallocated vector. So
    no two iterations write the same element, whichever threads run them,
    and no store is out of bounds. *)
Theorem scatter_stores_once values :
  values ≠ [] →
  Forall (λ v, is_Some (encoding !! v)) values →
  ∃ acc offsets stores,
    scan_loop encoding values 0 0 (replicate (length values) 0%nat)
      = Ok (acc, offsets) ∧
    scatter_stores encoding values 0 offsets = Ok stores ∧
    stores.*1 = seq 0 acc ∧
    NoDup stores.*1 ∧
    (acc ≤ length values * largest_encoding encoding)%nat.
Proof.
  intros Hne Hall.
  destruct (scan_scatter_Ok values Hne Hall) as (offsets & Hscan & _ & Hscatter).
  eexists _, offsets, _. split_and!; [done|done| | |].
  - apply imap_index_fst.
  - rewrite imap_index_fst. apply NoDup_seq.
  - apply encoded_bytes_length.
Qed.

(** X18. The exclusive scan: for one value or more that all have a
    codeword, [offsets[k]] is the sum of the lengths of the codewords of the
    values before position [k] and [acc] is the sum over all values. For a
    value without a codeword [encoding.at] throws inside the parallel
    region, which ends the program. Without a value the loop has no
    iteration and the value of [acc] is not defined. *)
Theorem scan_loop_offsets values :
  (values ≠ [] → Forall (λ v, is_Some (encoding !! v)) values →
   ∃ offsets,
     scan_loop encoding values 0 0 (replicate (length values) 0%nat)
       = Ok (sum_list_with (λ v, length (default [] (encoding !! v))) values,
             offsets) ∧
     ∀ k, (k < length values)%nat →
       offsets !! k =
         Some (sum_list_with (λ v, length (default [] (encoding !! v)))
                 (take k values))) ∧
  (Exists (λ v, encoding !! v = None) values →
   scan_loop encoding values 0 0 (replicate (length values) 0%nat)
     = Err terminate) ∧
  (values = [] →
   scan_loop encoding values 0 0 (replicate (length values) 0%nat)
     = Err undefined_behavior).
Proof.
  split_and!.
  - intros Hne Hall.
    destruct (scan_scatter_Ok values Hne Hall) as (offsets & Hscan & Hoff & _).
    exists offsets. rewrite <-encoded_bytes_sum. split; [done|].
    intros k Hk. by rewrite <-encoded_bytes_sum, Hoff.
  - apply scan_loop_missing.
  - by intros ->.
Qed.
End encoders_more.

Lemma scatter_stores_once_witness :
  values_two ≠ [] ∧
  Forall (λ v, is_Some (encoding_two !! v)) values_two ∧
  ∃ acc offsets stores,
    scan_loop encoding_two values_two 0 0 (replicate (length values_two) 0%nat)
      = Ok (acc, offsets) ∧
    scatter_stores encoding_two values_two 0 offsets = Ok stores ∧
    stores.*1 = seq 0 acc ∧
    NoDup stores.*1 ∧
    (acc ≤ length values_two * largest_encoding encoding_two)%nat.
Proof.
  assert (values_two ≠ []) as Hne by done.
  assert (Forall (λ v, is_Some (encoding_two !! v)) values_two) as Hall.
  { apply (bool_decide_unpack _). vm_compute. reflexivity. }
  split; [exact Hne|]. split; [exact Hall|].
  exact (scatter_stores_once encoding_two values_two Hne Hall).
Defined.

Lemma scan_loop_offsets_witness :
  values_two ≠ [] ∧
  Forall (λ v, is_Some (encoding_two !! v)) values_two ∧
  Exists (λ v, encoding_two !! v = None) [1; 3] ∧
  (∃ offsets,
     scan_loop encoding_two values_two 0 0 (replicate (length values_two) 0%nat)
       = Ok (sum_list_with (λ v, length (default [] (encoding_two !! v))) values_two,
             offsets) ∧
     ∀ k, (k < length values_two)%nat →
       offsets !! k =
         Some (sum_list_with (λ v, length (default [] (encoding_two !! v)))
                 (take k values_two))) ∧
  scan_loop encoding_two [1; 3] 0 0 (replicate (length [1; 3]) 0%nat)
    = Err terminate ∧
  scan_loop encoding_two [] 0 0 (replicate (length ([] : list Z)) 0%nat)
    = Err undefined_behavior.
Proof.
  assert (values_two ≠ []) as Hne by done.
  assert (Forall (λ v, is_Some (encoding_two !! v)) values_two) as Hall.
  { apply (bool_decide_unpack _). vm_compute. reflexivity. }
  assert (Exists (λ v, encoding_two !! v = None) [1; 3]) as Hex.
  { apply (bool_decide_unpack _). vm_compute. reflexivity. }
  split; [exact Hne|]. split; [exact Hall|]. split; [exact Hex|]. split_and!.
  - exact (proj1 (scan_loop_offsets encoding_two values_two) Hne Hall).
  - exact (proj1 (proj2 (scan_loop_offsets encoding_two [1; 3])) Hex).
  - exact (proj2 (proj2 (scan_loop_offsets encoding_two [])) eq_refl).
Defined.

(** ** The whole of huffman_code.cc *)

Lemma weighted_length_delete `{Countable K} (m : gmap K Z)
    (encoding : gmap K (list bool)) (k : K) :
  weighted_length (delete k m) encoding =
    weighted_length m encoding
    - count_at m k * Z.of_nat (length (default [] (encoding !! k))).
Proof.
  unfold weighted_length, count_at. destruct (m !! k) as [x|] eqn:Hk; simpl.
  - rewrite <-(map_to_list_delete m k x Hk). csimpl. lia.
  - rewrite delete_id by done. lia.
Qed.

Lemma weighted_length_insert `{Countable K} (m : gmap K Z)
    (encoding : gmap K (list bool)) (k : K) (v : Z) :
  weighted_length (<[k := v]> m) encoding =
    weighted_length m encoding
    - count_at m k * Z.of_nat (length (default [] (encoding !! k)))
    + v * Z.of_nat (length (default [] (encoding !! k))).
Proof.
  rewrite <-insert_delete_eq. unfold weighted_length at 1.
  rewrite map_to_list_insert by apply lookup_delete_eq. csimpl.
  fold (weighted_length (delete k m) encoding). rewrite weighted_length_delete. lia.
Qed.

(** The histogram predicts the size of the output. *)
Lemma weighted_length_make_histogram (encoding : gmap Z (list bool)) (values : list Z) :
  Z.of_nat (length values) < 2 ^ 64 →
  weighted_length (make_histogram values) encoding
  = Z.of_nat (length (encoded_bytes encoding values)).
Proof.
  induction values as [|x values IH] using rev_ind; intros Hlen; [done|].
  rewrite length_app in Hlen. simpl in Hlen.
  rewrite make_histogram_snoc. unfold count_value.
  rewrite weighted_length_insert, IH by lia.
  rewrite make_histogram_count_at.
  pose proof (occurrences_bounds x values).
  rewrite !wrap64_small by lia.
  rewrite encoded_bytes_app, length_app.
  unfold encoded_bytes at 3. csimpl. rewrite app_nil_r. unfold bytes_of.
  rewrite length_fmap. lia.
Qed.

Section pipeline_huffman_code.
Context `{PQ : !PriorityQueue (queue_entry Z) count}.

(** X16. huffman_code.cc from the values to the bytes: for fewer than
    [2^64] values of which two or more are distinct, whatever the order in
    which the histogram is iterated and the stores of the scatter are
    executed, the table is built, the serial encoder never meets a value
    without a codeword, the parallel encoder returns the same bytes, and
    their number is the one that the histogram predicts, the sum over the
    symbols of count times codeword length. *)
Theorem huffman_code_pipeline (values : list Z) (entries : list (Z * Z))
    (schedule : list (nat * Z) → list (nat * Z)) :
  Z.of_nat (length values) < 2 ^ 64 →
  iteration_order (make_histogram values) entries →
  (2 ≤ size (make_histogram values))%nat →
  (∀ stores, schedule stores ≡ₚ stores) →
  ∃ encoding,
    main_encoding entries = Ok encoding ∧
    serial_encode encoding values = Ok (encoded_bytes encoding values) ∧
    parallel_encode schedule encoding values = Ok (encoded_bytes encoding values) ∧
    Z.of_nat (length (encoded_bytes encoding values))
      = weighted_length (make_histogram values) encoding.
Proof.
  intros Hlen Horder Hsize Hsched.
  destruct (main_encoding_Ok _ entries Horder Hsize) as (root & Hmain & Hfull & Hlv & _).
  destruct (leaf_values_histogram _ root Hlv) as [Hnd Hdom].
  exists (walk root).
  assert (Forall (λ v, is_Some (walk root !! v)) values) as Hall.
  { apply Forall_forall. intros v Hv. apply elem_of_dom.
    rewrite walk_dom, Hdom, make_histogram_dom by done. set_solver. }
  assert (values ≠ []) as Hne.
  { intros ->. unfold make_histogram in Hsize. simpl in Hsize.
    rewrite map_size_empty in Hsize. lia. }
  split_and!.
  - done.
  - unfold serial_encode. by rewrite serial_loop_spec.
  - by apply parallel_encode_Ok.
  - by rewrite weighted_length_make_histogram.
Qed.
End pipeline_huffman_code.

Lemma huffman_code_pipeline_witness :
  Z.of_nat (length values_two) < 2 ^ 64 ∧
  iteration_order (make_histogram values_two)
    (reverse (map_to_list (make_histogram values_two))) ∧
  (2 ≤ size (make_histogram values_two))%nat ∧
  (∀ stores : list (nat * Z), reverse stores ≡ₚ stores) ∧
  ∃ encoding,
    main_encoding (PQ:=list_pq count)
      (reverse (map_to_list (make_histogram values_two))) = Ok encoding ∧
    serial_encode encoding values_two = Ok (encoded_bytes encoding values_two) ∧
    parallel_encode reverse encoding values_two
      = Ok (encoded_bytes encoding values_two) ∧
    Z.of_nat (length (encoded_bytes encoding values_two))
      = weighted_length (make_histogram values_two) encoding.
Proof.
  assert (Z.of_nat (length values_two) < 2 ^ 64) as Hlen by (vm_compute; reflexivity).
  assert (iteration_order (make_histogram values_two)
            (reverse (map_to_list (make_histogram values_two)))) as Horder
    by apply reverse_Permutation.
  assert (2 ≤ size (make_histogram values_two))%nat as Hsize by (vm_compute; lia).
  assert (∀ stores : list (nat * Z), reverse stores ≡ₚ stores) as Hsched
    by (intros stores; apply reverse_Permutation).
  split; [exact Hlen|]. split; [exact Horder|]. split; [exact Hsize|].
  split; [exact Hsched|].
  exact (huffman_code_pipeline values_two _ reverse Hlen Horder Hsize Hsched).
Defined.

(** ** The table is optimal *)

(** *** Leaves as weights and depths *)

#[export] Instance cost_perm : Proper ((≡ₚ) ==> (=)) cost.
Proof. intros l1 l2 Hp. unfold cost. by rewrite Hp. Qed.

Lemma cost_cons (w : Z) (d : nat) (l : list (Z * nat)) :
  cost ((w, d) :: l) = w * Z.of_nat d + cost l.
Proof. done. Qed.

Lemma cost_app (l1 l2 : list (Z * nat)) : cost (l1 ++ l2) = cost l1 + cost l2.
Proof. unfold cost. by rewrite fmap_app, sum_counts_app. Qed.

Lemma cost_deepen (l : list (Z * nat)) :
  cost ((λ wd, (wd.1, S wd.2)) <$> l) = cost l + sum_counts l.*1.
Proof.
  induction l as [|[w d] l IH]; [done|].
  csimpl. rewrite !cost_cons, IH. lia.
Qed.

Lemma tree_depths_shape (ds : list nat) :
  tree_depths ds →
  ds = [0%nat] ∨
  ∃ d ds', ds ≡ₚ S d :: S d :: ds' ∧ tree_depths (d :: ds') ∧
    Forall (λ e, e ≤ S d)%nat ds.
Proof.
  induction 1 as [|l r Hl IHl Hr IHr|l l' Hp Hl IH].
  - by left.
  - right. destruct IHl as [->|(dl & l' & Hpl & Htl & Hml)],
      IHr as [->|(dr & r' & Hpr & Htr & Hmr)].
    + exists 0%nat, []. split_and!; [done|constructor|].
      repeat constructor.
    + exists (S dr), (1%nat :: (S <$> r')). split_and!.
      * rewrite Hpr. csimpl. exact (Permutation_middle [_; _] _ _).
      * apply (depths_perm ((S <$> [0%nat]) ++ (S <$> (dr :: r')))).
        { csimpl. apply Permutation_swap. }
        apply depths_node; [constructor|done].
      * csimpl. constructor; [lia|]. apply Forall_fmap.
        eapply Forall_impl; [done|]. simpl. lia.
    + exists (S dl), ((S <$> l') ++ [1%nat]). split_and!.
      * rewrite Hpl. by csimpl.
      * apply (depths_perm ((S <$> (dl :: l')) ++ (S <$> [0%nat]))); [done|].
        apply depths_node; [done|constructor].
      * apply Forall_app. split.
        -- apply Forall_fmap. eapply Forall_impl; [done|]. simpl. lia.
        -- csimpl. constructor; [lia|constructor].
    + destruct (decide (dr ≤ dl)%nat) as [Hle|Hgt].
      * exists (S dl), ((S <$> l') ++ (S <$> r)). split_and!.
        -- rewrite Hpl. by csimpl.
        -- apply (depths_perm ((S <$> (dl :: l')) ++ (S <$> r))); [done|].
           by apply depths_node.
        -- apply Forall_app. split; apply Forall_fmap.
           ++ eapply Forall_impl; [exact Hml|]. simpl. lia.
           ++ eapply Forall_impl; [exact Hmr|]. simpl. lia.
      * exists (S dr), ((S <$> l) ++ (S <$> r')). split_and!.
        -- rewrite Hpr. csimpl. by rewrite <-!Permutation_middle.
        -- apply (depths_perm ((S <$> l) ++ (S <$> (dr :: r')))).
           { csimpl. by rewrite <-Permutation_middle. }
           by apply depths_node.
        -- apply Forall_app. split; apply Forall_fmap.
           ++ eapply Forall_impl; [exact Hml|]. simpl. lia.
           ++ eapply Forall_impl; [exact Hmr|]. simpl. lia.
  - destruct IH as [->|(d & ds' & Hpd & Htd & Hmd)].
    + left. by apply Permutation_singleton_l in Hp.
    + right. exists d, ds'. split_and!; [by rewrite <-Hp|done|by rewrite <-Hp].
Qed.

Lemma pick_depth (l : list (Z * nat)) (d : nat) (ds : list nat) :
  l.*2 ≡ₚ d :: ds → ∃ w l', l ≡ₚ (w, d) :: l' ∧ l'.*2 ≡ₚ ds.
Proof.
  intros Hp.
  assert (d ∈ l.*2) as Hd by (rewrite Hp; left).
  apply list_elem_of_fmap in Hd as ([w d'] & -> & Hin).
  apply elem_of_Permutation in Hin as [l' Hl'].
  exists w, l'. split; [done|]. rewrite Hl' in Hp. csimpl in Hp.
  by apply Permutation_cons_inv in Hp.
Qed.

(** Moving a least weight to a deepest leaf does not raise the cost. *)
Lemma exchange (a x : Z) (D : nat) (l : list (Z * nat)) (ws : list Z) :
  x :: l.*1 ≡ₚ a :: ws →
  (∀ y, y ∈ ws → a ≤ y) →
  Forall (λ wd, wd.2 ≤ D)%nat l →
  ∃ l', l'.*1 ≡ₚ ws ∧ l'.*2 ≡ₚ l.*2 ∧ cost ((a, D) :: l') ≤ cost ((x, D) :: l).
Proof.
  intros Hp Hmin Hdepth. destruct (decide (x = a)) as [->|Hxa].
  - exists l. apply Permutation_cons_inv in Hp. done.
  - assert (a ∈ l.*1) as Ha.
    { assert (a ∈ x :: l.*1) as [?|?]%elem_of_cons by (rewrite Hp; left); done. }
    assert (a ≤ x) as Hax.
    { apply Hmin. assert (x ∈ a :: ws) as [?|?]%elem_of_cons by (rewrite <-Hp; left);
        done. }
    apply list_elem_of_fmap in Ha as ([a' e] & -> & Hin). simpl in *.
    apply elem_of_Permutation in Hin as [l0 Hl0].
    exists ((x, e) :: l0). rewrite Hl0 in Hp |- *. csimpl in *. split_and!.
    + rewrite Permutation_swap in Hp. by apply Permutation_cons_inv in Hp.
    + done.
    + rewrite Hl0 in Hdepth. apply Forall_cons in Hdepth as [He _]. simpl in He.
      rewrite !cost_cons. nia.
Qed.

Lemma huffman_cost_perm (ws ws' : list Z) (c : Z) :
  ws ≡ₚ ws' → huffman_cost ws c → huffman_cost ws' c.
Proof.
  intros Hp Hc. destruct Hc as [w|ws a b rest c Hws Ha Hb Hc].
  - apply Permutation_singleton_l in Hp as <-. constructor.
  - eapply huffman_merge; [by rewrite <-Hp|done..].
Qed.

(** No full binary tree with the given weights at its leaves costs less
    than what the merge loop arrives at. *)
Lemma huffman_cost_least (ws : list Z) (c : Z) :
  huffman_cost ws c →
  ∀ l, l.*1 ≡ₚ ws → tree_depths l.*2 → c ≤ cost l.
Proof.
  induction 1 as [w|ws a b rest c Hws Ha Hb Hc IH]; intros l Hl Ht.
  - apply Permutation_singleton_r in Hl.
    destruct l as [|[w' d] [|??]]; simplify_eq/=.
    destruct (tree_depths_shape _ Ht) as [[= ->]|(d' & ds' & Hp & _)].
    + rewrite cost_cons. unfold cost. simpl. lia.
    + apply Permutation_length in Hp. simpl in Hp. lia.
  - rewrite Hws in Hl.
    destruct (tree_depths_shape _ Ht) as [Heq|(d & ds' & Hp & Htd & Hmax)].
    { apply (f_equal length) in Heq. apply Permutation_length in Hl.
      rewrite !length_fmap in *. simpl in *. lia. }
    destruct (pick_depth l (S d) (S d :: ds') Hp) as (x1 & l1 & Hl1 & Hd1).
    assert (Forall (λ wd, wd.2 ≤ S d)%nat l) as Hmax' by (by apply Forall_fmap in Hmax).
    rewrite Hl1 in Hl, Hmax'. csimpl in Hl.
    apply Forall_cons in Hmax' as [_ Hmax1].
    destruct (exchange a x1 (S d) l1 (b :: rest) Hl Ha Hmax1)
      as (l1' & Hw1 & Hdp1 & Hcost1).
    rewrite Hd1 in Hdp1.
    destruct (pick_depth l1' (S d) ds' Hdp1) as (x2 & l2 & Hl2 & Hd2).
    rewrite Hl2 in Hw1. csimpl in Hw1.
    assert (Forall (λ wd, wd.2 ≤ S d)%nat l2) as Hmax2.
    { assert (Forall (λ e, e ≤ S d)%nat l2.*2) as Hm2.
      { rewrite Hd2. rewrite Hp in Hmax.
        by apply Forall_cons in Hmax as [_ [_ ?]%Forall_cons]. }
      by apply Forall_fmap in Hm2. }
    destruct (exchange b x2 (S d) l2 rest Hw1 Hb Hmax2)
      as (l2' & Hw2 & Hdp2 & Hcost2).
    assert (c ≤ cost ((a + b, d) :: l2')) as Hc'.
    { apply IH; csimpl; [by rewrite Hw2|].
      apply (depths_perm (d :: ds')); [|done]. by rewrite Hdp2, Hd2. }
    rewrite Hl1. rewrite (cost_cons a (S d) l1'), Hl2 in Hcost1.
    rewrite (cost_cons b (S d) l2') in Hcost2.
    rewrite (cost_cons (a + b) d l2') in Hc'.
    rewrite Nat2Z.inj_succ in Hcost1, Hcost2. lia.
Qed.

(** *** The merge loop follows [huffman_cost] *)

Lemma sum_counts_bind {A B} (f : A → list (B * Z)) (l : list A) :
  sum_counts (l ≫= f).*2 = sum_counts ((λ x, sum_counts (f x).*2) <$> l).
Proof.
  induction l as [|x l IH]; [done|]. csimpl.
  by rewrite fmap_app, sum_counts_app, IH.
Qed.

Lemma sum_counts_nonneg (l : list Z) : Forall (λ x, 0 ≤ x) l → 0 ≤ sum_counts l.
Proof. induction 1; simpl; lia. Qed.

Lemma sum_counts_elem_le (l : list Z) (x : Z) :
  Forall (λ x, 0 ≤ x) l → x ∈ l → x ≤ sum_counts l.
Proof.
  induction 1 as [|y l Hy Hl IH]; [by intros ?%elem_of_nil|].
  pose proof (sum_counts_nonneg l Hl).
  intros [->|Hin]%elem_of_cons; simpl; [lia|]. specialize (IH Hin). lia.
Qed.

Section trees_cost.
Context `{Countable Value}.
Implicit Types (t : tree Value).

Lemma leaf_depths_succ t d :
  leaf_depths t (S d) = (λ wd, (wd.1, S wd.2)) <$> leaf_depths t d.
Proof.
  revert d. induction t as [e l r IHl IHr] using tree_rect'; intros d; simpl.
  rewrite !fmap_app. f_equal; [|f_equal].
  - destruct l; simpl in *; [apply IHl|done].
  - destruct r; simpl in *; [apply IHr|done].
  - by case_decide.
Qed.

Lemma leaf_depths_fst t d : (leaf_depths t d).*1 = (leaf_entries t).*2.
Proof.
  revert d. induction t as [e l r IHl IHr] using tree_rect'; intros d; simpl.
  rewrite !fmap_app. f_equal; [|f_equal].
  - destruct l; simpl in *; [apply IHl|done].
  - destruct r; simpl in *; [apply IHr|done].
  - by case_decide.
Qed.

Lemma tree_cost_node e t1 t2 :
  id e ≠ 0%nat →
  tree_cost (mk_tree e (Some t1) (Some t2))
  = tree_cost t1 + tree_weight t1 + tree_cost t2 + tree_weight t2.
Proof.
  intros He. unfold tree_cost, tree_weight. simpl. rewrite decide_False by done.
  rewrite app_nil_r, cost_app, !leaf_depths_succ, !cost_deepen, !leaf_depths_fst. lia.
Qed.

Lemma full_binary_tree_depths t :
  full_binary t → tree_depths (leaf_depths t 0).*2.
Proof.
  induction 1 as [v c|e l r He Hl IHl Hr IHr]; simpl; [constructor|].
  rewrite decide_False by done.
  rewrite app_nil_r, fmap_app, !leaf_depths_succ, <-!list_fmap_compose.
  assert (∀ l0 : list (Z * nat),
            snd ∘ (λ wd : Z * nat, (wd.1, S wd.2)) <$> l0 = S <$> l0.*2) as Hs.
  { intros l0. rewrite <-list_fmap_compose. by apply list_fmap_ext. }
  rewrite !Hs. by apply depths_node.
Qed.
End trees_cost.

Lemma leaf_depths_codes `{Countable Value} (t : tree Value) (path : list bool)
    (encoding : gmap Value (list bool)) :
  (∀ vp, vp ∈ codes t path → encoding !! vp.1 = Some vp.2) →
  leaf_depths t (length path)
  = (λ vc, (vc.2, length (default [] (encoding !! vc.1)))) <$> leaf_entries t.
Proof.
  revert path. induction t as [e l r IHl IHr] using tree_rect'; intros path Hcodes.
  simpl in *. rewrite !fmap_app. f_equal; [|f_equal].
  - destruct l as [l'|]; simpl in *; [|done].
    rewrite <-(IHl (path ++ [false])); [by rewrite length_app, Nat.add_1_r|].
    intros vp Hvp. apply Hcodes. set_solver.
  - destruct r as [r'|]; simpl in *; [|done].
    rewrite <-(IHr (path ++ [true])); [by rewrite length_app, Nat.add_1_r|].
    intros vp Hvp. apply Hcodes. set_solver.
  - case_decide; [|done]. simpl.
    pose proof (Hcodes (value e, path)) as Hc. simpl in Hc.
    rewrite Hc; [done|]. set_solver.
Qed.

Section optimal.
Context `{Countable Value, HuffmanValue Value}.
Context `{PQ : !PriorityQueue (queue_entry Value) count}.
Context (histogram : gmap Value Z).
Context (Hnonneg : ∀ k c, histogram !! k = Some c → 0 ≤ c).
Context (Htotal : total_count histogram < 2 ^ 64).
Implicit Types (e : queue_entry Value) (es : list (queue_entry Value)).
Implicit Types (I : gmap nat (tree Value)) (st : build_state).

(** Without overflow the count of a queue entry is the sum of the counts
    of its leaves. *)
Lemma ledger_exact keys es I m :
  forest_inv keys es I m →
  ledger_inv histogram es I →
  Forall (λ e, count e = tree_weight (subtree I e) ∧ 0 ≤ count e) es ∧
  sum_counts (count <$> es) = total_count histogram.
Proof.
  intros Hinv [Hown Hent Hlv Hw Hwr]. pose proof (inv_zero _ _ _ _ Hinv) as Hz.
  assert (∀ e, e ∈ es → 0 ≤ tree_weight (subtree I e)) as Hnn.
  { intros e He. apply sum_counts_nonneg, Forall_fmap, Forall_forall.
    intros [v c] Hin. simpl. apply (Hnonneg v c), elem_of_map_to_list.
    rewrite <-Hlv. apply list_elem_of_bind. by exists e. }
  assert (sum_counts ((λ e, tree_weight (subtree I e)) <$> es)
          = total_count histogram) as Hsum.
  { unfold total_count. rewrite <-Hlv. by rewrite sum_counts_bind. }
  assert (∀ e, e ∈ es → count e = tree_weight (subtree I e)) as Hexact.
  { intros e He. destruct (decide (id e = 0%nat)) as [Hid|Hid].
    - rewrite subtree_leaf by (by rewrite Hid). unfold tree_weight. simpl. lia.
    - rewrite (Hwr e He Hid), (Hw e He). fold (tree_weight (subtree I e)).
      apply wrap64_small. split; [by apply Hnn|].
      assert (tree_weight (subtree I e) ≤ total_count histogram); [|lia].
      rewrite <-Hsum. apply sum_counts_elem_le.
      + apply Forall_fmap, Forall_forall. intros e' He'. by apply Hnn.
      + apply list_elem_of_fmap. by exists e. }
  split.
  - apply Forall_forall. intros e He.
    split; [by apply Hexact|]. rewrite Hexact by done. by apply Hnn.
  - rewrite <-Hsum. f_equal. apply Forall_fmap_ext_1, Forall_forall. apply Hexact.
Qed.

Lemma cost_inv_perm es es' I :
  es ≡ₚ es' → cost_inv histogram es I → cost_inv histogram es' I.
Proof.
  intros Hp Hc c Hcost. unfold forest_cost. rewrite <-Hp.
  apply Hc. eapply huffman_cost_perm; [|exact Hcost]. by rewrite Hp.
Qed.

(** One iteration is one step of [huffman_cost]. *)
Lemma cost_inv_step keys st st' :
  forest_inv keys (pq_elems (Q st)) (interiors st) (max_id st) →
  (2 ≤ pq_size (Q st))%nat →
  merge_step st = Ok st' →
  ledger_inv histogram (pq_elems (Q st)) (interiors st) ∧
    cost_inv histogram (pq_elems (Q st)) (interiors st) →
  ledger_inv histogram (pq_elems (Q st')) (interiors st') ∧
    cost_inv histogram (pq_elems (Q st')) (interiors st').
Proof.
  intros Hinv Hge Hstep [Hled Hcost].
  split; [by eapply ledger_inv_step|].
  destruct (merge_step_spec keys st st' Hinv Hge Hstep)
    as (e1 & e2 & es2 & Hp & Hmin1 & Hmin2 & Hp' & _ & Hnew & Hkeep & _).
  pose proof (inv_pos _ _ _ _ Hinv) as Hpos.
  destruct (ledger_exact _ _ _ _ Hinv Hled) as [Hexact Hsum].
  rewrite Hp in Hexact, Hsum. csimpl in Hsum.
  apply Forall_cons in Hexact as [[Hc1 Hn1] Hexact].
  apply Forall_cons in Hexact as [[Hc2 Hn2] Hexact].
  assert (0 ≤ sum_counts (count <$> es2)) as Hrest.
  { apply sum_counts_nonneg, Forall_fmap. eapply Forall_impl; [exact Hexact|].
    by intros e [_ ?]. }
  pose proof (led_entry _ _ _ Hled e1) as Hent1.
  pose proof (led_entry _ _ _ Hled e2) as Hent2.
  rewrite Hent1, Hent2 in Hp', Hnew by (rewrite Hp; set_solver).
  rewrite (wrap64_small (count e1 + count e2)) in Hp', Hnew by lia.
  apply (cost_inv_perm _ _ _ (symmetry Hp')). intros c Hc. csimpl in Hc.
  apply (cost_inv_perm _ _ _ Hp) in Hcost.
  assert (huffman_cost (count <$> e1 :: e2 :: es2) (c + count e1 + count e2)) as Hc'.
  { apply (huffman_merge _ (count e1) (count e2) (count <$> es2) c); [done| | |done].
    - intros x Hx. change (x ∈ count <$> e2 :: es2) in Hx.
      apply list_elem_of_fmap in Hx as (e & -> & He). by apply Hmin1.
    - intros x (e & -> & He)%list_elem_of_fmap. by apply Hmin2. }
  apply Hcost in Hc'.
  replace (c + forest_cost (interiors st') (_ :: es2))
    with (c + count e1 + count e2 + forest_cost (interiors st) (e1 :: e2 :: es2)); [done|].
  unfold forest_cost. csimpl. rewrite Hnew.
  rewrite tree_cost_node by (simpl; lia). rewrite <-Hc1, <-Hc2.
  assert ((λ e, tree_cost (subtree (interiors st') e)) <$> es2
          = (λ e, tree_cost (subtree (interiors st) e)) <$> es2) as ->.
  { apply Forall_fmap_ext_1, Forall_forall. intros e He.
    by rewrite (subtree_ext (interiors st)) by auto. }
  lia.
Qed.

(** The cost of the tree is a cost of [huffman_cost] for the counts of the
    histogram. *)
Lemma build_tree_huffman_cost st root :
  build_tree histogram = Ok (st, root) →
  huffman_cost (map_to_list histogram).*2 (tree_cost root) ∧
  leaf_entries root ≡ₚ map_to_list histogram.
Proof.
  intros Hbuild.
  destruct (build_tree_final histogram st root Hbuild)
    as (Hsize & _ & _ & _ & e & Hes & _ & _ & Hsub).
  destruct (build_tree_Ok histogram Hsize) as (st' & root' & Hb & Hruns & _).
  rewrite Hbuild in Hb. injection Hb as <- <-.
  destruct (loop_runs_invariant (map_to_list histogram).*1
              (λ s, ledger_inv histogram (pq_elems (Q s)) (interiors s) ∧
                    cost_inv histogram (pq_elems (Q s)) (interiors s))
              _ _ _ (cost_inv_step _) Hruns (forest_inv_init _ Hsize))
    as ([Hled Hcost] & _ & _).
  { split; [apply ledger_inv_init|]. simpl.
    eapply cost_inv_perm; [symmetry; apply seed_queue_elems|].
    intros c Hc. rewrite <-list_fmap_compose in Hc.
    assert (forest_cost ∅ ((λ vc, mk_entry 0 vc.1 vc.2) <$> map_to_list histogram) = 0)
      as ->.
    { unfold forest_cost. generalize (map_to_list histogram). intros l.
      induction l as [|x l IH]; csimpl; [done|].
      rewrite subtree_leaf by done. unfold tree_cost at 1. simpl.
      rewrite cost_cons. unfold cost at 1. simpl. lia. }
    by rewrite Z.add_0_r. }
  rewrite Hes in Hled, Hcost. split.
  - specialize (Hcost 0 (huffman_one _)). unfold forest_cost in Hcost.
    csimpl in Hcost. rewrite Hsub in Hcost.
    by replace (0 + (tree_cost root + 0)) with (tree_cost root) in Hcost by lia.
  - pose proof (led_leaves _ _ _ Hled) as Hlv. csimpl in Hlv.
    by rewrite app_nil_r, Hsub in Hlv.
Qed.

(** The cost of the tree is the weighted length of the table. *)
Lemma build_encoding_huffman_cost encoding :
  build_encoding histogram = Ok encoding →
  huffman_cost (map_to_list histogram).*2 (weighted_length histogram encoding).
Proof.
  intros Hb.
  destruct (build_encoding_walk _ _ Hb) as (st & root & Hbt & -> & _ & _ & Hnd & _).
  destruct (build_tree_huffman_cost st root Hbt) as [Hcost Hlv].
  replace (weighted_length histogram (walk root)) with (tree_cost root); [done|].
  unfold tree_cost.
  pose proof (leaf_depths_codes root [] (walk root)) as Hld. simpl in Hld.
  rewrite Hld by (intros [v p] Hvp; by apply walk_lookup).
  rewrite Hlv. unfold weighted_length, cost. by rewrite <-list_fmap_compose.
Qed.
End optimal.

(** *** Every prefix code costs as much as some full binary tree *)

Lemma elem_of_strip (b : bool) (l : list (Z * list bool)) (w : Z) (c : list bool) :
  (w, c) ∈ strip b l ↔ (w, b :: c) ∈ l.
Proof.
  induction l as [|[w' [|b' c']] l IH]; simpl.
  - by rewrite !elem_of_nil.
  - rewrite IH, elem_of_cons. naive_solver.
  - case_decide as Hb.
    + subst. rewrite !elem_of_cons, IH. naive_solver.
    + rewrite IH, elem_of_cons. naive_solver.
Qed.

Lemma strip_counts (l : list (Z * list bool)) :
  Forall (λ wc, wc.2 ≠ []) l →
  (length l = length (strip false l) + length (strip true l))%nat ∧
  (sum_list_with (λ wc, length wc.2) l
   = sum_list_with (λ wc, length wc.2) (strip false l)
     + sum_list_with (λ wc, length wc.2) (strip true l) + length l)%nat ∧
  l.*1 ≡ₚ (strip false l).*1 ++ (strip true l).*1 ∧
  code_cost l
  = code_cost (strip false l) + sum_counts (strip false l).*1
    + code_cost (strip true l) + sum_counts (strip true l).*1.
Proof.
  induction 1 as [|[w [|[] c]] l Hc _ (IH1 & IH2 & IH3 & IH4)]; [done|done|..].
  - simpl. split_and!; [lia|lia| |].
    + csimpl. by rewrite IH3, Permutation_middle.
    + unfold code_cost in *. csimpl. rewrite IH4. lia.
  - simpl. split_and!; [lia|lia| |].
    + csimpl. by rewrite IH3.
    + unfold code_cost in *. csimpl. rewrite IH4. lia.
Qed.

Lemma incomparable_cons (b : bool) (c1 c2 : list bool) :
  incomparable (b :: c1) (b :: c2) → incomparable c1 c2.
Proof.
  intros [H1 H2]. split; intros Hp; [apply H1|apply H2]; by apply prefix_cons.
Qed.

Lemma strip_prefix_code (b : bool) (l : list (Z * list bool)) :
  prefix_code l.*2 → prefix_code (strip b l).*2.
Proof.
  induction l as [|[w [|b' c]] l IH]; csimpl; [done|..].
  - intros Hpc. inversion Hpc; subst. auto.
  - intros Hpc. inversion Hpc as [|? ? Hall Hrest]; subst.
    case_decide as Hb; [|auto]. subst. csimpl. constructor; [|auto].
    apply Forall_fmap, Forall_forall. intros [w' c'] Hin. simpl.
    apply elem_of_strip in Hin. apply (incomparable_cons b).
    rewrite Forall_forall in Hall. apply Hall.
    apply list_elem_of_fmap. by exists (w', b :: c').
Qed.

Lemma prefix_code_nil_only (cs : list (list bool)) :
  prefix_code cs → [] ∈ cs → cs = [[]].
Proof.
  induction 1 as [|c cs Hall Hpc IH]; [by intros ?%elem_of_nil|].
  intros [<-|Hin]%elem_of_cons.
  - destruct cs as [|c' cs]; [done|]. apply Forall_cons in Hall as [[Hn _] _].
    destruct Hn. apply prefix_nil.
  - rewrite Forall_forall in Hall. destruct (Hall _ Hin) as [_ Hn].
    destruct Hn. apply prefix_nil.
Qed.

Lemma prefix_code_dominated (n : nat) (l : list (Z * list bool)) :
  (sum_list_with (λ wc, length wc.2) l ≤ n)%nat →
  l ≠ [] →
  prefix_code l.*2 →
  Forall (λ wc, 0 ≤ wc.1) l →
  ∃ l' : list (Z * nat),
    l'.*1 ≡ₚ l.*1 ∧ tree_depths l'.*2 ∧ cost l' ≤ code_cost l.
Proof.
  revert l. induction n as [n IH] using lt_wf_ind. intros l Hn Hne Hpc Hnn.
  destruct (decide (length l = 1%nat)) as [Hone|Hmore].
  { destruct l as [|[w c] [|??]]; simplify_eq/=. exists [(w, 0%nat)].
    split_and!; [done|constructor|].
    rewrite Forall_singleton in Hnn. unfold cost, code_cost. simpl in *. nia. }
  assert (2 ≤ length l)%nat as Hlen by (destruct l as [|? [|??]]; simpl in *; done || lia).
  assert (Forall (λ wc, wc.2 ≠ []) l) as Hnonempty.
  { apply Forall_forall. intros [w c] Hin Hc. simpl in Hc. subst c.
    assert (l.*2 = [[]]) as Heq.
    { apply prefix_code_nil_only; [done|]. apply list_elem_of_fmap. by exists (w, []). }
    apply (f_equal length) in Heq. rewrite length_fmap in Heq. simpl in Heq. lia. }
  destruct (strip_counts l Hnonempty) as (Hl & Hm & Hw & Hcc).
  assert (∀ b, Forall (λ wc, 0 ≤ wc.1) (strip b l)) as Hnn'.
  { intros b. apply Forall_forall. intros [w c] Hin. apply elem_of_strip in Hin.
    rewrite Forall_forall in Hnn. by apply (Hnn (w, b :: c)). }
  assert (∀ b, 0 ≤ sum_counts (strip b l).*1) as Hsum.
  { intros b. apply sum_counts_nonneg, Forall_fmap. apply Hnn'. }
  pose proof (strip_prefix_code false l Hpc) as Hpc0.
  pose proof (strip_prefix_code true l Hpc) as Hpc1.
  pose proof (Hsum false) as Hsf. pose proof (Hsum true) as Hst.
  destruct (decide (strip false l = [])) as [Hs0|Hs0];
    [|destruct (decide (strip true l = [])) as [Hs1|Hs1]].
  - destruct (IH (sum_list_with (λ wc, length wc.2) (strip true l)))
      with (l := strip true l) as (l' & Hw' & Ht' & Hc'); [lia|lia| |done|done|].
    { intros Heq. rewrite Hs0, Heq in Hl. simpl in Hl. lia. }
    exists l'. split_and!; [|done|].
    + rewrite Hw', Hw, Hs0. done.
    + rewrite Hcc, Hs0. unfold code_cost in *. simpl. lia.
  - destruct (IH (sum_list_with (λ wc, length wc.2) (strip false l)))
      with (l := strip false l) as (l' & Hw' & Ht' & Hc'); [lia|lia|done|done|done|].
    exists l'. split_and!; [|done|].
    + rewrite Hw', Hw, Hs1. by rewrite app_nil_r.
    + rewrite Hcc, Hs1. unfold code_cost in *. simpl. lia.
  - destruct (IH (sum_list_with (λ wc, length wc.2) (strip false l)))
      with (l := strip false l) as (l0 & Hw0 & Ht0 & Hc0); [lia|lia|done|done|done|].
    destruct (IH (sum_list_with (λ wc, length wc.2) (strip true l)))
      with (l := strip true l) as (l1 & Hw1 & Ht1 & Hc1); [lia|lia|done|done|done|].
    exists (((λ wd, (wd.1, S wd.2)) <$> l0) ++ ((λ wd, (wd.1, S wd.2)) <$> l1)).
    assert (∀ l0 : list (Z * nat),
              ((λ wd : Z * nat, (wd.1, S wd.2)) <$> l0).*2 = S <$> l0.*2) as Hf2.
    { intros l2. rewrite <-!list_fmap_compose. by apply list_fmap_ext. }
    assert (∀ l0 : list (Z * nat),
              ((λ wd : Z * nat, (wd.1, S wd.2)) <$> l0).*1 = l0.*1) as Hf1.
    { intros l2. rewrite <-!list_fmap_compose. by apply list_fmap_ext. }
    split_and!.
    + by rewrite fmap_app, !Hf1, Hw0, Hw1, Hw.
    + rewrite fmap_app, !Hf2. by apply depths_node.
    + rewrite cost_app, !cost_deepen, Hw0, Hw1, Hcc. lia.
Qed.

Lemma prefix_free_prefix_code `{Countable K} (encoding : gmap K (list bool))
    (kl : list (K * Z)) :
  NoDup kl.*1 →
  (∀ k, k ∈ kl.*1 → is_Some (encoding !! k)) →
  prefix_free encoding →
  prefix_code ((λ kc, (kc.2, default [] (encoding !! kc.1))) <$> kl).*2.
Proof.
  intros Hnd Hin Hpf. induction kl as [|[k w] kl IH]; csimpl; [constructor|].
  csimpl in *. apply NoDup_cons in Hnd as [Hk Hnd].
  constructor; [|apply IH; [done|]; intros k' Hk'; apply Hin; by right].
  rewrite <-list_fmap_compose. apply Forall_fmap, Forall_forall.
  intros [k' w'] Hin'. simpl.
  assert (k' ∈ kl.*1) as Hk' by (apply list_elem_of_fmap; by exists (k', w')).
  destruct (Hin k) as [c Hc]; [by left|].
  destruct (Hin k') as [c' Hc']; [by right|].
  rewrite Hc, Hc'. simpl.
  assert (k ≠ k') as Hne by (intros ->; done).
  split; [by apply (Hpf k k')|by apply (Hpf k' k)].
Qed.

(** *** The theorems *)

Lemma weighted_length_ext `{Countable K} (hist : gmap K Z)
    (encoding encoding' : gmap K (list bool)) :
  (∀ k, is_Some (hist !! k) → encoding !! k = encoding' !! k) →
  weighted_length hist encoding = weighted_length hist encoding'.
Proof.
  intros Hext. unfold weighted_length. f_equal.
  apply Forall_fmap_ext_1, Forall_forall. intros [k c] Hin. simpl.
  apply elem_of_map_to_list in Hin. by rewrite Hext.
Qed.

Section optimal_table.
Context `{Countable Value, HuffmanValue Value}.
Context `{PQ : !PriorityQueue (queue_entry Value) count}.
Implicit Types (histogram : gmap Value Z).

Lemma build_encoding_least histogram encoding encoding' :
  build_encoding histogram = Ok encoding →
  (∀ k c, histogram !! k = Some c → 0 ≤ c) →
  total_count histogram < 2 ^ 64 →
  (∀ k, is_Some (histogram !! k) → is_Some (encoding' !! k)) →
  prefix_free encoding' →
  weighted_length histogram encoding ≤ weighted_length histogram encoding'.
Proof.
  intros Hb Hnonneg Htotal Hkeys Hpf.
  pose proof (build_encoding_huffman_cost histogram Hnonneg Htotal encoding Hb) as Hcost.
  destruct (build_encoding_inv _ _ Hb) as (Hsize & _).
  set (lc := (λ kc, (kc.2, default [] (encoding' !! kc.1))) <$> map_to_list histogram).
  destruct (prefix_code_dominated _ lc (reflexivity _)) as (l' & Hw & Ht & Hc).
  - intros Heq. apply (f_equal length) in Heq. unfold lc in Heq.
    rewrite length_fmap, length_map_to_list in Heq. simpl in Heq. lia.
  - apply prefix_free_prefix_code; [apply NoDup_fst_map_to_list| |done].
    intros k ([k' c] & -> & Hin)%list_elem_of_fmap. apply Hkeys.
    apply elem_of_map_to_list in Hin. by exists c.
  - apply Forall_fmap, Forall_forall. intros [k c] Hin. simpl.
    apply elem_of_map_to_list in Hin. by eapply Hnonneg.
  - assert (lc.*1 = (map_to_list histogram).*2) as Hlc.
    { unfold lc. rewrite <-list_fmap_compose. by apply list_fmap_ext. }
    rewrite Hlc in Hw.
    pose proof (huffman_cost_least _ _ Hcost l' Hw Ht) as Hle.
    assert (code_cost lc = weighted_length histogram encoding') as Hcc.
    { unfold code_cost, weighted_length, lc. by rewrite <-list_fmap_compose. }
    lia.
Qed.

(** X19. The table is optimal: when the counts are not negative and their
    sum is less than [2^64], no prefix-free table with a codeword for every
    symbol of the histogram encodes a sequence in which the symbols occur as
    often as the histogram says in fewer bits than the table that
    [build_encoding] returns. *)
Theorem build_encoding_optimal histogram encoding encoding' :
  build_encoding histogram = Ok encoding →
  (∀ k c, histogram !! k = Some c → 0 ≤ c) →
  total_count histogram < 2 ^ 64 →
  (∀ k, is_Some (histogram !! k) → is_Some (encoding' !! k)) →
  prefix_free encoding' →
  weighted_length histogram encoding ≤ weighted_length histogram encoding'.
Proof. apply build_encoding_least. Qed.

(** X20. A more frequent symbol never gets a longer codeword: under the
    same conditions, if the count of [a] is less than the count of [b], the
    codeword of [b] is at most as long as the codeword of [a]. *)
Theorem build_encoding_monotone histogram encoding a b wa wb ca cb :
  build_encoding histogram = Ok encoding →
  (∀ k c, histogram !! k = Some c → 0 ≤ c) →
  total_count histogram < 2 ^ 64 →
  histogram !! a = Some wa → histogram !! b = Some wb →
  encoding !! a = Some ca → encoding !! b = Some cb →
  wa < wb →
  (length cb ≤ length ca)%nat.
Proof.
  intros Hb Hnonneg Htotal Hwa Hwb Hca Hcb Hlt.
  destruct (build_encoding_inv _ _ Hb) as (_ & Hdom & Hpf).
  assert (a ≠ b) as Hab by (intros ->; simplify_eq; lia).
  set (enc' := <[a := cb]> (<[b := ca]> encoding)).
  set (σ := λ k, if decide (k = a) then b else if decide (k = b) then a else k).
  assert (∀ k, enc' !! k = encoding !! σ k) as Hswap.
  { intros k. unfold enc', σ. destruct (decide (k = a)) as [->|Hka].
    - by rewrite lookup_insert_eq.
    - rewrite lookup_insert_ne by done. destruct (decide (k = b)) as [->|Hkb].
      + by rewrite lookup_insert_eq.
      + by rewrite lookup_insert_ne. }
  assert (∀ k1 k2, k1 ≠ k2 → σ k1 ≠ σ k2) as Hinj.
  { intros k1 k2 Hne. unfold σ. repeat case_decide; congruence. }
  assert (prefix_free enc') as Hpf'.
  { intros k1 k2 c1 c2 H1 H2 Hne. rewrite Hswap in H1, H2.
    apply (Hpf (σ k1) (σ k2)); auto. }
  assert (∀ k, is_Some (histogram !! k) → is_Some (enc' !! k)) as Hkeys.
  { intros k Hk. rewrite Hswap. apply elem_of_dom. rewrite Hdom. apply elem_of_dom.
    unfold σ. repeat case_decide; subst; eauto. }
  pose proof (build_encoding_least _ _ enc' Hb Hnonneg Htotal Hkeys Hpf') as Hopt.
  set (h0 := delete a (delete b histogram)).
  assert (weighted_length h0 encoding = weighted_length h0 enc') as Hrest.
  { apply weighted_length_ext. intros k [c Hk]. unfold h0 in Hk.
    apply lookup_delete_Some in Hk as [Hka [Hkb _]%lookup_delete_Some].
    unfold enc'. by rewrite !lookup_insert_ne. }
  unfold h0 in Hrest. rewrite !weighted_length_delete in Hrest.
  unfold count_at in Hrest. rewrite lookup_delete_ne, Hwa, Hwb in Hrest by done.
  simpl in Hrest. rewrite Hca, Hcb in Hrest. unfold enc' in Hrest at 2 3.
  rewrite lookup_insert_eq, lookup_insert_ne, lookup_insert_eq in Hrest by done.
  simpl in Hrest. fold enc' in Hrest. nia.
Qed.
End optimal_table.

Lemma prefix_free_Forall `{Countable K} (encoding : gmap K (list bool)) :
  Forall (λ x, Forall (λ y, x.1 ≠ y.1 → ¬ x.2 `prefix_of` y.2) (map_to_list encoding))
         (map_to_list encoding) →
  prefix_free encoding.
Proof.
  intros Hall k1 k2 c1 c2 H1 H2 Hne.
  apply elem_of_map_to_list in H1, H2. rewrite Forall_forall in Hall.
  specialize (Hall _ H1). rewrite Forall_forall in Hall. by apply (Hall _ H2).
Qed.

(** The table of three symbols against two bits per symbol. *)
Lemma build_encoding_optimal_witness :
  build_encoding (PQ:=list_pq count) hist_abc = Ok encoding_abc ∧
  (∀ k c, hist_abc !! k = Some c → 0 ≤ c) ∧
  total_count hist_abc < 2 ^ 64 ∧
  (∀ k, is_Some (hist_abc !! k) → is_Some (fixed_abc !! k)) ∧
  prefix_free fixed_abc ∧
  weighted_length hist_abc encoding_abc ≤ weighted_length hist_abc fixed_abc.
Proof.
  assert (map_Forall (λ _ c, 0 ≤ c) hist_abc) as Hnn.
  { apply map_Forall_to_list, (bool_decide_unpack _). vm_compute. reflexivity. }
  assert (total_count hist_abc < 2 ^ 64) as Htotal by (vm_compute; reflexivity).
  assert (map_Forall (λ k _, is_Some (fixed_abc !! k)) hist_abc) as Hkeys.
  { apply map_Forall_to_list, (bool_decide_unpack _). vm_compute. reflexivity. }
  assert (prefix_free fixed_abc) as Hpf.
  { apply prefix_free_Forall, (bool_decide_unpack _). vm_compute. reflexivity. }
  assert (build_encoding (PQ:=list_pq count) hist_abc = Ok encoding_abc) as Hb
    by (vm_compute; reflexivity).
  assert (∀ k, is_Some (hist_abc !! k) → is_Some (fixed_abc !! k)) as Hkeys'.
  { intros k [c Hk]. exact (Hkeys k c Hk). }
  split; [exact Hb|]. split; [exact Hnn|]. split; [exact Htotal|].
  split; [exact Hkeys'|]. split; [exact Hpf|].
  exact (build_encoding_optimal hist_abc encoding_abc fixed_abc Hb Hnn Htotal Hkeys' Hpf).
Defined.

Lemma build_encoding_monotone_witness :
  build_encoding (PQ:=list_pq count) hist_abc = Ok encoding_abc ∧
  (∀ k c, hist_abc !! k = Some c → 0 ≤ c) ∧
  total_count hist_abc < 2 ^ 64 ∧
  hist_abc !! 1 = Some 1 ∧ hist_abc !! 3 = Some 2 ∧
  encoding_abc !! 1 = Some [true; false] ∧ encoding_abc !! 3 = Some [false] ∧
  1 < 2 ∧
  (length [false] ≤ length [true; false])%nat.
Proof.
  assert (1 < 2) as Hlt by lia.
  assert (map_Forall (λ _ c, 0 ≤ c) hist_abc) as Hnn.
  { apply map_Forall_to_list, (bool_decide_unpack _). vm_compute. reflexivity. }
  assert (total_count hist_abc < 2 ^ 64) as Htotal by (vm_compute; reflexivity).
  assert (hist_abc !! 1 = Some 1) as Ha by reflexivity.
  assert (hist_abc !! 3 = Some 2) as Hb' by reflexivity.
  assert (encoding_abc !! 1 = Some [true; false]) as Hca by reflexivity.
  assert (encoding_abc !! 3 = Some [false]) as Hcb by reflexivity.
  assert (build_encoding (PQ:=list_pq count) hist_abc = Ok encoding_abc) as Hb
    by (vm_compute; reflexivity).
  split; [exact Hb|]. split; [exact Hnn|]. split; [exact Htotal|].
  split; [exact Ha|]. split; [exact Hb'|]. split; [exact Hca|]. split; [exact Hcb|].
  split; [exact Hlt|].
  exact (build_encoding_monotone hist_abc encoding_abc 1 3 1 2 [true; false] [false]
           Hb Hnn Htotal Ha Hb' Hca Hcb Hlt).
Defined.

(** ** The decoder on arbitrary input *)

Lemma decode_loop_robust (d : dense_table) (e2i : gmap (list bool) Z)
    (side : list Z) (bits : list bool) (st : decode_state) :
  match decode_loop d e2i side bits st with
  | Ok st' =>
      (length (decoded_sequence st')
       ≤ length (decoded_sequence st) + length bits)%nat ∧
      (unpred_idx st ≤ unpred_idx st' ≤ unpred_idx st + length bits)%nat
  | Err e =>
      e = undefined_behavior ∧ (length side < unpred_idx st + length bits)%nat
  end.
Proof.
  revert st. induction bits as [|b bits IH]; intros st; simpl; [lia|].
  destruct (e2i !! (so_far st ++ [b])) as [idx|].
  - unfold on_match. case_decide as Hm; simpl.
    + specialize (IH (mk_decode (decoded_sequence st ++ [wrap32 (idx + least d)]) []
                        (unpred_idx st))).
      destruct (decode_loop _ _ _ _ _) as [st'|e]; simpl in *.
      * rewrite length_app in IH. simpl in IH. lia.
      * destruct IH as [-> ?]. split; [done|lia].
    + destruct (side !! unpred_idx st) as [v|] eqn:Hv; simpl.
      * specialize (IH (mk_decode (decoded_sequence st ++ [v]) [] (S (unpred_idx st)))).
        destruct (decode_loop _ _ _ _ _) as [st'|e]; simpl in *.
        -- rewrite length_app in IH. simpl in IH. lia.
        -- destruct IH as [-> ?]. split; [done|lia].
      * apply lookup_ge_None in Hv. split; [done|lia].
  - specialize (IH (mk_decode (decoded_sequence st) (so_far st ++ [b]) (unpred_idx st))).
    destruct (decode_loop _ _ _ _ _) as [st'|e]; simpl in *; [lia|].
    destruct IH as [-> ?]. split; [done|lia].
Qed.

(** X21. The decoder on any bits, any side channel and any table: its
    only failure is the read of [unpredictable] past its end, which is
    undefined; with at least as many side values as bits it always returns;
    and it decodes at most one symbol per bit. *)
Theorem decode_robust (d : dense_table) (bits : list bool) (side : list Z) :
  (∀ e, decode d bits side = Err e →
     e = undefined_behavior ∧ (length side < length bits)%nat) ∧
  (∀ st, decode d bits side = Ok st →
     (length (decoded_sequence st) ≤ length bits)%nat ∧
     (unpred_idx st ≤ length bits)%nat) ∧
  ((length bits ≤ length side)%nat → ∃ st, decode d bits side = Ok st).
Proof.
  unfold decode.
  pose proof (decode_loop_robust d (make_encodings_to_indices d) side bits
                (mk_decode [] [] 0)) as Hr.
  destruct (decode_loop _ _ _ _ _) as [st'|e]; simpl in *.
  - split_and!; [done| |by eexists]. intros st [= <-]. lia.
  - split_and!; [|done|lia]. intros e' [= <-]. done.
Qed.

Lemma decode_robust_witness :
  (∀ e, decode dense_small [false; false] [] = Err e →
     e = undefined_behavior ∧ (length ([] : list Z) < length [false; false])%nat) ∧
  (∀ st, decode dense_small [false; false] [] = Ok st →
     (length (decoded_sequence st) ≤ length [false; false])%nat ∧
     (unpred_idx st ≤ length [false; false])%nat) ∧
  ((length [false; false] ≤ length ([] : list Z))%nat →
   ∃ st, decode dense_small [false; false] [] = Ok st).
Proof. exact (decode_robust dense_small [false; false] []). Defined.

(** ** The bytes determine the values *)

Lemma fmap_b2z_prefix (c1 c2 : list bool) (k : list Z) :
  Z.b2z <$> c1 = (Z.b2z <$> c2) ++ k → c2 `prefix_of` c1.
Proof.
  revert c1. induction c2 as [|b2 c2 IH]; intros c1 Heq; [apply prefix_nil|].
  destruct c1 as [|b1 c1]; [done|]. csimpl in Heq. injection Heq as Hb Heq.
  assert (b1 = b2) as -> by (by destruct b1, b2).
  apply prefix_cons. by apply IH.
Qed.

Lemma encoded_bytes_inj (encoding : gmap Z (list bool)) (values1 values2 : list Z) :
  prefix_free encoding →
  (∀ k c, encoding !! k = Some c → c ≠ []) →
  Forall (λ v, is_Some (encoding !! v)) values1 →
  Forall (λ v, is_Some (encoding !! v)) values2 →
  encoded_bytes encoding values1 = encoded_bytes encoding values2 →
  values1 = values2.
Proof.
  intros Hpf Hne H1. revert values2.
  assert (∀ v values, is_Some (encoding !! v) →
            encoded_bytes encoding (v :: values) ≠ []) as Hcons.
  { intros v values [c Hc] Heq. rewrite encoded_bytes_cons in Heq.
    apply app_eq_nil in Heq as [Heq _]. unfold bytes_of in Heq. rewrite Hc in Heq.
    simpl in Heq. apply fmap_nil_inv in Heq. by apply (Hne v c). }
  induction H1 as [|v1 values1 Hv1 _ IH]; intros values2 H2 Heq.
  - destruct H2 as [|v2 values2 Hv2 _]; [done|].
    symmetry in Heq. by apply Hcons in Heq.
  - destruct H2 as [|v2 values2 Hv2 H2]; [by apply Hcons in Heq|].
    rewrite !encoded_bytes_cons in Heq. unfold bytes_of in Heq.
    destruct Hv1 as [c1 Hc1], Hv2 as [c2 Hc2]. rewrite Hc1, Hc2 in Heq. simpl in Heq.
    assert (v1 = v2) as ->.
    { destruct (decide (v1 = v2)) as [|Hne12]; [done|exfalso].
      apply app_eq_inv in Heq as [(k & Hk & _)|(k & Hk & _)].
      - apply fmap_b2z_prefix in Hk. by apply (Hpf v2 v1 c2 c1).
      - apply fmap_b2z_prefix in Hk. by apply (Hpf v1 v2 c1 c2). }
    simplify_eq. f_equal. by apply IH.
Qed.

Lemma serial_encode_Ok_inv (encoding : gmap Z (list bool)) (values : list Z)
    (encoded : list Z) :
  serial_encode encoding values = Ok encoded →
  Forall (λ v, is_Some (encoding !! v)) values ∧
  encoded = encoded_bytes encoding values.
Proof.
  intros Hs. unfold serial_encode in Hs.
  destruct (decide (Forall (λ v, is_Some (encoding !! v)) values)) as [Hall|Hex].
  - rewrite serial_loop_spec in Hs by done. by injection Hs as <-.
  - apply not_Forall_Exists in Hex; [|apply _].
    rewrite serial_loop_missing in Hs; [done|].
    eapply Exists_impl; [done|]. simpl. intros v Hv. by apply eq_None_not_Some.
Qed.

Section lossless.
Context `{PQ : !PriorityQueue (queue_entry Z) count}.

(** X22. The encoders of huffman_code.cc lose nothing: with the table that
    the program builds from a histogram, two sequences of values that the
    serial encoder turns into the same bytes are the same sequence. *)
Theorem serial_encode_injective (histogram : gmap Z Z) (entries : list (Z * Z))
    (encoding : gmap Z (list bool)) (values1 values2 encoded : list Z) :
  iteration_order histogram entries →
  main_encoding entries = Ok encoding →
  serial_encode encoding values1 = Ok encoded →
  serial_encode encoding values2 = Ok encoded →
  values1 = values2.
Proof.
  intros Horder Hmain [Hall1 ->]%serial_encode_Ok_inv [Hall2 Heq]%serial_encode_Ok_inv.
  destruct (decide (2 ≤ size histogram)%nat) as [Hsize|Hsize].
  - destruct (main_encoding_Ok histogram entries Horder Hsize)
      as (root & Hmain' & Hfull & Hlv & Hic).
    rewrite Hmain in Hmain'. injection Hmain' as ->.
    destruct (leaf_values_histogram histogram root Hlv) as [Hnd Hdom].
    apply (encoded_bytes_inj (walk root)); [by apply walk_prefix_free| |done..].
    intros k c Hk ->. apply walk_lookup in Hk; [|done].
    destruct (codes_length root [] (k, []) Hfull Hk) as [_ Hlt]. simpl in Hlt. lia.
  - rewrite (main_encoding_Err histogram entries Horder) in Hmain; [done|lia].
Qed.
End lossless.

Lemma serial_encode_injective_witness :
  iteration_order hist_abc (map_in_order hist_abc) ∧
  main_encoding (PQ:=list_pq count) (map_in_order hist_abc) = Ok encoding_abc ∧
  serial_encode encoding_abc [3; 1] = Ok [0; 1; 0] ∧
  serial_encode encoding_abc [3; 1] = Ok [0; 1; 0] ∧
  [3; 1] = [3; 1].
Proof.
  assert (iteration_order hist_abc (map_in_order hist_abc)) as Horder
    by apply merge_sort_Permutation.
  assert (serial_encode encoding_abc [3; 1] = Ok [0; 1; 0]) as Hs
    by (vm_compute; reflexivity).
  assert (main_encoding (PQ:=list_pq count) (map_in_order hist_abc) = Ok encoding_abc)
    as Hmain by (vm_compute; reflexivity).
  split; [exact Horder|]. split; [exact Hmain|]. split; [exact Hs|]. split; [exact Hs|].
  exact (serial_encode_injective hist_abc _ encoding_abc [3; 1] [3; 1] [0; 1; 0]
           Horder Hmain Hs Hs).
Defined.
